(** * Rally racing: the race simulation and its settlement

    A shallow embedding of the "Start Race!" handler of [rally_app.py]
    (lines 140-188) and of the helpers it calls, with the properties of the
    performance formula, of the fee and prize accounting and of the ranking.

    Conventions of the embedding.
    - In the handler numbers are exact rationals ([Q]): its arithmetic is
      read as arithmetic on the numbers it denotes, and what is proved of
      the handler (its commands, its accounting, the order of what it
      does, the paths it takes) does not rest on how a time rounds.  The
      one partial operation, [/], raises [ZeroDivisionError] on a zero
      divisor as Python does.  What depends on the rounding of Python's
      floats (the sign of a finish time, whether one is computed at all)
      is proved in the last part, where lines 160-166 are embedded on
      binary64 numbers.
    - The handler runs against a [world]: the TEAMS table, the values the
      random source will return, whether the connections to come will open
      and whether the commands to come will be accepted, and the trace of
      what the handler did so far (Streamlit calls, commands sent, random
      draws, sleeps), oldest first.
    - A Python exception leaves the world as it was when it was raised:
      computations return the new world together with a value or an
      exception.
    - [DataFrame.sort_values] is library code.  It is called with its
      default [kind] ("quicksort"), for which pandas promises a sorted
      rearrangement of the rows and nothing about rows with equal keys.
      The handler is embedded over any function [sort_values], and its
      properties are proved for every function with that contract. *)

From Stdlib Require Import List String QArith Lia Lqa Bool Arith.
From Stdlib Require Import Permutation Sorted.
Import ListNotations.

Open Scope string_scope.
Open Scope Q_scope.

(** ** Python values and exceptions *)

(** The exceptions that can end a run of the handler: a division by zero,
    a missing column, and the exception by which [st.stop()] ends the run
    of the script. *)
Inductive exn : Type :=
| ZeroDivisionError
| KeyError
| StopException.

(** [a / b] on numbers, read on the rationals they denote; on floats it
    is [Binary64.py_div], in the last part. *)
Definition py_div (a b : Q) : exn + Q :=
  if Qeq_bool b 0 then inl ZeroDivisionError else inr (a / b).

(** [random.uniform(a, b)] is [a + (b - a) * self.random()]; [u] is the
    value [random()] returned. *)
Definition uniform (a b u : Q) : Q := a + (b - a) * u.

(** ** Rows *)

(** A row of [cars_df] (the query of [get_data]). *)
Record car : Type := {
  CAR_ID : Z;
  TEAM_NAME : string;
  MODEL : string;
  CATEGORY_NAME : string;
  HORSEPOWER : Q;
  DRIVETRAIN : string;
  MIN_WEIGHT_KG : Q;
  DRIVER_NAME : string;
  SKILL_LEVEL : Q;
  LUCK_LEVEL : Q
}.

(** A row of BOOTCAMP_RALLY.TEAMS_DATA.TEAMS. *)
Record team : Type := {
  team_name : string;
  budget : Q
}.

(** An element of [race_results]. *)
Record race_result : Type := {
  Team : string;
  Driver : string;
  Car_Model : string;
  Time : Q
}.

(** ** The performance formula (lines 160-166) *)

Definition power_to_weight (c : car) : exn + Q :=
  py_div (HORSEPOWER c) (MIN_WEIGHT_KG c).

Definition drivetrain_bonus (c : car) : Q :=
  if String.eqb (DRIVETRAIN c) "4WD" then 1.05 else 1.0.

Definition skill_factor (c : car) : Q :=
  1 + ((SKILL_LEVEL c - 50) / 50) * 0.1.

(** The two arguments of [random.uniform] on line 163. *)
Definition luck_low (c : car) : Q := 1 - (LUCK_LEVEL c / 1000).
Definition luck_high (c : car) : Q := 1 + (LUCK_LEVEL c / 1000).

Definition performance_score (c : car) (ptw luck_factor : Q) : Q :=
  ptw * drivetrain_bonus c * skill_factor c * luck_factor.

(** Lines 165-166, once [power_to_weight] and [luck_factor] are known. *)
Definition finish (c : car) (ptw luck_factor : Q) : exn + Q :=
  py_div 100 (performance_score c ptw luck_factor).

(** The finish time of a car as a function of the luck factor drawn for
    it.  What Python's floats make of it (its sign, whether it exists, how
    it moves with the inputs) is the subject of [Binary64.time_taken]. *)
Definition time_taken (c : car) (luck_factor : Q) : exn + Q :=
  match power_to_weight c with
  | inl e => inl e
  | inr ptw => finish c ptw luck_factor
  end.

(** ** The world and its trace *)

(** The two commands the handler sends through [execute_command]:
    "UPDATE ... SET budget = budget - %s WHERE team_name = %s" and the same
    with [+], each with its parameters. *)
Inductive command : Type :=
| BudgetMinus (amount : Q) (name : string)
| BudgetPlus (amount : Q) (name : string).

Inductive message : Type :=
| NotEnoughCars
| RaceIsOn
| RaceDetails (fee prize : Q)
| FeesCollected
| ConnectionFailed
| CommandFailed
| RaceResultsHeader
| Winner (driver team_ : string)
| Awarded (prize : Q) (team_ : string).

Inductive event : Type :=
| StWarning (m : message)
| StInfo (m : message)
| StWrite (m : message)
| StSuccess (m : message)
| StError (m : message)
| StSubheader (m : message)
| StDataframe (rows : list (nat * race_result))
| StBalloons
| Execute (cmd : command)
| RandomUniform (a b : Q)
| Sleep
| CacheClear
| Rerun.

Record world : Type := {
  TEAMS : list team;
  entropy : nat -> Q;
  connections : nat -> bool;
  replies : nat -> bool;
  trace : list event
}.

(** ** Computations *)

Definition M (A : Type) : Type := world -> world * (exn + A).

Definition ret {A} (a : A) : M A := fun w => (w, inr a).

Definition bind {A B} (m : M A) (k : A -> M B) : M B :=
  fun w => match m w with
           | (w', inl e) => (w', inl e)
           | (w', inr a) => k a w'
           end.

Definition lift {A} (r : exn + A) : M A := fun w => (w, r).

Notation "x <- m ;; k" := (bind m (fun x => k))
  (at level 61, m at next level, right associativity).
Notation "m ;; k" := (bind m (fun _ => k))
  (at level 61, right associativity).

Definition emit (e : event) : M unit := fun w =>
  ({| TEAMS := TEAMS w; entropy := entropy w;
      connections := connections w; replies := replies w;
      trace := trace w ++ [e] |}, inr tt).

(** The UPDATE statement on the table: every row of that name is changed. *)
Definition apply_command (cmd : command) (rows : list team) : list team :=
  match cmd with
  | BudgetMinus amount name =>
      map (fun t => if String.eqb (team_name t) name
                    then {| team_name := team_name t; budget := budget t - amount |}
                    else t) rows
  | BudgetPlus amount name =>
      map (fun t => if String.eqb (team_name t) name
                    then {| team_name := team_name t; budget := budget t + amount |}
                    else t) rows
  end.

(** [snowflake_connection]: the connection is opened, or the error is shown
    and [st.stop()] ends the run of the script. *)
Definition snowflake_connection : M unit := fun w =>
  let w' := {| TEAMS := TEAMS w; entropy := entropy w;
               connections := fun n => connections w (S n);
               replies := replies w;
               trace := if connections w 0%nat then trace w
                        else trace w ++ [StError ConnectionFailed] |} in
  (w', if connections w 0%nat then inr tt else inl StopException).

(** [cur.execute(command, params)] inside the [try] of [execute_command]:
    when the database refuses the command the error is shown and [False] is
    returned, the table being left as it was. *)
Definition cursor_execute (cmd : command) : M bool := fun w =>
  let ok := replies w 0%nat in
  ({| TEAMS := if ok then apply_command cmd (TEAMS w) else TEAMS w;
      entropy := entropy w;
      connections := connections w;
      replies := fun n => replies w (S n);
      trace := trace w ++ Execute cmd :: (if ok then [] else [StError CommandFailed]) |},
   inr ok).

Definition execute_command (cmd : command) : M bool :=
  snowflake_connection ;;
  cursor_execute cmd.

(** [random.uniform(a, b)] on the shared random source. *)
Definition random_uniform (a b : Q) : M Q := fun w =>
  ({| TEAMS := TEAMS w;
      entropy := fun n => entropy w (S n);
      connections := connections w;
      replies := replies w;
      trace := trace w ++ [RandomUniform a b] |},
   inr (uniform a b (entropy w 0%nat))).

(** [Series.unique()]: the distinct values in order of first appearance. *)
Fixpoint unique (l : list string) : list string :=
  match l with
  | [] => []
  | x :: rest => x :: filter (fun y => negb (String.eqb x y)) (unique rest)
  end.

Definition FEE : Q := 1000.

Definition PRIZE (cars_df : list car) : Q :=
  inject_Z (Z.of_nat (List.length (unique (map TEAM_NAME cars_df)))) * FEE * 0.8.

(** The fee loop (lines 152-153). *)
Fixpoint deduct_fees (teams_in_race : list string) : M unit :=
  match teams_in_race with
  | [] => ret tt
  | team_ :: rest =>
      execute_command (BudgetMinus FEE team_) ;;
      deduct_fees rest
  end.

(** The body of the simulation loop (lines 160-172). *)
Definition simulate_car (c : car) : M race_result :=
  ptw <- lift (power_to_weight c) ;;
  luck_factor <- random_uniform (luck_low c) (luck_high c) ;;
  time_taken_ <- lift (finish c ptw luck_factor) ;;
  emit Sleep ;;
  ret {| Team := TEAM_NAME c; Driver := DRIVER_NAME c;
         Car_Model := MODEL c; Time := time_taken_ |}.

(** The simulation loop (line 159), [race_results] being appended to. *)
Fixpoint simulate (cars : list car) (race_results : list race_result)
  : M (list race_result) :=
  match cars with
  | [] => ret race_results
  | c :: rest =>
      r <- simulate_car c ;;
      simulate rest (race_results ++ [r])
  end.

(** [reset_index(drop=True)] followed by [index += 1]. *)
Definition reset_index (rows : list race_result) : list (nat * race_result) :=
  combine (seq 1 (List.length rows)) rows.

Definition by_time (a b : race_result) : Prop := Time a <= Time b.

Section Handler.

(** [sort_values(by="Time")] on the rows of [race_results]. *)
Variable sort_values : list race_result -> list race_result.

(** Lines 175-188. *)
Definition award (cars_df : list car) (race_results : list race_result) : M unit :=
  let results_df := reset_index (sort_values race_results) in
  match results_df with
  | [] => lift (inl KeyError)
  | (_, winner) :: _ =>
      emit (StSubheader RaceResultsHeader) ;;
      emit (StDataframe results_df) ;;
      emit StBalloons ;;
      emit (StSuccess (Winner (Driver winner) (Team winner))) ;;
      execute_command (BudgetPlus (PRIZE cars_df) (Team winner)) ;;
      emit (StSuccess (Awarded (PRIZE cars_df) (Team winner))) ;;
      emit CacheClear ;;
      emit Rerun
  end.

(** The handler of the "Start Race!" button (lines 141-188). *)
Definition start_race (cars_df : list car) : M unit :=
  if (List.length cars_df <? 2)%nat then
    emit (StWarning NotEnoughCars)
  else
    emit (StInfo RaceIsOn) ;;
    emit (StWrite (RaceDetails FEE (PRIZE cars_df))) ;;
    deduct_fees (unique (map TEAM_NAME cars_df)) ;;
    emit (StSuccess FeesCollected) ;;
    race_results <- simulate cars_df [] ;;
    award cars_df race_results.

End Handler.

(** ** Facts on division *)

Lemma py_div_ok (a b : Q) : ~ b == 0 -> py_div a b = inr (a / b).
Proof.
  intros Hb. unfold py_div.
  destruct (Qeq_bool b 0) eqn:E; [|reflexivity].
  apply Qeq_bool_eq in E. contradiction.
Qed.

Lemma py_div_zero (a b : Q) : b == 0 -> py_div a b = inl ZeroDivisionError.
Proof.
  intros Hb. unfold py_div. now rewrite (Qeq_eq_bool _ _ Hb).
Qed.

(** The divisions by the constants 50 and 1000 are multiplications. *)
Ltac const_div :=
  unfold Qdiv in *;
  change (/ 50) with (1 # 50) in *;
  change (/ 1000) with (1 # 1000) in *.

(** ** The performance formula *)

Lemma uniform_in_range (a b u : Q) :
  a <= b -> 0 <= u <= 1 -> a <= uniform a b u <= b.
Proof.
  intros Hab [H0 H1]. unfold uniform. split; nra.
Qed.

(** The time of a car whose divisions succeed, in closed form. *)
Lemma time_taken_defined (c : car) (l : Q) :
  ~ MIN_WEIGHT_KG c == 0 ->
  ~ performance_score c (HORSEPOWER c / MIN_WEIGHT_KG c) l == 0 ->
  time_taken c l =
  inr (100 / performance_score c (HORSEPOWER c / MIN_WEIGHT_KG c) l).
Proof.
  intros Hw Hs. unfold time_taken, power_to_weight, finish.
  rewrite (py_div_ok _ _ Hw). now rewrite (py_div_ok _ _ Hs).
Qed.

(** What one turn of the simulation loop does, in terms of [time_taken]. *)
Definition after_draw (c : car) (w : world) : world :=
  {| TEAMS := TEAMS w;
     entropy := fun n => entropy w (S n);
     connections := connections w;
     replies := replies w;
     trace := trace w ++ [RandomUniform (luck_low c) (luck_high c)] |}.

Definition after_car (c : car) (w : world) : world :=
  {| TEAMS := TEAMS w;
     entropy := fun n => entropy w (S n);
     connections := connections w;
     replies := replies w;
     trace := (trace w ++ [RandomUniform (luck_low c) (luck_high c)]) ++ [Sleep] |}.

Definition drawn_luck (c : car) (w : world) : Q :=
  uniform (luck_low c) (luck_high c) (entropy w 0%nat).

Definition result_row (c : car) (t : Q) : race_result :=
  {| Team := TEAM_NAME c; Driver := DRIVER_NAME c;
     Car_Model := MODEL c; Time := t |}.

Lemma simulate_car_returns (c : car) (w : world) (t : Q) :
  time_taken c (drawn_luck c w) = inr t ->
  simulate_car c w = (after_car c w, inr (result_row c t)).
Proof.
  unfold time_taken, simulate_car, bind, lift, random_uniform, emit, ret.
  destruct (power_to_weight c) as [e|ptw]; [discriminate|].
  cbn. unfold drawn_luck. intros ->. reflexivity.
Qed.

Lemma simulate_car_raises (c : car) (w : world) (e : exn) :
  time_taken c (drawn_luck c w) = inl e ->
  exists w', simulate_car c w = (w', inl e) /\ TEAMS w' = TEAMS w /\
             (w' = w \/ w' = after_draw c w).
Proof.
  unfold time_taken, simulate_car, bind, lift, random_uniform, emit, ret.
  destruct (power_to_weight c) as [e'|ptw].
  - intros [= ->]. exists w. auto.
  - cbn. unfold drawn_luck. intros ->. exists (after_draw c w). auto.
Qed.

(** C10. The drivetrain bonus is 1.05 exactly when the DRIVETRAIN field is
    the string "4WD", compared character by character; it is 1.0 for every
    other value of the field. *)
Theorem drivetrain_bonus_exact_match (c : car) :
  (drivetrain_bonus c == 1.05 <-> DRIVETRAIN c = "4WD") /\
  (drivetrain_bonus c == 1.0 <-> DRIVETRAIN c <> "4WD").
Proof.
  unfold drivetrain_bonus.
  destruct (String.eqb_spec (DRIVETRAIN c) "4WD") as [E|E].
  - split; split; intros H; try exact E; try reflexivity.
    + discriminate H.
    + contradiction.
  - split; split; intros H; try exact E; try reflexivity.
    + discriminate H.
    + contradiction.
Qed.

(** Variants of the spelling do not earn the bonus. *)
Example drivetrain_bonus_variants :
  forall c, In (DRIVETRAIN c) ["4wd"; "AWD"; "4WD "; " 4WD"; "4Wd"; ""] ->
            drivetrain_bonus c = 1.0.
Proof.
  intros c H. unfold drivetrain_bonus. cbn in H.
  repeat (destruct H as [<-|H]; [reflexivity|]). contradiction.
Qed.

Lemma performance_score_zero (c : car) (ptw l : Q) :
  ptw == 0 -> performance_score c ptw l == 0.
Proof. intros H. unfold performance_score. rewrite H. ring. Qed.


(** ** Reading a trace *)

(** The commands sent to the database, in order. *)
Definition commands_of (t : list event) : list command :=
  flat_map (fun e => match e with Execute cmd => [cmd] | _ => [] end) t.

(** The tables shown, in order. *)
Definition dataframes_of (t : list event) : list (list (nat * race_result)) :=
  flat_map (fun e => match e with StDataframe rows => [rows] | _ => [] end) t.

(** The events of the simulation loop. *)
Definition is_simulation (e : event) : bool :=
  match e with
  | RandomUniform _ _ | Sleep => true
  | _ => false
  end.

Definition is_debit (cmd : command) : bool :=
  match cmd with
  | BudgetMinus _ _ => true
  | BudgetPlus _ _ => false
  end.

(** The events of the fee loop. *)
Definition is_fee_event (e : event) : bool :=
  match e with
  | Execute (BudgetMinus _ _) | StError _ => true
  | _ => false
  end.

Lemma commands_of_app (t1 t2 : list event) :
  commands_of (t1 ++ t2) = (commands_of t1 ++ commands_of t2)%list.
Proof. apply flat_map_app. Qed.

Lemma dataframes_of_app (t1 t2 : list event) :
  dataframes_of (t1 ++ t2) = (dataframes_of t1 ++ dataframes_of t2)%list.
Proof. apply flat_map_app. Qed.

Lemma fee_events_no_simulation (t : list event) :
  forallb is_fee_event t = true ->
  forallb (fun e => negb (is_simulation e)) t = true.
Proof.
  induction t as [|e t IH]; cbn; [reflexivity|].
  intros H. apply andb_prop in H. destruct H as [He Ht].
  rewrite (IH Ht), andb_true_r. destruct e; try reflexivity; discriminate He.
Qed.

Lemma fee_events_no_dataframe (t : list event) :
  forallb is_fee_event t = true -> dataframes_of t = [].
Proof.
  induction t as [|e t IH]; [reflexivity|].
  intros H. cbn in H. apply andb_prop in H. destruct H as [He Ht].
  change (e :: t) with ([e] ++ t)%list.
  rewrite dataframes_of_app, (IH Ht), app_nil_r.
  destruct e; try reflexivity; discriminate He.
Qed.

(** ** [unique] *)

Lemma unique_In (l : list string) (x : string) : In x (unique l) <-> In x l.
Proof.
  induction l as [|y l IH]; cbn; [tauto|].
  rewrite filter_In, IH.
  destruct (String.eqb_spec y x) as [->|Hne]; cbn; intuition congruence.
Qed.

Lemma filter_NoDup {A} (f : A -> bool) (l : list A) :
  NoDup l -> NoDup (filter f l).
Proof.
  induction 1 as [|x l Hx Hl IH]; cbn; [constructor|].
  destruct (f x); [constructor|]; trivial.
  rewrite filter_In. tauto.
Qed.

Lemma unique_NoDup (l : list string) : NoDup (unique l).
Proof.
  induction l as [|y l IH]; cbn; constructor.
  - rewrite filter_In. intros [_ H]. now rewrite String.eqb_refl in H.
  - now apply filter_NoDup.
Qed.

(** Any duplicate-free enumeration of the same names has the length of
    [unique]: this length is the number of distinct names. *)
Lemma unique_length (l d : list string) :
  NoDup d -> (forall x, In x d <-> In x l) ->
  List.length d = List.length (unique l).
Proof.
  intros Hd Hin. apply Nat.le_antisymm.
  - apply NoDup_incl_length; [exact Hd|].
    intros x Hx. apply unique_In, Hin, Hx.
  - apply NoDup_incl_length; [apply unique_NoDup|].
    intros x Hx. apply Hin, unique_In, Hx.
Qed.

(** ** The fee loop *)

(** A row after the fee phase when every command went through. *)
Definition debit (names : list string) (t : team) : team :=
  if existsb (String.eqb (team_name t)) names
  then {| team_name := team_name t; budget := budget t - FEE |}
  else t.

Definition debit_all (names : list string) (rows : list team) : list team :=
  fold_left (fun rows name => apply_command (BudgetMinus FEE name) rows) names rows.

Lemma debit_all_once (names : list string) (rows : list team) :
  NoDup names -> debit_all names rows = map (debit names) rows.
Proof.
  intros Hnd. revert rows.
  induction Hnd as [|n names Hn Hnd IH]; intros rows.
  - cbn. induction rows as [|t rows IHr]; cbn; [reflexivity|].
    now rewrite <- IHr.
  - cbn. fold (debit_all names). rewrite IH, map_map.
    apply map_ext. intros t. unfold debit. cbn.
    destruct (String.eqb_spec (team_name t) n) as [->|Hne]; cbn; [|reflexivity].
    replace (existsb (String.eqb n) names) with false; [reflexivity|].
    symmetry. apply not_true_is_false. intros H.
    apply existsb_exists in H. destruct H as (x & Hx & E).
    apply String.eqb_eq in E. now subst x.
Qed.

(** One command, when the connection opens. *)
Definition after_command (cmd : command) (w : world) : world :=
  {| TEAMS := if replies w 0%nat then apply_command cmd (TEAMS w) else TEAMS w;
     entropy := entropy w;
     connections := fun n => connections w (S n);
     replies := fun n => replies w (S n);
     trace := trace w ++ Execute cmd
                :: (if replies w 0%nat then [] else [StError CommandFailed]) |}.

(** One command, when the connection does not open. *)
Definition after_stop (w : world) : world :=
  {| TEAMS := TEAMS w;
     entropy := entropy w;
     connections := fun n => connections w (S n);
     replies := replies w;
     trace := trace w ++ [StError ConnectionFailed] |}.

Lemma execute_command_connected (cmd : command) (w : world) :
  connections w 0%nat = true ->
  execute_command cmd w = (after_command cmd w, inr (replies w 0%nat)).
Proof.
  intros H. unfold execute_command, bind, snowflake_connection.
  rewrite H. reflexivity.
Qed.

Lemma execute_command_stopped (cmd : command) (w : world) :
  connections w 0%nat = false ->
  execute_command cmd w = (after_stop w, inl StopException).
Proof.
  intros H. unfold execute_command, bind, snowflake_connection.
  rewrite H. reflexivity.
Qed.

Lemma deduct_fees_connected (n : string) (names : list string) (w : world) :
  connections w 0%nat = true ->
  deduct_fees (n :: names) w =
  deduct_fees names (after_command (BudgetMinus FEE n) w).
Proof.
  intros H. cbn [deduct_fees]. unfold bind at 1.
  now rewrite (execute_command_connected _ w H).
Qed.

Lemma deduct_fees_stopped (n : string) (names : list string) (w : world) :
  connections w 0%nat = false ->
  deduct_fees (n :: names) w = (after_stop w, inl StopException).
Proof.
  intros H. cbn [deduct_fees]. unfold bind at 1.
  now rewrite (execute_command_stopped _ w H).
Qed.

(** The fee loop sends the debits of a prefix [sent] of the names: all of
    them, unless a connection fails. *)
Lemma deduct_fees_run (names : list string) (w : world) :
  exists w' fees sent,
    trace w' = (trace w ++ fees)%list /\
    forallb is_fee_event fees = true /\
    commands_of fees = map (BudgetMinus FEE) sent /\
    entropy w' = entropy w /\
    ((exists more,
         deduct_fees names w = (w', inl StopException) /\
         names = (sent ++ more)%list /\ more <> [] /\
         connections w (List.length sent) = false) \/
     (deduct_fees names w = (w', inr tt) /\
      sent = names /\
      (forall k, connections w' k = connections w (k + List.length names)%nat) /\
      (forall k, replies w' k = replies w (k + List.length names)%nat) /\
      ((forall k, (k < List.length names)%nat -> replies w k = true) ->
       TEAMS w' = debit_all names (TEAMS w)))).
Proof.
  revert w. induction names as [|n names IH]; intros w.
  - exists w, [], []. rewrite app_nil_r.
    repeat (split; [reflexivity|]). right.
    repeat (split; [reflexivity|]).
    split; [intros k; now rewrite Nat.add_0_r|].
    split; [intros k; now rewrite Nat.add_0_r|]. reflexivity.
  - destruct (connections w 0%nat) eqn:Hc.
    + rewrite (deduct_fees_connected n names w Hc).
      destruct (IH (after_command (BudgetMinus FEE n) w))
        as (w' & fees & sent & Htr & Hfee & Hcmd & Hent & Hres).
      cbn [trace entropy after_command] in Htr, Hent.
      exists w'.
      exists (Execute (BudgetMinus FEE n)
                :: (if replies w 0%nat then [] else [StError CommandFailed]) ++ fees)%list.
      exists (n :: sent).
      split. { rewrite Htr, <- app_assoc. reflexivity. }
      split. { cbn. rewrite forallb_app, Hfee. destruct (replies w 0%nat); reflexivity. }
      split. { cbn. rewrite commands_of_app, Hcmd. destruct (replies w 0%nat); reflexivity. }
      split; [exact Hent|].
      destruct Hres as [(more & Hrun & -> & Hmore & Hconn)
                       |(Hrun & -> & Hconn & Hrep & Hteams)].
      * left. exists more. split; [exact Hrun|]. split; [reflexivity|].
        split; [exact Hmore | exact Hconn].
      * right. split; [exact Hrun|]. split; [reflexivity|].
        cbn [connections replies TEAMS after_command] in Hconn, Hrep, Hteams.
        split. { intros k. rewrite Hconn. cbn. f_equal. lia. }
        split. { intros k. rewrite Hrep. cbn. f_equal. lia. }
        intros Hok. rewrite Hteams.
        -- rewrite (Hok 0%nat); [reflexivity | cbn; lia].
        -- intros k Hk. apply Hok. cbn. lia.
    + rewrite (deduct_fees_stopped n names w Hc).
      exists (after_stop w), [StError ConnectionFailed], [].
      repeat (split; [reflexivity|]). left. exists (n :: names).
      split; [reflexivity|]. split; [reflexivity|].
      split; [discriminate | exact Hc].
Qed.

(** ** The simulation loop *)

(** [rows] are the results of [cars], car by car, the k-th car taking the
    k-th value of the random source [ent]. *)
Fixpoint simulated (ent : nat -> Q) (cars : list car) (rows : list race_result)
  : Prop :=
  match cars, rows with
  | [], [] => True
  | c :: cars', r :: rows' =>
      (exists t, time_taken c (uniform (luck_low c) (luck_high c) (ent 0%nat)) = inr t /\
                 r = result_row c t) /\
      simulated (fun n => ent (S n)) cars' rows'
  | _, _ => False
  end.

Lemma simulated_length (ent : nat -> Q) (cars : list car) (rows : list race_result) :
  simulated ent cars rows -> List.length rows = List.length cars.
Proof.
  revert ent rows. induction cars as [|c cars IH]; intros ent [|r rows]; cbn;
    try tauto.
  intros [_ H]. f_equal. exact (IH _ _ H).
Qed.

Lemma simulated_teams (ent : nat -> Q) (cars : list car) (rows : list race_result) :
  simulated ent cars rows -> map Team rows = map TEAM_NAME cars.
Proof.
  revert ent rows. induction cars as [|c cars IH]; intros ent [|r rows]; cbn;
    try tauto.
  intros [(t & _ & ->) H]. cbn. f_equal. exact (IH _ _ H).
Qed.

Lemma simulate_car_step (c : car) (rest : list car) (acc : list race_result)
      (w : world) (t : Q) :
  time_taken c (drawn_luck c w) = inr t ->
  simulate (c :: rest) acc w =
  simulate rest (acc ++ [result_row c t]) (after_car c w).
Proof.
  intros Ht. cbn [simulate]. unfold bind at 1.
  now rewrite (simulate_car_returns c w t Ht).
Qed.

Lemma simulate_run (cars : list car) (acc : list race_result) (w : world) :
  exists w' sim,
    trace w' = (trace w ++ sim)%list /\
    commands_of sim = [] /\ dataframes_of sim = [] /\
    TEAMS w' = TEAMS w /\ connections w' = connections w /\
    replies w' = replies w /\
    ((exists e, simulate cars acc w = (w', inl e)) \/
     (exists rows, simulate cars acc w = (w', inr (acc ++ rows)%list) /\
                   simulated (entropy w) cars rows)).
Proof.
  revert acc w. induction cars as [|c cars IH]; intros acc w.
  - exists w, []. rewrite app_nil_r. repeat (split; [reflexivity|]).
    right. exists []. rewrite app_nil_r. split; [reflexivity | exact I].
  - destruct (time_taken c (drawn_luck c w)) as [e|t] eqn:Ht.
    + destruct (simulate_car_raises c w e Ht) as (w' & Hrun & Hteams & Hw').
      exists w'.
      exists (match power_to_weight c with
              | inl _ => []
              | inr _ => [RandomUniform (luck_low c) (luck_high c)]
              end).
      assert (Hsim : simulate (c :: cars) acc w = (w', inl e)).
      { cbn [simulate]. unfold bind at 1. now rewrite Hrun. }
      unfold time_taken in Ht. unfold simulate_car, bind, lift in Hrun.
      destruct (power_to_weight c) as [e'|ptw].
      * injection Hrun as <- _. rewrite app_nil_r.
        repeat (split; [reflexivity|]). left. now exists e.
      * cbn in Hrun. unfold drawn_luck in Ht. rewrite Ht in Hrun.
        injection Hrun as <-. cbn.
        repeat (split; [reflexivity|]). left. now exists e.
    + rewrite (simulate_car_step c cars acc w t Ht).
      destruct (IH (acc ++ [result_row c t])%list (after_car c w))
        as (w' & sim & Htr & Hcmd & Hdf & Hteams & Hconn & Hrep & Hres).
      exists w', ([RandomUniform (luck_low c) (luck_high c); Sleep] ++ sim)%list.
      split.
      { rewrite Htr. cbn. now rewrite <- !app_assoc. }
      split; [rewrite commands_of_app, Hcmd; reflexivity|].
      split; [rewrite dataframes_of_app, Hdf; reflexivity|].
      split; [exact Hteams|]. split; [exact Hconn|]. split; [exact Hrep|].
      destruct Hres as [[e He]|(rows & Hrun & Hrows)].
      * left. now exists e.
      * right. exists (result_row c t :: rows). split.
        -- rewrite Hrun. f_equal. f_equal. now rewrite <- app_assoc.
        -- cbn. split; [|exact Hrows]. exists t. split; [exact Ht | reflexivity].
Qed.

(** ** The handler, phase by phase *)

Lemma combine_fst {A B} (l : list A) (l' : list B) :
  List.length l = List.length l' -> map fst (combine l l') = l.
Proof.
  revert l'. induction l as [|a l IH]; intros [|b l'] H; cbn in *;
    try reflexivity; try discriminate.
  f_equal. apply IH. now injection H.
Qed.

Lemma combine_snd {A B} (l : list A) (l' : list B) :
  List.length l = List.length l' -> map snd (combine l l') = l'.
Proof.
  revert l'. induction l as [|a l IH]; intros [|b l'] H; cbn in *;
    try reflexivity; try discriminate.
  f_equal. apply IH. now injection H.
Qed.

Definition teams_in_race (cars_df : list car) : list string :=
  unique (map TEAM_NAME cars_df).

(** The table after the prize was credited to the rows named [name]. *)
Definition credit (amount : Q) (name : string) (t : team) : team :=
  if String.eqb (team_name t) name
  then {| team_name := team_name t; budget := budget t + amount |}
  else t.

Section HandlerRuns.

(** The contract of [sort_values]: a rearrangement of the rows, in ascending
    order of time. *)
Variable sort_values : list race_result -> list race_result.
Hypothesis sort_values_permutation :
  forall rows, Permutation rows (sort_values rows).
Hypothesis sort_values_sorted :
  forall rows, StronglySorted by_time (sort_values rows).

Lemma sort_values_nonempty (rows : list race_result) :
  rows <> [] -> exists winner rest, sort_values rows = winner :: rest.
Proof.
  intros Hne. destruct (sort_values rows) as [|winner rest] eqn:E.
  - pose proof (sort_values_permutation rows) as P. rewrite E in P.
    apply Permutation_sym, Permutation_nil in P. contradiction.
  - now exists winner, rest.
Qed.

Lemma winner_is_fastest (rows rest : list race_result) (winner : race_result) :
  sort_values rows = winner :: rest ->
  forall r, In r rows -> Time winner <= Time r.
Proof.
  intros E r Hr.
  pose proof (sort_values_sorted rows) as S. rewrite E in S.
  apply StronglySorted_inv in S. destruct S as [_ Hall].
  apply (Permutation_in _ (sort_values_permutation rows)) in Hr.
  rewrite E in Hr. destruct Hr as [<-|Hr].
  - apply Qle_refl.
  - rewrite Forall_forall in Hall. exact (Hall r Hr).
Qed.

Definition award_trace (cars_df : list car) (ranked : list race_result)
           (winner : race_result) (connected ok : bool) : list event :=
  [StSubheader RaceResultsHeader; StDataframe (reset_index ranked); StBalloons;
   StSuccess (Winner (Driver winner) (Team winner))]
  ++ (if connected
      then Execute (BudgetPlus (PRIZE cars_df) (Team winner))
             :: (if ok then [] else [StError CommandFailed])
             ++ [StSuccess (Awarded (PRIZE cars_df) (Team winner)); CacheClear; Rerun]
      else [StError ConnectionFailed]).

Lemma award_run (cars_df : list car) (rows rest : list race_result)
      (winner : race_result) (w : world) :
  sort_values rows = winner :: rest ->
  exists w',
    award sort_values cars_df rows w =
      (w', if connections w 0%nat then inr tt else inl StopException) /\
    trace w' = (trace w ++ award_trace cars_df (winner :: rest) winner
                             (connections w 0%nat) (replies w 0%nat))%list /\
    TEAMS w' = (if connections w 0%nat && replies w 0%nat
                then map (credit (PRIZE cars_df) (Team winner)) (TEAMS w)
                else TEAMS w).
Proof.
  intros E. unfold award. rewrite E.
  cbn [reset_index List.length seq combine].
  unfold execute_command, snowflake_connection, cursor_execute, bind, emit.
  cbn [connections replies trace TEAMS entropy].
  destruct (connections w 0%nat); cbn [andb].
  - eexists. split; [reflexivity|]. split.
    + cbn [trace]. unfold award_trace. rewrite <- !app_assoc.
      cbn [app reset_index List.length seq combine]. reflexivity.
    + cbn [TEAMS]. reflexivity.
  - eexists. split; [reflexivity|]. split.
    + cbn [trace]. unfold award_trace. rewrite <- !app_assoc.
      cbn [app reset_index List.length seq combine]. reflexivity.
    + cbn [TEAMS]. reflexivity.
Qed.

Lemma start_race_aborts (cars_df : list car) (w : world) :
  (List.length cars_df < 2)%nat ->
  start_race sort_values cars_df w =
  ({| TEAMS := TEAMS w; entropy := entropy w;
      connections := connections w; replies := replies w;
      trace := trace w ++ [StWarning NotEnoughCars] |}, inr tt).
Proof.
  intros H. unfold start_race.
  apply Nat.ltb_lt in H. rewrite H. reflexivity.
Qed.

Definition fees_collected (w1 : world) : world :=
  {| TEAMS := TEAMS w1; entropy := entropy w1;
     connections := connections w1; replies := replies w1;
     trace := trace w1 ++ [StSuccess FeesCollected] |}.

Lemma teams_in_race_spec (cars_df : list car) (name : string) :
  In name (teams_in_race cars_df) <->
  exists c, In c cars_df /\ TEAM_NAME c = name.
Proof.
  unfold teams_in_race. rewrite unique_In, in_map_iff.
  split; intros (c & H1 & H2); exists c; tauto.
Qed.

(** Up to the end of the fee phase. *)
Lemma start_race_fee_phase (cars_df : list car) (w : world) :
  (2 <= List.length cars_df)%nat ->
  exists w1 fees sent,
    trace w1 = (trace w ++ [StInfo RaceIsOn; StWrite (RaceDetails FEE (PRIZE cars_df))]
                        ++ fees)%list /\
    forallb is_fee_event fees = true /\
    commands_of fees = map (BudgetMinus FEE) sent /\
    entropy w1 = entropy w /\
    ((exists more,
         start_race sort_values cars_df w = (w1, inl StopException) /\
         teams_in_race cars_df = (sent ++ more)%list /\ more <> [] /\
         connections w (List.length sent) = false) \/
     (start_race sort_values cars_df w =
        (race_results <- simulate cars_df [] ;;
         award sort_values cars_df race_results) (fees_collected w1) /\
      sent = teams_in_race cars_df /\
      (forall k, connections w1 k =
                 connections w (k + List.length (teams_in_race cars_df))%nat) /\
      (forall k, replies w1 k =
                 replies w (k + List.length (teams_in_race cars_df))%nat) /\
      ((forall k, (k < List.length (teams_in_race cars_df))%nat -> replies w k = true) ->
       TEAMS w1 = map (debit (teams_in_race cars_df)) (TEAMS w)))).
Proof.
  intros Hlen.
  set (w0 := {| TEAMS := TEAMS w; entropy := entropy w;
                connections := connections w; replies := replies w;
                trace := (trace w ++ [StInfo RaceIsOn])
                           ++ [StWrite (RaceDetails FEE (PRIZE cars_df))] |}).
  assert (E : start_race sort_values cars_df w =
              (deduct_fees (teams_in_race cars_df) ;;
               emit (StSuccess FeesCollected) ;;
               race_results <- simulate cars_df [] ;;
               award sort_values cars_df race_results) w0).
  { unfold start_race. apply Nat.ltb_ge in Hlen. rewrite Hlen. reflexivity. }
  destruct (deduct_fees_run (teams_in_race cars_df) w0)
    as (w1 & fees & sent & Htr & Hfee & Hcmd & Hent & Hres).
  cbn [trace entropy w0] in Htr, Hent.
  exists w1, fees, sent.
  split. { rewrite Htr, <- !app_assoc. reflexivity. }
  split; [exact Hfee|]. split; [exact Hcmd|]. split; [exact Hent|].
  destruct Hres as [(more & Hrun & Hsent & Hmore & Hconn)
                   |(Hrun & Hsent & Hconn & Hrep & Hteams)].
  - left. exists more.
    split; [rewrite E; unfold bind at 1; now rewrite Hrun|]. auto.
  - right. cbn [TEAMS connections replies w0] in Hconn, Hrep, Hteams.
    split; [rewrite E; unfold bind at 1; now rewrite Hrun|].
    split; [exact Hsent|].
    split; [exact Hconn|]. split; [exact Hrep|].
    intros Hok. rewrite (Hteams Hok). apply debit_all_once, unique_NoDup.
Qed.

Lemma commands_of_award_trace (cars_df : list car) (ranked : list race_result)
      (winner : race_result) (connected ok : bool) :
  commands_of (award_trace cars_df ranked winner connected ok) =
  if connected then [BudgetPlus (PRIZE cars_df) (Team winner)] else [].
Proof. destruct connected, ok; reflexivity. Qed.

Lemma dataframes_of_award_trace (cars_df : list car) (ranked : list race_result)
      (winner : race_result) (connected ok : bool) :
  dataframes_of (award_trace cars_df ranked winner connected ok) =
  [reset_index ranked].
Proof. destruct connected, ok; reflexivity. Qed.

(** A race of at least two cars, from start to end.  After the
    announcement come the events of the fee loop, then, unless a connection
    failed, those of the simulation and, unless a car raised, those of the
    award. *)
Lemma start_race_trace (cars_df : list car) (w : world) :
  (2 <= List.length cars_df)%nat ->
  exists w' r fees sent rest,
    start_race sort_values cars_df w = (w', r) /\
    trace w' = (trace w ++ [StInfo RaceIsOn; StWrite (RaceDetails FEE (PRIZE cars_df))]
                        ++ fees ++ rest)%list /\
    forallb is_fee_event fees = true /\
    commands_of fees = map (BudgetMinus FEE) sent /\
    let teams := teams_in_race cars_df in
    let n := List.length teams in
    let ok_fees := forall k, (k < n)%nat -> replies w k = true in
    let debited := map (debit teams) (TEAMS w) in
    ((exists more,
         r = inl StopException /\ rest = [] /\
         teams = (sent ++ more)%list /\ more <> [] /\
         connections w (List.length sent) = false) \/
     (sent = teams /\
      exists sim,
        commands_of sim = [] /\ dataframes_of sim = [] /\
        ((exists e, r = inl e /\
                    rest = ([StSuccess FeesCollected] ++ sim)%list /\
                    (ok_fees -> TEAMS w' = debited)) \/
         (exists rows winner rest',
             simulated (entropy w) cars_df rows /\
             sort_values rows = winner :: rest' /\
             r = (if connections w n then inr tt else inl StopException) /\
             rest = ([StSuccess FeesCollected] ++ sim
                       ++ award_trace cars_df (winner :: rest') winner
                            (connections w n) (replies w n))%list /\
             (ok_fees ->
              TEAMS w' = if connections w n && replies w n
                         then map (credit (PRIZE cars_df) (Team winner)) debited
                         else debited))))).
Proof.
  intros Hlen. cbv zeta.
  destruct (start_race_fee_phase cars_df w Hlen)
    as (w1 & fees & sent & Htr & Hfee & Hcmd & Hent & Hres).
  destruct Hres as [(more & Hrun & Hsent & Hmore & Hconn)
                   |(Hrun & Hsent & Hconn & Hrep & Hteams)].
  { exists w1, (inl StopException), fees, sent, [].
    split; [exact Hrun|]. split; [rewrite Htr, app_nil_r; reflexivity|].
    split; [exact Hfee|]. split; [exact Hcmd|].
    left. exists more. auto. }
  destruct (simulate_run cars_df [] (fees_collected w1))
    as (w2 & sim & Htr2 & Hcmd2 & Hdf2 & Hteams2 & Hconn2 & Hrep2 & Hsim).
  cbn [trace TEAMS entropy connections replies fees_collected]
    in Htr2, Hteams2, Hconn2, Hrep2, Hsim.
  rewrite Hrun. unfold bind.
  destruct Hsim as [[e He]|(rows & Hsim & Hrows)]; rewrite ?He, ?Hsim.
  - exists w2, (inl e), fees, sent, ([StSuccess FeesCollected] ++ sim)%list.
    split; [reflexivity|].
    split; [rewrite Htr2, Htr, <- !app_assoc; reflexivity|].
    split; [exact Hfee|]. split; [exact Hcmd|].
    right. split; [exact Hsent|]. exists sim.
    split; [exact Hcmd2|]. split; [exact Hdf2|].
    left. exists e. split; [reflexivity|]. split; [reflexivity|].
    intros Hok. rewrite Hteams2. exact (Hteams Hok).
  - cbn [app].
    assert (Hne : rows <> []).
    { intros ->. apply simulated_length in Hrows. cbn in Hrows. lia. }
    destruct (sort_values_nonempty rows Hne) as (winner & rest' & E).
    destruct (award_run cars_df rows rest' winner w2 E)
      as (w' & Haward & Htr3 & Hteams3).
    rewrite Hconn2, Hconn in Haward, Htr3, Hteams3.
    rewrite Hrep2, Hrep in Htr3, Hteams3.
    cbn [Nat.add] in Haward, Htr3, Hteams3.
    exists w'. eexists. exists fees, sent.
    eexists ([StSuccess FeesCollected] ++ sim ++ award_trace cars_df _ winner _ _)%list.
    split; [exact Haward|].
    split; [rewrite Htr3, Htr2, Htr, <- !app_assoc; reflexivity|].
    split; [exact Hfee|]. split; [exact Hcmd|].
    right. split; [exact Hsent|]. exists sim.
    split; [exact Hcmd2|]. split; [exact Hdf2|].
    right. exists rows, winner, rest'.
    split; [now rewrite <- Hent|]. split; [exact E|].
    split; [reflexivity|]. split; [reflexivity|].
    intros Hok. rewrite Hteams3, Hteams2, (Hteams Hok). reflexivity.
Qed.

Lemma prefix_shorter {A} (sent more : list A) :
  more <> [] -> (List.length sent < List.length (sent ++ more))%nat.
Proof.
  intros H. rewrite length_app. destruct more; [contradiction | cbn; lia].
Qed.

(** C3. With fewer than two cars the handler only shows the warning: no
    command is sent to the database (no fee, no prize), and the table, the
    random source and the database are left as they were. *)
Theorem too_few_entrants_abort (cars_df : list car) (w : world) :
  (List.length cars_df < 2)%nat ->
  exists w' t,
    start_race sort_values cars_df w = (w', inr tt) /\
    trace w' = (trace w ++ t)%list /\
    t = [StWarning NotEnoughCars] /\
    commands_of t = [] /\
    TEAMS w' = TEAMS w /\ entropy w' = entropy w /\
    connections w' = connections w /\ replies w' = replies w.
Proof.
  intros Hlen. rewrite (start_race_aborts cars_df w Hlen).
  eexists. exists [StWarning NotEnoughCars].
  split; [reflexivity|]. cbn. repeat split; reflexivity.
Qed.

(** C4. In a race of at least two cars, the connection to the database
    opening for each of them, the fee of 1000 is debited by one command per
    distinct team fielding a car (once per team, however many cars it
    enters), all of these commands come before the first event of the
    simulation and no debit comes after them; when the database accepts
    them, each row of a team in the race has lost exactly the fee and no
    other row has changed when the simulation starts. *)
Theorem fees_once_per_team_before_simulation (cars_df : list car) (w : world) :
  (2 <= List.length cars_df)%nat ->
  (forall k, (k < List.length (teams_in_race cars_df))%nat ->
             connections w k = true) ->
  exists w' r fees rest,
    start_race sort_values cars_df w = (w', r) /\
    trace w' = (trace w ++ [StInfo RaceIsOn; StWrite (RaceDetails FEE (PRIZE cars_df))]
                        ++ fees ++ rest)%list /\
    FEE == 1000 /\
    commands_of fees = map (BudgetMinus FEE) (teams_in_race cars_df) /\
    NoDup (teams_in_race cars_df) /\
    (forall name, In name (teams_in_race cars_df) <->
                  exists c, In c cars_df /\ TEAM_NAME c = name) /\
    forallb (fun e => negb (is_simulation e)) fees = true /\
    forallb (fun cmd => negb (is_debit cmd)) (commands_of rest) = true /\
    ((forall k, (k < List.length (teams_in_race cars_df))%nat -> replies w k = true) ->
     let debited := map (debit (teams_in_race cars_df)) (TEAMS w) in
     TEAMS w' = debited \/
     exists amount name, TEAMS w' = map (credit amount name) debited).
Proof.
  intros Hlen Hconn.
  destruct (start_race_trace cars_df w Hlen)
    as (w' & r & fees & sent & rest & Hrun & Htr & Hfee & Hcmd & Hres).
  cbv zeta in Hres.
  exists w', r, fees, rest.
  split; [exact Hrun|]. split; [exact Htr|]. split; [reflexivity|].
  destruct Hres as [(more & _ & _ & Hsent & Hmore & Hc)
                   |(-> & sim & Hcmd2 & _ & Hres)].
  { exfalso. rewrite Hconn in Hc; [discriminate Hc|].
    rewrite Hsent. now apply prefix_shorter. }
  split; [exact Hcmd|].
  split; [apply unique_NoDup|]. split; [apply teams_in_race_spec|].
  split; [exact (fee_events_no_simulation fees Hfee)|].
  destruct Hres as [(e & _ & -> & Hteams)
                   |(rows & winner & rest' & _ & _ & _ & -> & Hteams)].
  - split.
    + rewrite commands_of_app, Hcmd2. reflexivity.
    + intros Hok. left. exact (Hteams Hok).
  - split.
    + rewrite !commands_of_app, Hcmd2, commands_of_award_trace.
      destruct (connections w _); reflexivity.
    + intros Hok. rewrite (Hteams Hok).
      destruct (connections w _ && replies w _);
        [right; eauto | left; reflexivity].
Qed.

(** C5. In a race of at least two cars the prize announced, and credited
    when the race completes, is 0.8 * 1000 * the number of distinct teams
    fielding a car, [d] being any enumeration without repetition of these
    teams: the number of cars of a team does not matter. *)
Theorem prize_pool_from_distinct_teams (cars_df : list car) (w : world)
        (d : list string) :
  (2 <= List.length cars_df)%nat ->
  NoDup d ->
  (forall name, In name d <-> exists c, In c cars_df /\ TEAM_NAME c = name) ->
  PRIZE cars_df == 0.8 * 1000 * inject_Z (Z.of_nat (List.length d)) /\
  exists w' r t,
    start_race sort_values cars_df w = (w', r) /\
    trace w' = (trace w ++ StInfo RaceIsOn
                        :: StWrite (RaceDetails FEE (PRIZE cars_df)) :: t)%list /\
    (forall amount name, In (BudgetPlus amount name) (commands_of t) ->
                         amount = PRIZE cars_df) /\
    (r = inr tt -> exists name, In (BudgetPlus (PRIZE cars_df) name) (commands_of t)).
Proof.
  intros Hlen Hd Hin. split.
  - unfold PRIZE, FEE.
    rewrite <- (unique_length (map TEAM_NAME cars_df) d Hd).
    + ring.
    + intros x. rewrite Hin. symmetry.
      rewrite <- (unique_In (map TEAM_NAME cars_df)). apply teams_in_race_spec.
  - destruct (start_race_trace cars_df w Hlen)
      as (w' & r & fees & sent & rest & Hrun & Htr & _ & Hcmd & Hres).
    cbv zeta in Hres.
    exists w', r, (fees ++ rest)%list.
    split; [exact Hrun|]. split; [rewrite Htr; reflexivity|].
    rewrite commands_of_app, Hcmd.
    assert (Hdebit : forall amount name,
               ~ In (BudgetPlus amount name) (map (BudgetMinus FEE) sent)).
    { intros amount name H. apply in_map_iff in H.
      destruct H as (x & Hx & _). discriminate Hx. }
    destruct Hres as [(more & -> & -> & _)|(_ & sim & Hcmd2 & _ & Hres)].
    { split; [|discriminate].
      intros amount name H. rewrite app_nil_r in H. now apply Hdebit in H. }
    destruct Hres as [(e & -> & -> & _)
                     |(rows & winner & rest' & _ & _ & -> & -> & _)].
    + split; [|discriminate].
      intros amount name. rewrite commands_of_app, Hcmd2. cbn.
      rewrite app_nil_r. intros H. now apply Hdebit in H.
    + rewrite !commands_of_app, Hcmd2, commands_of_award_trace. cbn [app commands_of flat_map].
      destruct (connections w _).
      * split.
        -- intros amount name. rewrite in_app_iff.
           intros [H|[H|[]]]; [now apply Hdebit in H | now injection H].
        -- intros _. exists (Team winner). rewrite in_app_iff. right. now left.
      * split; [|discriminate].
        intros amount name. rewrite app_nil_r. intros H. now apply Hdebit in H.
Qed.

Lemma fee_commands_are_debits (names : list string) :
  filter (fun cmd => negb (is_debit cmd)) (map (BudgetMinus FEE) names) = [].
Proof. induction names as [|n names IH]; [reflexivity | exact IH]. Qed.

(** A completed race of at least two cars, read off its trace. *)
Lemma completed_race (cars_df : list car) (w w' : world) :
  (2 <= List.length cars_df)%nat ->
  start_race sort_values cars_df w = (w', inr tt) ->
  exists rows winner rest t,
    simulated (entropy w) cars_df rows /\
    sort_values rows = winner :: rest /\
    trace w' = (trace w ++ t)%list /\
    dataframes_of t = [reset_index (winner :: rest)] /\
    commands_of t = (map (BudgetMinus FEE) (teams_in_race cars_df)
                       ++ [BudgetPlus (PRIZE cars_df) (Team winner)])%list /\
    ((forall k, (k <= List.length (teams_in_race cars_df))%nat -> replies w k = true) ->
     TEAMS w' = map (credit (PRIZE cars_df) (Team winner))
                    (map (debit (teams_in_race cars_df)) (TEAMS w))).
Proof.
  intros Hlen Hdone.
  destruct (start_race_trace cars_df w Hlen)
    as (w'' & r & fees & sent & rest & Hrun & Htr & Hfee & Hcmd & Hres).
  rewrite Hdone in Hrun. injection Hrun as <- <-.
  cbv zeta in Hres.
  destruct Hres as [(more & He & _)|(-> & sim & Hcmd2 & Hdf2 & Hres)];
    [discriminate He|].
  destruct Hres as [(e & He & _)
                   |(rows & winner & rest' & Hsim & E & Hr & -> & Hteams)];
    [discriminate He|].
  destruct (connections w _) eqn:Hc; [|discriminate Hr].
  exists rows, winner, rest'. eexists.
  split; [exact Hsim|]. split; [exact E|]. split; [exact Htr|].
  split.
  { rewrite !dataframes_of_app, (fee_events_no_dataframe fees Hfee), Hdf2,
      dataframes_of_award_trace. reflexivity. }
  split.
  { rewrite !commands_of_app, Hcmd, Hcmd2, commands_of_award_trace. reflexivity. }
  intros Hok. rewrite Hteams.
  - rewrite (Hok _ (Nat.le_refl _)). reflexivity.
  - intros k Hk. apply Hok. lia.
Qed.


End HandlerRuns.

(** ** Two sorts within the contract of [sort_values]

    Insertion sorts on the time: [stable_sort] keeps rows of equal time in
    the order of the input, [tie_reversing_sort] reverses them.  Both return
    a sorted rearrangement of their input, which is all the handler asks of
    [sort_values]. *)

Section Insertion.

(** [ahead x y]: [x] is put before [y]. *)
Variable ahead : race_result -> race_result -> bool.
Hypothesis ahead_le : forall x y, ahead x y = true -> Time x <= Time y.
Hypothesis behind_le : forall x y, ahead x y = false -> Time y <= Time x.

Fixpoint insert (x : race_result) (l : list race_result) : list race_result :=
  match l with
  | [] => [x]
  | y :: l' => if ahead x y then x :: y :: l' else y :: insert x l'
  end.

Fixpoint insertion_sort (l : list race_result) : list race_result :=
  match l with
  | [] => []
  | x :: l' => insert x (insertion_sort l')
  end.

Lemma insert_permutation (x : race_result) (l : list race_result) :
  Permutation (x :: l) (insert x l).
Proof.
  induction l as [|y l IH]; cbn; [apply Permutation_refl|].
  destruct (ahead x y); [apply Permutation_refl|].
  eapply perm_trans; [apply perm_swap|]. now apply perm_skip.
Qed.

Lemma insertion_sort_permutation (l : list race_result) :
  Permutation l (insertion_sort l).
Proof.
  induction l as [|x l IH]; cbn; [constructor|].
  eapply perm_trans; [apply perm_skip, IH | apply insert_permutation].
Qed.

Lemma insert_sorted (x : race_result) (l : list race_result) :
  StronglySorted by_time l -> StronglySorted by_time (insert x l).
Proof.
  induction 1 as [|y l Hs IH Hall]; cbn.
  - constructor; constructor.
  - destruct (ahead x y) eqn:E.
    + constructor; [now constructor|].
      constructor; [exact (ahead_le x y E)|].
      rewrite Forall_forall in *. intros z Hz. unfold by_time.
      apply Qle_trans with (Time y); [exact (ahead_le x y E) | exact (Hall z Hz)].
    + constructor; [exact IH|].
      apply (Permutation_Forall (insert_permutation x l)).
      constructor; [exact (behind_le x y E) | exact Hall].
Qed.

Lemma insertion_sort_sorted (l : list race_result) :
  StronglySorted by_time (insertion_sort l).
Proof.
  induction l as [|x l IH]; cbn; [constructor | now apply insert_sorted].
Qed.

End Insertion.

Definition stable_sort : list race_result -> list race_result :=
  insertion_sort (fun x y => Qle_bool (Time x) (Time y)).

Lemma stable_sort_permutation (rows : list race_result) :
  Permutation rows (stable_sort rows).
Proof. apply insertion_sort_permutation. Defined.

Lemma stable_sort_sorted (rows : list race_result) :
  StronglySorted by_time (stable_sort rows).
Proof.
  apply insertion_sort_sorted.
  - intros x y H. now apply Qle_bool_iff.
  - intros x y H. apply Qlt_le_weak, Qnot_le_lt. intros Hle.
    apply Qle_bool_iff in Hle. congruence.
Defined.

(** ** A paddock to run the handler in *)

Definition quattro : car :=
  {| CAR_ID := 1; TEAM_NAME := "A"; MODEL := "Quattro"; CATEGORY_NAME := "Group B";
     HORSEPOWER := 200; DRIVETRAIN := "4WD"; MIN_WEIGHT_KG := 1000;
     DRIVER_NAME := "Ann"; SKILL_LEVEL := 50; LUCK_LEVEL := 50 |}.

Definition escort : car :=
  {| CAR_ID := 2; TEAM_NAME := "B"; MODEL := "Escort"; CATEGORY_NAME := "Group 4";
     HORSEPOWER := 150; DRIVETRAIN := "RWD"; MIN_WEIGHT_KG := 1000;
     DRIVER_NAME := "Bob"; SKILL_LEVEL := 50; LUCK_LEVEL := 50 |}.

Definition stratos : car :=
  {| CAR_ID := 3; TEAM_NAME := "A"; MODEL := "Stratos"; CATEGORY_NAME := "Group 4";
     HORSEPOWER := 190; DRIVETRAIN := "RWD"; MIN_WEIGHT_KG := 980;
     DRIVER_NAME := "Cleo"; SKILL_LEVEL := 70; LUCK_LEVEL := 20 |}.

Definition grid : list car := [quattro; escort; stratos].

(** Three teams, a random source stuck at one half (every luck factor is
    then 1), a database that opens every connection and accepts every
    command, nothing done yet. *)
Definition paddock : world :=
  {| TEAMS := [ {| team_name := "A"; budget := 50000 |};
                {| team_name := "B"; budget := 50000 |};
                {| team_name := "C"; budget := 50000 |} ];
     entropy := fun _ => 1 # 2;
     connections := fun _ => true;
     replies := fun _ => true;
     trace := [] |}.

(** The scenario of two entrants with the luck factor at 1: the 4WD car of
    200 hp beats the car of 150 hp in 10000/21 (476.19) against 2000/3
    (666.67), each team pays 1000 and team A receives 1600. *)
Example two_entrant_race :
  exists w',
    start_race stable_sort [quattro; escort] paddock = (w', inr tt) /\
    map (fun ir => (fst ir, Driver (snd ir), Qred (Time (snd ir))))
        (List.concat (dataframes_of (trace w'))) =
      [(1%nat, "Ann", 10000 # 21); (2%nat, "Bob", 2000 # 3)] /\
    map (fun cmd => match cmd with
                    | BudgetMinus a n => (n, Qred (- a))
                    | BudgetPlus a n => (n, Qred a)
                    end) (commands_of (trace w')) =
      [("A", -1000); ("B", -1000); ("A", 1600)] /\
    map (fun t => (team_name t, Qred (budget t))) (TEAMS w') =
      [("A", 50600); ("B", 49000); ("C", 50000)].
Proof.
  eexists. split; [vm_compute; reflexivity|].
  repeat split; vm_compute; reflexivity.
Qed.

(** The handler stops on a car without weight, after the fees were taken. *)
Example weightless_car_stops_the_race :
  let ghost := {| CAR_ID := 5; TEAM_NAME := "C"; MODEL := "Ghost";
                  CATEGORY_NAME := "Group B"; HORSEPOWER := 200;
                  DRIVETRAIN := "4WD"; MIN_WEIGHT_KG := 0;
                  DRIVER_NAME := "Eve"; SKILL_LEVEL := 50; LUCK_LEVEL := 50 |} in
  exists w',
    start_race stable_sort [quattro; ghost] paddock = (w', inl ZeroDivisionError) /\
    map (fun t => (team_name t, Qred (budget t))) (TEAMS w') =
      [("A", 49000); ("B", 50000); ("C", 49000)].
Proof.
  eexists. split; vm_compute; reflexivity.
Qed.

(** The run stops at the first connection that does not open: here the
    second, once team A has paid and before team B does. *)
Example lost_connection_stops_the_race :
  let offline := {| TEAMS := TEAMS paddock; entropy := entropy paddock;
                    connections := fun k => Nat.eqb k 0;
                    replies := replies paddock; trace := [] |} in
  exists w',
    start_race stable_sort grid offline = (w', inl StopException) /\
    commands_of (trace w') = [BudgetMinus FEE "A"] /\
    map (fun t => (team_name t, Qred (budget t))) (TEAMS w') =
      [("A", 49000); ("B", 50000); ("C", 50000)].
Proof.
  eexists. split; [vm_compute; reflexivity|].
  split; vm_compute; reflexivity.
Qed.

(** ** The theorems at work *)


Lemma too_few_entrants_abort_witness :
  exists w' t,
    start_race stable_sort [quattro] paddock = (w', inr tt) /\
    trace w' = (trace paddock ++ t)%list /\
    t = [StWarning NotEnoughCars] /\
    commands_of t = [] /\
    TEAMS w' = TEAMS paddock /\ entropy w' = entropy paddock /\
    connections w' = connections paddock /\ replies w' = replies paddock.
Proof.
  apply (too_few_entrants_abort stable_sort [quattro] paddock).
  cbn. lia.
Defined.

Lemma fees_once_per_team_before_simulation_witness :
  exists w' r fees rest,
    start_race stable_sort grid paddock = (w', r) /\
    trace w' = (trace paddock
                  ++ [StInfo RaceIsOn; StWrite (RaceDetails FEE (PRIZE grid))]
                  ++ fees ++ rest)%list /\
    commands_of fees = [BudgetMinus FEE "A"; BudgetMinus FEE "B"].
Proof.
  assert (Hlen : (2 <= List.length grid)%nat) by (cbn; lia).
  assert (Hconn : forall k, (k < List.length (teams_in_race grid))%nat ->
                            connections paddock k = true) by reflexivity.
  destruct (fees_once_per_team_before_simulation
              stable_sort stable_sort_permutation grid paddock Hlen Hconn)
    as (w' & r & fees & rest & Hrun & Htr & _ & Hcmd & _).
  exists w', r, fees, rest. auto.
Defined.

Lemma grid_teams (name : string) :
  In name ["A"; "B"] <-> exists c, In c grid /\ TEAM_NAME c = name.
Proof.
  split.
  - intros [<-|[<-|[]]]; [exists quattro | exists escort]; cbn; auto.
  - intros (c & Hc & <-). cbn in Hc.
    destruct Hc as [<-|[<-|[<-|[]]]]; cbn; auto.
Defined.

(** Team A enters two cars and team B one: the prize is 1600. *)
Lemma prize_pool_from_distinct_teams_witness :
  PRIZE grid == 1600.
Proof.
  assert (Hlen : (2 <= List.length grid)%nat) by (cbn; lia).
  assert (Hd : NoDup ["A"; "B"]).
  { repeat constructor; cbn; intuition discriminate. }
  destruct (prize_pool_from_distinct_teams
              stable_sort stable_sort_permutation grid paddock
              ["A"; "B"] Hlen Hd grid_teams) as [H _].
  rewrite H. reflexivity.
Defined.

Definition after_the_race : world :=
  fst (start_race stable_sort grid paddock).


(** The race of the grid: Ann (team A) wins before Cleo (team A) and Bob
    (team B); A and B pay 1000 each, once, and A receives 1600. *)
Example grid_race :
  map (fun ir => (fst ir, Driver (snd ir), Team (snd ir)))
      (List.concat (dataframes_of (trace after_the_race))) =
    [(1%nat, "Ann", "A"); (2%nat, "Cleo", "A"); (3%nat, "Bob", "B")] /\
  map (fun cmd => match cmd with
                  | BudgetMinus a n => (n, Qred (- a))
                  | BudgetPlus a n => (n, Qred a)
                  end) (commands_of (trace after_the_race)) =
    [("A", -1000); ("B", -1000); ("A", 1600)] /\
  map (fun t => (team_name t, Qred (budget t))) (TEAMS after_the_race) =
    [("A", 50600); ("B", 49000); ("C", 50000)].
Proof. repeat split; vm_compute; reflexivity. Qed.

(** * More on the handler *)

(** ** What no run of the handler does to the table *)

(** [keeps I m Q]: [m] maintains the property [I] of the TEAMS table,
    whether it returns or raises, and what it returns satisfies [Q]. *)
Definition keeps {A} (I : list team -> Prop) (m : M A) (Q : A -> Prop) : Prop :=
  forall w w' r, m w = (w', r) -> I (TEAMS w) ->
    I (TEAMS w') /\ match r with inr a => Q a | inl _ => True end.

Lemma keeps_ret {A} (I : list team -> Prop) (a : A) (Q : A -> Prop) :
  Q a -> keeps I (ret a) Q.
Proof. intros Ha w w' r [= <- <-] HI. auto. Qed.

Lemma keeps_lift {A} (I : list team -> Prop) (x : exn + A) (Q : A -> Prop) :
  (forall a, x = inr a -> Q a) -> keeps I (lift x) Q.
Proof.
  intros Hx w w' r [= <- <-] HI. split; [exact HI|].
  destruct x; auto.
Qed.

Lemma keeps_emit (I : list team -> Prop) (e : event) :
  keeps I (emit e) (fun _ => True).
Proof. intros w w' r [= <- <-] HI. auto. Qed.

Lemma keeps_random_uniform (I : list team -> Prop) (a b : Q) :
  keeps I (random_uniform a b) (fun _ => True).
Proof. intros w w' r [= <- <-] HI. auto. Qed.

Lemma keeps_bind {A B} (I : list team -> Prop) (m : M A) (k : A -> M B)
      (Q : A -> Prop) (Q' : B -> Prop) :
  keeps I m Q -> (forall a, Q a -> keeps I (k a) Q') -> keeps I (bind m k) Q'.
Proof.
  intros Hm Hk w w' r Hrun HI. unfold bind in Hrun.
  destruct (m w) as [w1 [e|a]] eqn:Em.
  - injection Hrun as <- <-. destruct (Hm w w1 (inl e) Em HI) as [H1 _]. auto.
  - destruct (Hm w w1 (inr a) Em HI) as [H1 Ha].
    exact (Hk a Ha w1 w' r Hrun H1).
Qed.

Lemma keeps_weaken {A} (I : list team -> Prop) (m : M A) (Q Q' : A -> Prop) :
  keeps I m Q -> (forall a, Q a -> Q' a) -> keeps I m Q'.
Proof.
  intros Hm HQ w w' r Hrun HI. destruct (Hm w w' r Hrun HI) as [H1 H2].
  split; [exact H1|]. destruct r; auto.
Qed.

Lemma keeps_execute_command (I : list team -> Prop) (cmd : command) :
  (forall rows, I rows -> I (apply_command cmd rows)) ->
  keeps I (execute_command cmd) (fun _ => True).
Proof.
  intros Hcmd w w' r Hrun HI.
  unfold execute_command, bind, snowflake_connection, cursor_execute in Hrun.
  destruct (connections w 0%nat); injection Hrun as <- <-; cbn; [|auto].
  split; [|trivial]. destruct (replies w 0%nat); auto.
Qed.

Lemma keeps_deduct_fees (I : list team -> Prop) (names : list string) :
  (forall n rows, In n names -> I rows ->
                  I (apply_command (BudgetMinus FEE n) rows)) ->
  keeps I (deduct_fees names) (fun _ => True).
Proof.
  induction names as [|n names IH]; intros Hcmd; cbn [deduct_fees].
  - now apply keeps_ret.
  - apply keeps_bind with (Q := fun _ => True).
    + apply keeps_execute_command. intros rows. apply Hcmd. now left.
    + intros _ _. apply IH. intros n' rows Hn'. apply Hcmd. now right.
Qed.

Lemma keeps_simulate_car (I : list team -> Prop) (c : car) :
  keeps I (simulate_car c) (fun r => Team r = TEAM_NAME c).
Proof.
  unfold simulate_car.
  apply keeps_bind with (Q := fun _ => True); [now apply keeps_lift|].
  intros ptw _.
  apply keeps_bind with (Q := fun _ => True); [apply keeps_random_uniform|].
  intros l _.
  apply keeps_bind with (Q := fun _ => True); [now apply keeps_lift|].
  intros t _.
  apply keeps_bind with (Q := fun _ => True); [apply keeps_emit|].
  intros _ _. now apply keeps_ret.
Qed.

Lemma keeps_simulate (I : list team -> Prop) (names : list string)
      (cars : list car) (acc : list race_result) :
  (forall c, In c cars -> In (TEAM_NAME c) names) ->
  Forall (fun r => In (Team r) names) acc ->
  keeps I (simulate cars acc) (Forall (fun r => In (Team r) names)).
Proof.
  revert acc. induction cars as [|c cars IH]; intros acc Hcars Hacc;
    cbn [simulate].
  - now apply keeps_ret.
  - apply keeps_bind with (Q := fun r => Team r = TEAM_NAME c);
      [apply keeps_simulate_car|].
    intros r Hr. apply IH.
    + intros c' Hc'. apply Hcars. now right.
    + apply Forall_app. split; [exact Hacc|].
      constructor; [|constructor]. rewrite Hr. apply Hcars. now left.
Qed.

Section NeverDone.

Variable sort_values : list race_result -> list race_result.
Hypothesis sort_values_permutation :
  forall rows, Permutation rows (sort_values rows).

Lemma keeps_award (I : list team -> Prop) (names : list string)
      (cars_df : list car) (race_results : list race_result) :
  (forall n rows, In n names -> I rows ->
                  I (apply_command (BudgetPlus (PRIZE cars_df) n) rows)) ->
  Forall (fun r => In (Team r) names) race_results ->
  keeps I (award sort_values cars_df race_results) (fun _ => True).
Proof.
  intros Hcmd Hres. unfold award.
  destruct (sort_values race_results) as [|winner rest] eqn:E.
  - cbn. now apply keeps_lift.
  - cbn [reset_index List.length seq combine].
    assert (Hw : In (Team winner) names).
    { rewrite Forall_forall in Hres. apply Hres.
      apply (Permutation_in _ (Permutation_sym (sort_values_permutation _))).
      rewrite E. now left. }
    repeat (apply keeps_bind with (Q := fun _ => True);
            [apply keeps_emit | intros _ _]).
    apply keeps_bind with (Q := fun _ => True).
    + apply keeps_execute_command. intros rows. now apply Hcmd.
    + intros _ _.
      repeat (apply keeps_bind with (Q := fun _ => True);
              [apply keeps_emit | intros _ _]).
      apply keeps_emit.
Qed.

(** Any property of the table that the debit of the fee and the credit of
    the prize maintain, for the teams of the race, is maintained by the
    handler. *)
Lemma keeps_start_race (I : list team -> Prop) (cars_df : list car) :
  (forall n rows, In n (teams_in_race cars_df) -> I rows ->
                  I (apply_command (BudgetMinus FEE n) rows)) ->
  (forall n rows, In n (teams_in_race cars_df) -> I rows ->
                  I (apply_command (BudgetPlus (PRIZE cars_df) n) rows)) ->
  keeps I (start_race sort_values cars_df) (fun _ => True).
Proof.
  intros Hminus Hplus. unfold start_race.
  destruct (List.length cars_df <? 2)%nat; [apply keeps_emit|].
  repeat (apply keeps_bind with (Q := fun _ => True);
          [apply keeps_emit | intros _ _]).
  apply keeps_bind with (Q := fun _ => True).
  { apply keeps_deduct_fees. exact Hminus. }
  intros _ _.
  apply keeps_bind with (Q := fun _ => True); [apply keeps_emit|].
  intros _ _.
  apply keeps_bind
    with (Q := Forall (fun r => In (Team r) (teams_in_race cars_df))).
  - apply keeps_simulate; [|constructor].
    intros c Hc. apply unique_In. now apply in_map.
  - intros rows Hrows. now apply keeps_award with (names := teams_in_race cars_df).
Qed.

End NeverDone.

(** Rows alike in name, and equal when the name is not one of [names]. *)
Definition same_but_for (names : list string) (t0 t : team) : Prop :=
  team_name t = team_name t0 /\ (~ In (team_name t0) names -> t = t0).

Lemma same_but_for_refl (names : list string) (rows : list team) :
  Forall2 (same_but_for names) rows rows.
Proof. induction rows; constructor; [split|]; auto. Qed.

Lemma same_but_for_command (names : list string) (cmd : command)
      (rows0 rows : list team) :
  In (match cmd with BudgetMinus _ n | BudgetPlus _ n => n end) names ->
  Forall2 (same_but_for names) rows0 rows ->
  Forall2 (same_but_for names) rows0 (apply_command cmd rows).
Proof.
  intros Hn H. induction H as [|t0 t rows0 rows [Hname Hsame] H IH].
  - destruct cmd; constructor.
  - destruct cmd as [a n|a n]; cbn in *; constructor; try exact IH.
    + destruct (String.eqb_spec (team_name t) n) as [E|E]; split; cbn; auto.
      intros Hout. exfalso. apply Hout. now rewrite <- Hname, E.
    + destruct (String.eqb_spec (team_name t) n) as [E|E]; split; cbn; auto.
      intros Hout. exfalso. apply Hout. now rewrite <- Hname, E.
Qed.

Section TableInvariants.

Variable sort_values : list race_result -> list race_result.
Hypothesis sort_values_permutation :
  forall rows, Permutation rows (sort_values rows).

(** X4. No run of the handler, whatever its outcome (completed, aborted,
    stopped on a lost connection, ended by an exception) and whatever the
    database answers, adds, removes, renames or reorders a row of the TEAMS
    table, and none changes the row of a team that fields no car in the
    race. *)
Theorem bystanders_untouched (cars_df : list car) (w w' : world)
        (r : exn + unit) :
  start_race sort_values cars_df w = (w', r) ->
  map team_name (TEAMS w') = map team_name (TEAMS w) /\
  forall k t, nth_error (TEAMS w) k = Some t ->
              ~ In (team_name t) (teams_in_race cars_df) ->
              nth_error (TEAMS w') k = Some t.
Proof.
  intros Hrun.
  assert (H : Forall2 (same_but_for (teams_in_race cars_df)) (TEAMS w) (TEAMS w')).
  { refine (proj1 (keeps_start_race sort_values sort_values_permutation
                     (Forall2 (same_but_for (teams_in_race cars_df)) (TEAMS w))
                     cars_df _ _ w w' r Hrun (same_but_for_refl _ _))).
    - intros n rows Hn. now apply (same_but_for_command _ (BudgetMinus FEE n)).
    - intros n rows Hn.
      now apply (same_but_for_command _ (BudgetPlus (PRIZE cars_df) n)). }
  clear Hrun. induction H as [|t0 t rows0 rows [Hname Hsame] H [IH1 IH2]].
  - split; [reflexivity|]. intros [|k] t; discriminate.
  - split; [cbn; now rewrite Hname, IH1|].
    intros [|k] t' Hk Hout; cbn in *.
    + injection Hk as <-. now rewrite (Hsame Hout).
    + now apply IH2.
Qed.

End TableInvariants.

Lemma bystanders_untouched_witness :
  map team_name (TEAMS after_the_race) = map team_name (TEAMS paddock) /\
  forall k t, nth_error (TEAMS paddock) k = Some t ->
              ~ In (team_name t) (teams_in_race grid) ->
              nth_error (TEAMS after_the_race) k = Some t.
Proof.
  apply (bystanders_untouched stable_sort stable_sort_permutation
           grid paddock after_the_race (inr tt)).
  vm_compute. reflexivity.
Defined.

(** ** The commands of any run *)

Section AnyRun.

Variable sort_values : list race_result -> list race_result.
Hypothesis sort_values_permutation :
  forall rows, Permutation rows (sort_values rows).

(** X5. In every run of the handler on at least two cars, whatever its
    outcome and whatever the database answers, the commands sent are the
    fee debits of the first teams of the race, one each and in order,
    followed by at most one credit; a credit is sent only once every team of
    the race has had its debit sent, it is of the prize and goes to a team of
    the race. *)
Theorem commands_of_any_run (cars_df : list car) (w : world) :
  (2 <= List.length cars_df)%nat ->
  exists w' r t sent more credited,
    start_race sort_values cars_df w = (w', r) /\
    trace w' = (trace w ++ t)%list /\
    teams_in_race cars_df = (sent ++ more)%list /\
    NoDup (teams_in_race cars_df) /\
    commands_of t = (map (BudgetMinus FEE) sent ++ credited)%list /\
    (credited = [] \/
     more = [] /\
     exists name, In name (teams_in_race cars_df) /\
                  credited = [BudgetPlus (PRIZE cars_df) name]) /\
    (r = inr tt -> more = [] /\ credited <> []).
Proof.
  intros Hlen.
  destruct (start_race_trace sort_values sort_values_permutation cars_df w Hlen)
    as (w' & r & fees & sent & rest & Hrun & Htr & _ & Hcmd & Hres).
  cbv zeta in Hres.
  exists w', r.
  exists ([StInfo RaceIsOn; StWrite (RaceDetails FEE (PRIZE cars_df))]
            ++ fees ++ rest)%list.
  exists sent.
  destruct Hres as [(more & -> & -> & Hsent & _)|(-> & sim & Hcmd2 & _ & Hres)].
  { exists more, []. split; [exact Hrun|]. split; [exact Htr|].
    split; [exact Hsent|]. split; [apply unique_NoDup|]. split.
    - rewrite !commands_of_app, Hcmd. cbn. now rewrite !app_nil_r.
    - split; [now left | discriminate]. }
  exists [].
  destruct Hres as [(e & -> & -> & _)
                   |(rows & winner & rest' & Hsim & E & -> & -> & _)].
  - exists []. split; [exact Hrun|]. split; [exact Htr|].
    split; [now rewrite app_nil_r|]. split; [apply unique_NoDup|]. split.
    + rewrite !commands_of_app, Hcmd, Hcmd2. cbn. now rewrite !app_nil_r.
    + split; [now left | discriminate].
  - exists (if connections w (List.length (teams_in_race cars_df))
            then [BudgetPlus (PRIZE cars_df) (Team winner)] else []).
    split; [exact Hrun|]. split; [exact Htr|].
    split; [now rewrite app_nil_r|]. split; [apply unique_NoDup|]. split.
    + rewrite !commands_of_app, Hcmd, Hcmd2, commands_of_award_trace. reflexivity.
    + destruct (connections w _).
      * split; [|intros _; split; [reflexivity | discriminate]].
        right. split; [reflexivity|]. exists (Team winner).
        split; [|reflexivity].
        unfold teams_in_race. rewrite unique_In, <- (simulated_teams _ _ _ Hsim).
        apply in_map.
        apply (Permutation_in _ (Permutation_sym (sort_values_permutation rows))).
        rewrite E. now left.
      * split; [now left | discriminate].
Qed.

End AnyRun.

Lemma commands_of_any_run_witness :
  exists w' r t sent more credited,
    start_race stable_sort grid paddock = (w', r) /\
    trace w' = (trace paddock ++ t)%list /\
    teams_in_race grid = (sent ++ more)%list /\
    NoDup (teams_in_race grid) /\
    commands_of t = (map (BudgetMinus FEE) sent ++ credited)%list /\
    (credited = [] \/
     more = [] /\
     exists name, In name (teams_in_race grid) /\
                  credited = [BudgetPlus (PRIZE grid) name]) /\
    (r = inr tt -> more = [] /\ credited <> []).
Proof.
  apply (commands_of_any_run stable_sort stable_sort_permutation grid paddock).
  cbn. lia.
Defined.

(** ** Runs that do not reach the award *)

(** The world once the race was announced (lines 144-148). *)
Definition announced (cars_df : list car) (w : world) : world :=
  {| TEAMS := TEAMS w; entropy := entropy w;
     connections := connections w; replies := replies w;
     trace := (trace w ++ [StInfo RaceIsOn])
                ++ [StWrite (RaceDetails FEE (PRIZE cars_df))] |}.

Lemma start_race_unfold (sort_values : list race_result -> list race_result)
      (cars_df : list car) (w : world) :
  (2 <= List.length cars_df)%nat ->
  start_race sort_values cars_df w =
  (deduct_fees (teams_in_race cars_df) ;;
   emit (StSuccess FeesCollected) ;;
   race_results <- simulate cars_df [] ;;
   award sort_values cars_df race_results) (announced cars_df w).
Proof.
  intros Hlen. unfold start_race. apply Nat.ltb_ge in Hlen. now rewrite Hlen.
Qed.

Lemma py_div_raises (a b : Q) (e : exn) :
  py_div a b = inl e -> e = ZeroDivisionError.
Proof. unfold py_div. destruct (Qeq_bool b 0); congruence. Qed.

Lemma time_taken_raises (c : car) (l : Q) (e : exn) :
  time_taken c l = inl e -> e = ZeroDivisionError.
Proof.
  unfold time_taken, power_to_weight, finish.
  destruct (py_div (HORSEPOWER c) (MIN_WEIGHT_KG c)) as [e'|ptw] eqn:E.
  - intros [= <-]. exact (py_div_raises _ _ _ E).
  - apply py_div_raises.
Qed.

(** A car without weight or without power has no time. *)
Definition untimed (c : car) : Prop :=
  MIN_WEIGHT_KG c == 0 \/ HORSEPOWER c == 0.

Lemma untimed_time_taken (c : car) (l : Q) :
  untimed c -> time_taken c l = inl ZeroDivisionError.
Proof.
  intros Hc. unfold time_taken, power_to_weight.
  destruct (Qeq_dec (MIN_WEIGHT_KG c) 0) as [Hw|Hw].
  - now rewrite (py_div_zero _ _ Hw).
  - destruct Hc as [Hw'|Hh]; [contradiction|].
    rewrite (py_div_ok _ _ Hw). unfold finish.
    apply py_div_zero, performance_score_zero.
    rewrite Hh. field. exact Hw.
Qed.

Lemma simulated_timed (ent : nat -> Q) (cars : list car) (rows : list race_result) :
  simulated ent cars rows ->
  forall c, In c cars -> exists l t, time_taken c l = inr t.
Proof.
  revert ent rows. induction cars as [|c cars IH]; intros ent [|r rows]; cbn;
    try tauto.
  intros [(t & Ht & _) H] c' [<-|Hc'].
  - eauto.
  - exact (IH _ _ H c' Hc').
Qed.

Lemma simulate_car_only_zero_division (c : car) (w w' : world) (e : exn) :
  simulate_car c w = (w', inl e) -> e = ZeroDivisionError.
Proof.
  intros Hrun.
  destruct (time_taken c (drawn_luck c w)) as [e'|t] eqn:Ht.
  - destruct (simulate_car_raises c w e' Ht) as (w1 & Hrun1 & _).
    rewrite Hrun in Hrun1. injection Hrun1 as _ ->.
    exact (time_taken_raises _ _ _ Ht).
  - rewrite (simulate_car_returns c w t Ht) in Hrun. discriminate Hrun.
Qed.

Lemma simulate_only_zero_division (cars : list car) (acc : list race_result)
      (w w' : world) (e : exn) :
  simulate cars acc w = (w', inl e) -> e = ZeroDivisionError.
Proof.
  revert acc w. induction cars as [|c cars IH]; intros acc w; cbn [simulate].
  - discriminate.
  - unfold bind at 1.
    destruct (simulate_car c w) as [w1 [e1|r]] eqn:E1.
    + intros [= _ <-]. exact (simulate_car_only_zero_division c w w1 e1 E1).
    + apply IH.
Qed.

Lemma simulate_untimed (cars : list car) (acc : list race_result) (w : world) :
  (exists c, In c cars /\ untimed c) ->
  exists w', simulate cars acc w = (w', inl ZeroDivisionError) /\
             exists sim, trace w' = (trace w ++ sim)%list /\
                         commands_of sim = [] /\ dataframes_of sim = [] /\
                         TEAMS w' = TEAMS w.
Proof.
  intros (c & Hc & Hbad).
  destruct (simulate_run cars acc w)
    as (w' & sim & Htr & Hcmd & Hdf & Hteams & _ & _ & Hres).
  exists w'. split; [|exists sim; auto].
  destruct Hres as [[e He]|(rows & _ & Hrows)].
  - now rewrite He, (simulate_only_zero_division _ _ _ _ _ He).
  - destruct (simulated_timed _ _ _ Hrows c Hc) as (l & t & Ht).
    rewrite (untimed_time_taken c l Hbad) in Ht. discriminate Ht.
Qed.

Lemma after_the_fees (sort_values : list race_result -> list race_result)
      (cars_df : list car) (w w1 : world) :
  (2 <= List.length cars_df)%nat ->
  deduct_fees (teams_in_race cars_df) (announced cars_df w) = (w1, inr tt) ->
  start_race sort_values cars_df w =
  (race_results <- simulate cars_df [] ;;
   award sort_values cars_df race_results) (fees_collected w1).
Proof.
  intros Hlen Hrun. rewrite (start_race_unfold sort_values cars_df w Hlen).
  unfold bind at 1. rewrite Hrun. reflexivity.
Qed.

(** X6. A car without weight or without horsepower in a race of at least
    two cars ends the run with ZeroDivisionError after the fees: every team
    of the race has had its debit sent, no ranking is shown and no credit is
    sent, so that the fees the database accepted are lost to the teams. *)
Theorem fees_lost_on_zero_division
        (sort_values : list race_result -> list race_result)
        (cars_df : list car) (w : world) :
  (2 <= List.length cars_df)%nat ->
  (forall k, (k < List.length (teams_in_race cars_df))%nat ->
             connections w k = true) ->
  (exists c, In c cars_df /\ (MIN_WEIGHT_KG c == 0 \/ HORSEPOWER c == 0)) ->
  exists w' t,
    start_race sort_values cars_df w = (w', inl ZeroDivisionError) /\
    trace w' = (trace w ++ t)%list /\
    commands_of t = map (BudgetMinus FEE) (teams_in_race cars_df) /\
    dataframes_of t = [] /\
    ((forall k, (k < List.length (teams_in_race cars_df))%nat -> replies w k = true) ->
     TEAMS w' = map (debit (teams_in_race cars_df)) (TEAMS w)).
Proof.
  intros Hlen Hconn Hbad.
  destruct (deduct_fees_run (teams_in_race cars_df) (announced cars_df w))
    as (w1 & fees & sent & Htr & Hfee & Hcmd & _ & Hres).
  cbn [trace announced] in Htr.
  destruct Hres as [(more & _ & Hsent & Hmore & Hc)|(Hrun & -> & _ & _ & Hteams)].
  { exfalso. cbn [connections announced] in Hc.
    rewrite Hconn in Hc; [discriminate Hc|].
    rewrite Hsent. now apply prefix_shorter. }
  cbn [TEAMS replies announced] in Hteams.
  rewrite (after_the_fees sort_values cars_df w w1 Hlen Hrun).
  destruct (simulate_untimed cars_df [] (fees_collected w1) Hbad)
    as (w2 & Hsim & sim & Htr2 & Hcmd2 & Hdf2 & Hteams2).
  cbn [trace TEAMS fees_collected] in Htr2, Hteams2.
  exists w2.
  exists ([StInfo RaceIsOn; StWrite (RaceDetails FEE (PRIZE cars_df))]
            ++ fees ++ [StSuccess FeesCollected] ++ sim)%list.
  split; [unfold bind; now rewrite Hsim|].
  split; [rewrite Htr2, Htr, <- !app_assoc; reflexivity|].
  split; [rewrite !commands_of_app, Hcmd, Hcmd2; cbn; now rewrite app_nil_r|].
  split.
  { rewrite !dataframes_of_app, (fee_events_no_dataframe fees Hfee), Hdf2.
    reflexivity. }
  intros Hok. rewrite Hteams2, (Hteams Hok).
  apply debit_all_once, unique_NoDup.
Qed.

Lemma fees_lost_on_zero_division_witness :
  let ghost := {| CAR_ID := 5; TEAM_NAME := "C"; MODEL := "Ghost";
                  CATEGORY_NAME := "Group B"; HORSEPOWER := 200;
                  DRIVETRAIN := "4WD"; MIN_WEIGHT_KG := 0;
                  DRIVER_NAME := "Eve"; SKILL_LEVEL := 50; LUCK_LEVEL := 50 |} in
  exists w' t,
    start_race stable_sort [quattro; ghost] paddock = (w', inl ZeroDivisionError) /\
    trace w' = (trace paddock ++ t)%list /\
    commands_of t = map (BudgetMinus FEE) (teams_in_race [quattro; ghost]) /\
    dataframes_of t = [] /\
    ((forall k, (k < List.length (teams_in_race [quattro; ghost]))%nat ->
                replies paddock k = true) ->
     TEAMS w' = map (debit (teams_in_race [quattro; ghost])) (TEAMS paddock)).
Proof.
  intros ghost.
  apply (fees_lost_on_zero_division stable_sort [quattro; ghost] paddock).
  - cbn. lia.
  - reflexivity.
  - exists ghost. split; [cbn; auto | left; reflexivity].
Defined.

Lemma firstn_NoDup {A} (k : nat) (l : list A) : NoDup l -> NoDup (firstn k l).
Proof.
  intros H. revert k. induction H as [|x l Hx H IH]; intros [|k]; cbn;
    try constructor.
  - intros Hin. apply Hx. rewrite <- (firstn_skipn k l).
    apply in_or_app. now left.
  - apply IH.
Qed.

(** The fee loop when the connection number [k] is the first not to open. *)
Lemma deduct_fees_first_failure (names : list string) (w : world) (k : nat) :
  (k < List.length names)%nat ->
  connections w k = false ->
  (forall j, (j < k)%nat -> connections w j = true) ->
  exists w' fees,
    deduct_fees names w = (w', inl StopException) /\
    trace w' = (trace w ++ fees)%list /\
    forallb is_fee_event fees = true /\
    commands_of fees = map (BudgetMinus FEE) (firstn k names) /\
    ((forall j, (j < k)%nat -> replies w j = true) ->
     TEAMS w' = debit_all (firstn k names) (TEAMS w)).
Proof.
  revert w k. induction names as [|n names IH]; intros w k Hk Hfail Hopen.
  - cbn in Hk. lia.
  - destruct k as [|k].
    + rewrite (deduct_fees_stopped n names w Hfail).
      exists (after_stop w), [StError ConnectionFailed].
      repeat (split; [reflexivity|]). reflexivity.
    + assert (H0 : connections w 0%nat = true) by (apply Hopen; lia).
      rewrite (deduct_fees_connected n names w H0).
      destruct (IH (after_command (BudgetMinus FEE n) w) k)
        as (w' & fees & Hrun & Htr & Hfee & Hcmd & Hteams).
      { cbn in Hk. lia. }
      { exact Hfail. }
      { intros j Hj. cbn. apply Hopen. lia. }
      cbn [trace TEAMS replies after_command] in Htr, Hteams.
      exists w'.
      exists (Execute (BudgetMinus FEE n)
                :: (if replies w 0%nat then [] else [StError CommandFailed]) ++ fees)%list.
      split; [exact Hrun|].
      split; [rewrite Htr, <- app_assoc; reflexivity|].
      split.
      { cbn. rewrite forallb_app, Hfee. destruct (replies w 0%nat); reflexivity. }
      split.
      { cbn. rewrite commands_of_app, Hcmd. destruct (replies w 0%nat); reflexivity. }
      intros Hok. rewrite Hteams.
      * rewrite (Hok 0%nat); [reflexivity | lia].
      * intros j Hj. apply Hok. lia.
Qed.

(** X7. When the connection for the fee command number [k] is the first
    not to open, the run stops there: the debits of the first [k] teams have
    been sent, and applied where the database accepted them, the other
    teams pay nothing, no car is simulated, no ranking is shown and no
    prize is credited. *)
Theorem lost_connection_leaves_fees_half_collected
        (sort_values : list race_result -> list race_result)
        (cars_df : list car) (w : world) (k : nat) :
  (2 <= List.length cars_df)%nat ->
  (k < List.length (teams_in_race cars_df))%nat ->
  connections w k = false ->
  (forall j, (j < k)%nat -> connections w j = true) ->
  exists w' t,
    start_race sort_values cars_df w = (w', inl StopException) /\
    trace w' = (trace w ++ t)%list /\
    commands_of t = map (BudgetMinus FEE) (firstn k (teams_in_race cars_df)) /\
    forallb (fun e => negb (is_simulation e)) t = true /\
    dataframes_of t = [] /\
    ((forall j, (j < k)%nat -> replies w j = true) ->
     TEAMS w' = map (debit (firstn k (teams_in_race cars_df))) (TEAMS w)).
Proof.
  intros Hlen Hk Hfail Hopen.
  destruct (deduct_fees_first_failure (teams_in_race cars_df)
              (announced cars_df w) k Hk Hfail Hopen)
    as (w' & fees & Hrun & Htr & Hfee & Hcmd & Hteams).
  cbn [trace TEAMS replies announced] in Htr, Hteams.
  exists w'.
  exists ([StInfo RaceIsOn; StWrite (RaceDetails FEE (PRIZE cars_df))] ++ fees)%list.
  split.
  { rewrite (start_race_unfold sort_values cars_df w Hlen).
    unfold bind at 1. now rewrite Hrun. }
  split; [rewrite Htr, <- !app_assoc; reflexivity|].
  split; [rewrite commands_of_app, Hcmd; reflexivity|].
  split; [rewrite forallb_app, (fee_events_no_simulation fees Hfee); reflexivity|].
  split; [rewrite dataframes_of_app, (fee_events_no_dataframe fees Hfee); reflexivity|].
  intros Hok. rewrite (Hteams Hok).
  apply debit_all_once, firstn_NoDup, unique_NoDup.
Qed.

Lemma lost_connection_leaves_fees_half_collected_witness :
  let offline := {| TEAMS := TEAMS paddock; entropy := entropy paddock;
                    connections := fun k => Nat.eqb k 0;
                    replies := replies paddock; trace := [] |} in
  exists w' t,
    start_race stable_sort grid offline = (w', inl StopException) /\
    trace w' = (trace offline ++ t)%list /\
    commands_of t = map (BudgetMinus FEE) (firstn 1 (teams_in_race grid)) /\
    forallb (fun e => negb (is_simulation e)) t = true /\
    dataframes_of t = [] /\
    ((forall j, (j < 1)%nat -> replies offline j = true) ->
     TEAMS w' = map (debit (firstn 1 (teams_in_race grid))) (TEAMS offline)).
Proof.
  intros offline.
  apply (lost_connection_leaves_fees_half_collected stable_sort grid offline 1).
  - cbn. lia.
  - cbn. lia.
  - reflexivity.
  - intros j Hj. assert (j = 0%nat) as -> by lia. reflexivity.
Defined.

(** ** Completed races, command by command *)

(** Whether the debit of team [name] was accepted: [rep k] is the answer to
    the command number [k], the one for the team number [k]. *)
Fixpoint fee_accepted (names : list string) (rep : nat -> bool) (name : string)
  : bool :=
  match names with
  | [] => false
  | n :: names' =>
      (rep 0%nat && String.eqb n name)
      || fee_accepted names' (fun k => rep (S k)) name
  end.

Lemma fee_accepted_spec (names : list string) (rep : nat -> bool) (name : string) :
  fee_accepted names rep name = true <->
  exists k, nth_error names k = Some name /\ rep k = true.
Proof.
  revert rep. induction names as [|n names IH]; intros rep; cbn.
  - split; [discriminate | intros ([|k] & H & _); discriminate H].
  - rewrite orb_true_iff, andb_true_iff, String.eqb_eq, IH. split.
    + intros [[H0 ->]|(k & Hk & Hr)]; [now exists 0%nat | now exists (S k)].
    + intros ([|k] & Hk & Hr); cbn in Hk.
      * injection Hk as ->. now left.
      * right. now exists k.
Qed.

Lemma fee_accepted_not_in (names : list string) (rep : nat -> bool) (name : string) :
  ~ In name names -> fee_accepted names rep name = false.
Proof.
  intros Hn. apply not_true_is_false. rewrite fee_accepted_spec.
  intros (k & Hk & _). apply Hn. exact (nth_error_In _ _ Hk).
Qed.

(** A row after the fee loop. *)
Definition pay (names : list string) (rep : nat -> bool) (t : team) : team :=
  if fee_accepted names rep (team_name t)
  then {| team_name := team_name t; budget := budget t - FEE |}
  else t.

Lemma deduct_fees_ledger (names : list string) (w w' : world) :
  NoDup names ->
  deduct_fees names w = (w', inr tt) ->
  TEAMS w' = map (pay names (replies w)) (TEAMS w).
Proof.
  intros Hnd. revert w. induction Hnd as [|n names Hn Hnd IH]; intros w Hrun.
  - injection Hrun as <-. unfold pay. cbn. now rewrite map_id.
  - destruct (connections w 0%nat) eqn:Hc.
    + rewrite (deduct_fees_connected n names w Hc) in Hrun.
      rewrite (IH _ Hrun). cbn [TEAMS replies after_command].
      destruct (replies w 0%nat) eqn:Hr.
      * cbn [apply_command]. rewrite map_map. apply map_ext. intros t.
        unfold pay. cbn [fee_accepted]. rewrite Hr. cbn [andb].
        rewrite (String.eqb_sym n).
        destruct (String.eqb_spec (team_name t) n) as [E|E]; cbn; [|reflexivity].
        rewrite E, (fee_accepted_not_in names _ n Hn). reflexivity.
      * apply map_ext. intros t. unfold pay. cbn [fee_accepted].
        rewrite Hr. reflexivity.
    + rewrite (deduct_fees_stopped n names w Hc) in Hrun. discriminate Hrun.
Qed.

Lemma deduct_fees_streams (names : list string) (w w' : world) :
  deduct_fees names w = (w', inr tt) ->
  entropy w' = entropy w /\
  (forall k, connections w k = true \/ (List.length names <= k)%nat) /\
  (forall k, connections w' k = connections w (k + List.length names)%nat) /\
  (forall k, replies w' k = replies w (k + List.length names)%nat) /\
  exists fees, trace w' = (trace w ++ fees)%list /\
               forallb is_fee_event fees = true /\
               commands_of fees = map (BudgetMinus FEE) names.
Proof.
  intros Hrun.
  destruct (deduct_fees_run names w)
    as (w1 & fees & sent & Htr & Hfee & Hcmd & Hent & Hres).
  destruct Hres as [(more & Hrun1 & _)|(Hrun1 & -> & Hconn & Hrep & _)];
    rewrite Hrun in Hrun1; [discriminate Hrun1|].
  injection Hrun1 as <-.
  split; [exact Hent|]. split.
  - intros k. destruct (Nat.lt_ge_cases k (List.length names)) as [Hk|Hk];
      [left | now right].
    destruct (connections w k) eqn:Hc; [reflexivity|]. exfalso.
    assert (Hfirst : exists j, (j <= k)%nat /\ connections w j = false /\
                               forall i, (i < j)%nat -> connections w i = true).
    { clear - Hc. induction k as [k IHk] using lt_wf_ind.
      destruct (forallb (connections w) (seq 0 k)) eqn:Hall.
      - exists k. split; [lia|]. split; [exact Hc|].
        intros i Hi. rewrite forallb_forall in Hall. apply Hall.
        apply in_seq. lia.
      - assert (Hex : exists i, In i (seq 0 k) /\ connections w i = false).
        { clear - Hall. induction (seq 0 k) as [|a l IH]; [discriminate|].
          cbn in Hall. destruct (connections w a) eqn:Ha.
          - destruct (IH Hall) as (i & Hi & Hci). exists i. split; [now right|auto].
          - exists a. split; [now left | exact Ha]. }
        destruct Hex as (i & Hi & Hci). apply in_seq in Hi.
        destruct (IHk i ltac:(lia) Hci) as (j & Hj & Hcj & Hbefore).
        exists j. split; [lia|]. auto. }
    destruct Hfirst as (j & Hj & Hcj & Hbefore).
    destruct (deduct_fees_first_failure names w j ltac:(lia) Hcj Hbefore)
      as (w2 & fees2 & Hrun2 & _).
    rewrite Hrun in Hrun2. discriminate Hrun2.
  - split; [exact Hconn|]. split; [exact Hrep|].
    exists fees. auto.
Qed.

(** The events of the simulation loop when no car raises. *)
Definition simulation_trace (cars : list car) : list event :=
  flat_map (fun c => [RandomUniform (luck_low c) (luck_high c); Sleep]) cars.

Lemma simulate_exact (cars : list car) (acc res : list race_result)
      (w w' : world) :
  simulate cars acc w = (w', inr res) ->
  exists rows,
    res = (acc ++ rows)%list /\
    simulated (entropy w) cars rows /\
    trace w' = (trace w ++ simulation_trace cars)%list /\
    (forall n, entropy w' n = entropy w (n + List.length cars)%nat) /\
    TEAMS w' = TEAMS w /\ connections w' = connections w /\
    replies w' = replies w.
Proof.
  revert acc w. induction cars as [|c cars IH]; intros acc w Hrun.
  - injection Hrun as <- <-. exists []. rewrite !app_nil_r.
    split; [reflexivity|]. split; [exact I|]. split; [reflexivity|].
    split; [intros n; now rewrite Nat.add_0_r|]. auto.
  - destruct (time_taken c (drawn_luck c w)) as [e|t] eqn:Ht.
    + destruct (simulate_car_raises c w e Ht) as (w1 & Hrun1 & _).
      cbn [simulate] in Hrun. unfold bind at 1 in Hrun.
      rewrite Hrun1 in Hrun. discriminate Hrun.
    + rewrite (simulate_car_step c cars acc w t Ht) in Hrun.
      destruct (IH _ _ Hrun) as (rows & -> & Hrows & Htr & Hent & Hteams & Hconn & Hrep).
      cbn [trace entropy TEAMS connections replies after_car]
        in Htr, Hent, Hteams, Hconn, Hrep.
      exists (result_row c t :: rows).
      split; [now rewrite <- app_assoc|]. split.
      { cbn. split; [|exact Hrows]. exists t. split; [exact Ht | reflexivity]. }
      split; [rewrite Htr; cbn; now rewrite <- !app_assoc|].
      split; [intros n; rewrite Hent; cbn; f_equal; lia|]. auto.
Qed.

Section CompletedRaces.

Variable sort_values : list race_result -> list race_result.
Hypothesis sort_values_permutation :
  forall rows, Permutation rows (sort_values rows).

(** The phases of a completed race. *)
Lemma completed_race_phases (cars_df : list car) (w w' : world) :
  (2 <= List.length cars_df)%nat ->
  start_race sort_values cars_df w = (w', inr tt) ->
  exists w1 w2 rows winner rest,
    deduct_fees (teams_in_race cars_df) (announced cars_df w) = (w1, inr tt) /\
    simulate cars_df [] (fees_collected w1) = (w2, inr rows) /\
    sort_values rows = winner :: rest /\
    award sort_values cars_df rows w2 = (w', inr tt).
Proof.
  intros Hlen Hdone.
  destruct (deduct_fees (teams_in_race cars_df) (announced cars_df w))
    as [w1 [e|[]]] eqn:Hfees.
  { rewrite (start_race_unfold sort_values cars_df w Hlen) in Hdone.
    unfold bind at 1 in Hdone. rewrite Hfees in Hdone. discriminate Hdone. }
  rewrite (after_the_fees sort_values cars_df w w1 Hlen Hfees) in Hdone.
  unfold bind at 1 in Hdone.
  destruct (simulate cars_df [] (fees_collected w1)) as [w2 [e|rows]] eqn:Hsim;
    [discriminate Hdone|].
  destruct (simulate_exact _ _ _ _ _ Hsim) as (rows' & Hrows' & Hsimd & _).
  cbn [app] in Hrows'. subst rows'.
  assert (Hne : rows <> []).
  { intros ->. apply simulated_length in Hsimd. cbn in Hsimd. lia. }
  destruct (sort_values rows) as [|winner rest] eqn:E.
  { pose proof (sort_values_permutation rows) as P. rewrite E in P.
    apply Permutation_sym, Permutation_nil in P. contradiction. }
  exists w1, w2, rows, winner, rest. auto.
Qed.

End CompletedRaces.

(** A row at the end of a completed race: the fee if its debit was
    accepted, then the prize if it is a row of the winning team and the
    credit was accepted. *)
Definition settle (names : list string) (rep : nat -> bool) (prize : Q)
           (winning_team : string) (t : team) : team :=
  if rep (List.length names)
  then credit prize winning_team (pay names rep t)
  else pay names rep t.

Section CompletedLedger.

Variable sort_values : list race_result -> list race_result.
Hypothesis sort_values_permutation :
  forall rows, Permutation rows (sort_values rows).

(** A completed race of at least two cars, event by event. *)
Lemma completed_race_exact (cars_df : list car) (w w' : world) :
  (2 <= List.length cars_df)%nat ->
  start_race sort_values cars_df w = (w', inr tt) ->
  exists fees rows winner rest,
    forallb is_fee_event fees = true /\
    commands_of fees = map (BudgetMinus FEE) (teams_in_race cars_df) /\
    simulated (entropy w) cars_df rows /\
    sort_values rows = winner :: rest /\
    (forall k, (k <= List.length (teams_in_race cars_df))%nat ->
               connections w k = true) /\
    trace w' =
      (trace w ++ [StInfo RaceIsOn; StWrite (RaceDetails FEE (PRIZE cars_df))]
         ++ fees ++ [StSuccess FeesCollected] ++ simulation_trace cars_df
         ++ award_trace cars_df (winner :: rest) winner true
              (replies w (List.length (teams_in_race cars_df))))%list /\
    TEAMS w' = map (settle (teams_in_race cars_df) (replies w)
                           (PRIZE cars_df) (Team winner)) (TEAMS w).
Proof.
  intros Hlen Hdone.
  destruct (completed_race_phases sort_values sort_values_permutation
              cars_df w w' Hlen Hdone)
    as (w1 & w2 & rows & winner & rest & Hfees & Hsim & E & Haward).
  pose proof (deduct_fees_ledger _ _ _ (unique_NoDup _) Hfees) as Hteams1.
  destruct (deduct_fees_streams _ _ _ Hfees)
    as (Hent1 & Hopen & Hconn1 & Hrep1 & fees & Htr1 & Hfee & Hcmd).
  cbn [TEAMS entropy connections replies trace announced]
    in Hteams1, Hent1, Hopen, Hconn1, Hrep1, Htr1.
  destruct (simulate_exact _ _ _ _ _ Hsim)
    as (rows' & Hrows' & Hsimd & Htr2 & _ & Hteams2 & Hconn2 & Hrep2).
  cbn [app] in Hrows'. subst rows'.
  cbn [TEAMS entropy connections replies trace fees_collected]
    in Hsimd, Htr2, Hteams2, Hconn2, Hrep2.
  destruct (award_run sort_values cars_df rows rest winner w2 E)
    as (w'' & Haward' & Htr3 & Hteams3).
  rewrite Haward in Haward'.
  rewrite Hconn2, Hconn1, Hrep2, Hrep1 in *. cbn [Nat.add] in *.
  destruct (connections w (List.length (teams_in_race cars_df))) eqn:Hc;
    [|discriminate Haward'].
  injection Haward' as <-.
  exists fees, rows, winner, rest.
  split; [exact Hfee|]. split; [exact Hcmd|].
  split; [now rewrite <- Hent1|]. split; [exact E|]. split.
  { intros k Hk. destruct (Hopen k) as [H|H]; [exact H|].
    assert (k = List.length (teams_in_race cars_df)) as -> by lia. exact Hc. }
  split.
  { rewrite Htr3, Htr2, Htr1, <- !app_assoc. reflexivity. }
  rewrite Hteams3, Hteams2, Hteams1. cbn [andb].
  unfold settle. destruct (replies w _); [now rewrite map_map | reflexivity].
Qed.

End CompletedLedger.

(** Who a row of the results is about, and who a car is. *)
Definition entrant_of_row (r : race_result) : string * string * string :=
  (Team r, Driver r, Car_Model r).

Definition entrant_of_car (c : car) : string * string * string :=
  (TEAM_NAME c, DRIVER_NAME c, MODEL c).

Lemma simulated_entrants (ent : nat -> Q) (cars : list car)
      (rows : list race_result) :
  simulated ent cars rows -> map entrant_of_row rows = map entrant_of_car cars.
Proof.
  revert ent rows. induction cars as [|c cars IH]; intros ent [|r rows]; cbn;
    try tauto.
  intros [(t & _ & ->) H]. f_equal. exact (IH _ _ H).
Qed.

Lemma dataframes_of_simulation_trace (cars : list car) :
  dataframes_of (simulation_trace cars) = [].
Proof. induction cars as [|c cars IH]; [reflexivity | exact IH]. Qed.

Lemma commands_of_simulation_trace (cars : list car) :
  commands_of (simulation_trace cars) = [].
Proof. induction cars as [|c cars IH]; [reflexivity | exact IH]. Qed.

Lemma award_trace_announces (cars_df : list car) (ranked : list race_result)
      (winner : race_result) (ok : bool) :
  In (StSuccess (Awarded (PRIZE cars_df) (Team winner)))
     (award_trace cars_df ranked winner true ok) /\
  In Rerun (award_trace cars_df ranked winner true ok) /\
  (ok = false ->
   In (StError CommandFailed) (award_trace cars_df ranked winner true ok)).
Proof. destruct ok; cbn; intuition discriminate. Qed.

Section CompletedRaceProperties.

Variable sort_values : list race_result -> list race_result.
Hypothesis sort_values_permutation :
  forall rows, Permutation rows (sort_values rows).

(** X8. In a completed race the return value of [execute_command] is
    ignored: a fee debit that the database refuses leaves the rows of its
    team unpaid and changes nothing else, and the award is announced, and
    the page rerun, whether or not the credit of the prize was accepted.
    Each row ends with [settle]: less the fee if the debit of its team was
    accepted, plus the prize if it is a row of the winning team and the
    credit was accepted. *)
Theorem refused_commands_skip_their_team (cars_df : list car) (w w' : world) :
  (2 <= List.length cars_df)%nat ->
  start_race sort_values cars_df w = (w', inr tt) ->
  exists rows winner rest t,
    simulated (entropy w) cars_df rows /\
    sort_values rows = winner :: rest /\
    trace w' = (trace w ++ t)%list /\
    TEAMS w' = map (settle (teams_in_race cars_df) (replies w)
                           (PRIZE cars_df) (Team winner)) (TEAMS w) /\
    (forall name,
        fee_accepted (teams_in_race cars_df) (replies w) name = true <->
        exists k, nth_error (teams_in_race cars_df) k = Some name /\
                  replies w k = true) /\
    In (StSuccess (Awarded (PRIZE cars_df) (Team winner))) t /\
    In Rerun t /\
    (replies w (List.length (teams_in_race cars_df)) = false ->
     In (StError CommandFailed) t).
Proof.
  intros Hlen Hdone.
  destruct (completed_race_exact sort_values sort_values_permutation
              cars_df w w' Hlen Hdone)
    as (fees & rows & winner & rest & _ & _ & Hsim & E & _ & Htr & Hteams).
  exists rows, winner, rest. eexists.
  split; [exact Hsim|]. split; [exact E|]. split; [exact Htr|].
  split; [exact Hteams|]. split; [intros name; apply fee_accepted_spec|].
  destruct (award_trace_announces cars_df (winner :: rest) winner
              (replies w (List.length (teams_in_race cars_df))))
    as (H1 & H2 & H3).
  repeat split; intros; rewrite !in_app_iff; do 4 right; auto.
Qed.

(** X9. In a completed race every car is ranked, once: the table shown
    lists the entrants of the snapshot, rearranged; and the events come in
    this order: the announcement, the fee commands, the message on the
    fees, one draw of [random.uniform] and one pause per car, in the order
    of the snapshot and between the bounds of that car's luck, then the
    ranking, the winner and the credit. *)
Theorem completed_race_step_by_step (cars_df : list car) (w w' : world) :
  (2 <= List.length cars_df)%nat ->
  start_race sort_values cars_df w = (w', inr tt) ->
  exists fees ranked winner,
    forallb is_fee_event fees = true /\
    Permutation (map entrant_of_row ranked) (map entrant_of_car cars_df) /\
    hd_error ranked = Some winner /\
    trace w' =
      (trace w ++ [StInfo RaceIsOn; StWrite (RaceDetails FEE (PRIZE cars_df))]
         ++ fees ++ [StSuccess FeesCollected]
         ++ flat_map (fun c => [RandomUniform (1 - LUCK_LEVEL c / 1000)
                                              (1 + LUCK_LEVEL c / 1000); Sleep])
                     cars_df
         ++ [StSubheader RaceResultsHeader; StDataframe (reset_index ranked);
             StBalloons; StSuccess (Winner (Driver winner) (Team winner));
             Execute (BudgetPlus (PRIZE cars_df) (Team winner))]
         ++ (if replies w (List.length (teams_in_race cars_df))
             then [] else [StError CommandFailed])
         ++ [StSuccess (Awarded (PRIZE cars_df) (Team winner)); CacheClear;
             Rerun])%list.
Proof.
  intros Hlen Hdone.
  destruct (completed_race_exact sort_values sort_values_permutation
              cars_df w w' Hlen Hdone)
    as (fees & rows & winner & rest & Hfee & _ & Hsim & E & _ & Htr & _).
  exists fees, (winner :: rest), winner.
  split; [exact Hfee|]. split.
  { rewrite <- (simulated_entrants _ _ _ Hsim), <- E.
    apply Permutation_map, Permutation_sym, sort_values_permutation. }
  split; [reflexivity|].
  rewrite Htr. reflexivity.
Qed.

End CompletedRaceProperties.

(** ** The money of a race *)

From Stdlib Require Import Znat.

Definition total_budget (rows : list team) : Q :=
  fold_right (fun t acc => budget t + acc) 0 rows.

(** The number of rows that satisfy [f]. *)
Definition headcount (f : team -> bool) (rows : list team) : Q :=
  inject_Z (Z.of_nat (List.length (filter f rows))).

Lemma total_budget_map (f : team -> bool) (g : team -> team) (delta : Q)
      (rows : list team) :
  (forall t, f t = true -> budget (g t) == budget t + delta) ->
  (forall t, f t = false -> budget (g t) == budget t) ->
  total_budget (map g rows) == total_budget rows + delta * headcount f rows.
Proof.
  intros Hin Hout. unfold headcount, total_budget.
  induction rows as [|t rows IH]; cbn [map fold_right filter]; [cbn; ring|].
  rewrite IH. destruct (f t) eqn:E; cbn [List.length].
  - rewrite (Hin t E), Nat2Z.inj_succ, <- Z.add_1_r, inject_Z_plus.
    change (inject_Z 1) with 1. ring.
  - rewrite (Hout t E). ring.
Qed.

Lemma headcount_map (f : team -> bool) (g : team -> team) (rows : list team) :
  (forall t, f (g t) = f t) -> headcount f (map g rows) = headcount f rows.
Proof.
  intros H. unfold headcount. do 2 f_equal.
  induction rows as [|t rows IH]; cbn [map filter]; [reflexivity|].
  rewrite H. destruct (f t); cbn [List.length]; now rewrite IH.
Qed.

Definition named_in (names : list string) (t : team) : bool :=
  existsb (String.eqb (team_name t)) names.

Lemma named_in_spec (names : list string) (t : team) :
  named_in names t = true <-> In (team_name t) names.
Proof.
  unfold named_in. rewrite existsb_exists. split.
  - intros (x & Hx & E). apply String.eqb_eq in E. now rewrite E.
  - intros H. exists (team_name t). split; [exact H | apply String.eqb_refl].
Qed.

(** In a table without two rows of the same name, as many rows are named in
    [names] as there are names, when each has its row. *)
Lemma headcount_named_in (names : list string) (rows : list team) :
  NoDup (map team_name rows) -> NoDup names ->
  (forall name, In name names -> In name (map team_name rows)) ->
  headcount (named_in names) rows = inject_Z (Z.of_nat (List.length names)).
Proof.
  intros Hrows Hnames Hincl. unfold headcount. do 2 f_equal.
  rewrite <- (length_map team_name).
  assert (Hnd : NoDup (map team_name (filter (named_in names) rows))).
  { clear Hincl. induction rows as [|t rows IH]; cbn; [constructor|].
    inversion Hrows as [|x l Hx Hl]; subst.
    destruct (named_in names t); cbn; [constructor|]; auto.
    intros Hin. apply Hx. apply in_map_iff in Hin.
    destruct Hin as (t' & E & Ht'). apply filter_In in Ht'.
    rewrite <- E. apply in_map. tauto. }
  apply Nat.le_antisymm.
  - apply NoDup_incl_length; [exact Hnd|].
    intros x Hx. apply in_map_iff in Hx. destruct Hx as (t & <- & Ht).
    apply filter_In in Ht. now apply named_in_spec.
  - apply NoDup_incl_length; [exact Hnames|].
    intros x Hx. pose proof (Hincl x Hx) as Hin. apply in_map_iff in Hin.
    destruct Hin as (t & <- & Ht). apply in_map, filter_In.
    split; [exact Ht | now apply named_in_spec].
Qed.

Lemma fee_accepted_all (names : list string) (rep : nat -> bool) (name : string) :
  (forall k, (k < List.length names)%nat -> rep k = true) ->
  fee_accepted names rep name = existsb (String.eqb name) names.
Proof.
  revert rep. induction names as [|n names IH]; intros rep Hok; cbn;
    [reflexivity|].
  rewrite (Hok 0%nat) by (cbn; lia). cbn. rewrite (String.eqb_sym n).
  f_equal. apply IH. intros k Hk. apply Hok. cbn. lia.
Qed.

Section Money.

Variable sort_values : list race_result -> list race_result.
Hypothesis sort_values_permutation :
  forall rows, Permutation rows (sort_values rows).

(** X11. A completed race takes a fifth of the fees out of the teams'
    money: when the database accepts every command, no two rows of the
    TEAMS table have the same name and every team of the race has its row,
    the sum of the budgets decreases by 0.2 * 1000 * the number of teams in
    the race. *)
Theorem completed_race_costs_a_fifth_of_the_fees (cars_df : list car)
        (w w' : world) :
  (2 <= List.length cars_df)%nat ->
  start_race sort_values cars_df w = (w', inr tt) ->
  (forall k, (k <= List.length (teams_in_race cars_df))%nat -> replies w k = true) ->
  NoDup (map team_name (TEAMS w)) ->
  (forall name, In name (teams_in_race cars_df) ->
                In name (map team_name (TEAMS w))) ->
  total_budget (TEAMS w') ==
  total_budget (TEAMS w)
  - 0.2 * 1000 * inject_Z (Z.of_nat (List.length (teams_in_race cars_df))).
Proof.
  intros Hlen Hdone Hok Hnd Hrows.
  destruct (completed_race_exact sort_values sort_values_permutation
              cars_df w w' Hlen Hdone)
    as (fees & rows & winner & rest & _ & _ & Hsim & E & _ & _ & Hteams).
  assert (Hwin : In (Team winner) (teams_in_race cars_df)).
  { unfold teams_in_race. rewrite unique_In, <- (simulated_teams _ _ _ Hsim).
    apply in_map.
    apply (Permutation_in _ (Permutation_sym (sort_values_permutation rows))).
    rewrite E. now left. }
  set (names := teams_in_race cars_df) in *.
  assert (Hpay : forall t, pay names (replies w) t =
                           if named_in names t
                           then {| team_name := team_name t; budget := budget t - FEE |}
                           else t).
  { intros t. unfold pay, named_in. rewrite fee_accepted_all; [reflexivity|].
    intros k Hk. apply Hok. lia. }
  assert (Hmap : TEAMS w' = map (credit (PRIZE cars_df) (Team winner))
                                (map (pay names (replies w)) (TEAMS w))).
  { rewrite Hteams, map_map. apply map_ext. intros t. unfold settle.
    now rewrite (Hok _ (Nat.le_refl _)). }
  rewrite Hmap.
  rewrite (total_budget_map (named_in [Team winner])
             (credit (PRIZE cars_df) (Team winner)) (PRIZE cars_df)).
  2:{ intros t Ht. unfold credit. unfold named_in in Ht. cbn in Ht.
      rewrite orb_false_r in Ht. rewrite Ht. reflexivity. }
  2:{ intros t Ht. unfold credit. unfold named_in in Ht. cbn in Ht.
      rewrite orb_false_r in Ht. rewrite Ht. reflexivity. }
  rewrite (total_budget_map (named_in names) (pay names (replies w)) (- FEE)).
  2:{ intros t Ht. rewrite Hpay, Ht. cbn. ring. }
  2:{ intros t Ht. rewrite Hpay, Ht. reflexivity. }
  rewrite headcount_map.
  2:{ intros t. rewrite Hpay. unfold named_in. now destruct (existsb _ names). }
  rewrite (headcount_named_in names (TEAMS w) Hnd (unique_NoDup _) Hrows).
  rewrite (headcount_named_in [Team winner] (TEAMS w) Hnd).
  2:{ constructor; [intros [] | constructor]. }
  2:{ intros name [<-|[]]. now apply Hrows. }
  unfold PRIZE, FEE. cbn [List.length].
  change (unique (map TEAM_NAME cars_df)) with names.
  change (inject_Z (Z.of_nat 1)) with 1. ring.
Qed.

End Money.

Lemma unique_constant (l : list string) (a : string) :
  l <> [] -> (forall x, In x l -> x = a) -> unique l = [a].
Proof.
  induction l as [|x l IH]; intros Hne Hall; [contradiction|].
  cbn. rewrite (Hall x (or_introl eq_refl)). destruct l as [|y l].
  - reflexivity.
  - rewrite IH; [|discriminate|intros z Hz; apply Hall; now right].
    cbn. now rewrite String.eqb_refl.
Qed.

Section MoreRaces.

Variable sort_values : list race_result -> list race_result.
Hypothesis sort_values_permutation :
  forall rows, Permutation rows (sort_values rows).

(** X12. A race between cars of one and the same team costs that team 200:
    in the completed race, the database accepting the two commands, the
    prize is 800, each row of the team ends with its budget less the fee
    plus the prize, and no other row changes. *)
Theorem racing_alone_costs_200 (cars_df : list car) (w w' : world)
        (name : string) :
  (2 <= List.length cars_df)%nat ->
  (forall c, In c cars_df -> TEAM_NAME c = name) ->
  start_race sort_values cars_df w = (w', inr tt) ->
  replies w 0%nat = true -> replies w 1%nat = true ->
  PRIZE cars_df == 800 /\
  - FEE + PRIZE cars_df == - (200) /\
  TEAMS w' =
  map (fun t => if String.eqb (team_name t) name
                then {| team_name := team_name t;
                        budget := budget t - FEE + PRIZE cars_df |}
                else t) (TEAMS w).
Proof.
  intros Hlen Hone Hdone Hr0 Hr1.
  assert (Hteams : teams_in_race cars_df = [name]).
  { apply unique_constant.
    - destruct cars_df; [cbn in Hlen; lia | discriminate].
    - intros x Hx. apply in_map_iff in Hx. destruct Hx as (c & <- & Hc).
      now apply Hone. }
  assert (Hprize : PRIZE cars_df == 800).
  { unfold PRIZE. fold (teams_in_race cars_df). rewrite Hteams. reflexivity. }
  split; [exact Hprize|]. split; [rewrite Hprize; reflexivity|].
  destruct (completed_race_exact sort_values sort_values_permutation
              cars_df w w' Hlen Hdone)
    as (fees & rows & winner & rest & _ & _ & Hsim & E & _ & _ & Hw').
  assert (Hwin : Team winner = name).
  { assert (H : In (Team winner) (teams_in_race cars_df)).
    { unfold teams_in_race. rewrite unique_In, <- (simulated_teams _ _ _ Hsim).
      apply in_map.
      apply (Permutation_in _ (Permutation_sym (sort_values_permutation rows))).
      rewrite E. now left. }
    rewrite Hteams in H. destruct H as [<-|[]]. reflexivity. }
  rewrite Hw', Hteams, Hwin. apply map_ext. intros t.
  unfold settle, pay, credit. cbn [List.length fee_accepted].
  rewrite Hr0, Hr1. cbn [andb]. rewrite orb_false_r, (String.eqb_sym name).
  destruct (String.eqb (team_name t) name) eqn:Et; cbn [team_name budget].
  - now rewrite Et.
  - now rewrite Et.
Qed.

(** X13. When every connection opens but the one for the credit of the
    prize, a run on at least two cars ends in one of two ways: with the
    ZeroDivisionError of a car, or, every car timed, with the ranking shown
    and the winner announced, at which point [st.stop()] ends the run: the
    prize is never sent, the award is not announced, and the fees stay
    debited. *)
Theorem winner_announced_but_not_paid (cars_df : list car) (w w' : world)
        (r : exn + unit) :
  (2 <= List.length cars_df)%nat ->
  (forall k, (k < List.length (teams_in_race cars_df))%nat ->
             connections w k = true) ->
  connections w (List.length (teams_in_race cars_df)) = false ->
  start_race sort_values cars_df w = (w', r) ->
  r <> inl ZeroDivisionError ->
  r = inl StopException /\
  exists t rows winner rest,
    trace w' = (trace w ++ t)%list /\
    simulated (entropy w) cars_df rows /\
    sort_values rows = winner :: rest /\
    In (StDataframe (reset_index (winner :: rest))) t /\
    In (StSuccess (Winner (Driver winner) (Team winner))) t /\
    commands_of t = map (BudgetMinus FEE) (teams_in_race cars_df) /\
    ~ In (StSuccess (Awarded (PRIZE cars_df) (Team winner))) t /\
    ((forall k, (k < List.length (teams_in_race cars_df))%nat -> replies w k = true) ->
     TEAMS w' = map (debit (teams_in_race cars_df)) (TEAMS w)).
Proof.
  intros Hlen Hconn Hlost Hstart Hr.
  destruct (deduct_fees_run (teams_in_race cars_df) (announced cars_df w))
    as (w1 & fees & sent & Htr & Hfee & Hcmd & Hent1 & Hres).
  cbn [trace entropy announced] in Htr, Hent1.
  destruct Hres as [(more & _ & Hsent & Hmore & Hc)
                   |(Hrun & -> & Hconn1 & _ & Hteams)].
  { exfalso. cbn [connections announced] in Hc.
    rewrite Hconn in Hc; [discriminate Hc|].
    rewrite Hsent. now apply prefix_shorter. }
  cbn [TEAMS connections replies announced] in Hconn1, Hteams.
  rewrite (after_the_fees sort_values cars_df w w1 Hlen Hrun) in Hstart.
  unfold bind in Hstart.
  destruct (simulate cars_df [] (fees_collected w1)) as [w2 [e|rows0]] eqn:Hsim.
  { exfalso. injection Hstart as _ <-. apply Hr. f_equal.
    exact (simulate_only_zero_division _ _ _ _ _ Hsim). }
  destruct (simulate_exact _ _ _ _ _ Hsim)
    as (rows & Hrows & Hsimd & Htr2 & _ & Hteams2 & Hconn2 & _).
  rewrite Hrows in Hstart. cbn [app] in Hstart. clear rows0 Hrows Hsim.
  cbn [trace entropy TEAMS connections fees_collected]
    in Hsimd, Htr2, Hteams2, Hconn2.
  assert (Hne : rows <> []).
  { intros ->. apply simulated_length in Hsimd. cbn in Hsimd. lia. }
  destruct (sort_values_nonempty sort_values sort_values_permutation rows Hne)
    as (winner & rest & E).
  destruct (award_run sort_values cars_df rows rest winner w2 E)
    as (w3 & Haward & Htr3 & Hteams3).
  rewrite Hconn2, Hconn1 in Haward, Htr3, Hteams3.
  cbn [Nat.add] in Haward, Htr3, Hteams3.
  rewrite Hlost in Haward, Htr3, Hteams3. cbn [andb] in Hteams3.
  rewrite Haward in Hstart. injection Hstart as <- <-.
  split; [reflexivity|].
  exists ([StInfo RaceIsOn; StWrite (RaceDetails FEE (PRIZE cars_df))]
            ++ fees ++ [StSuccess FeesCollected] ++ simulation_trace cars_df
            ++ award_trace cars_df (winner :: rest) winner false
                 (replies w2 0%nat))%list.
  exists rows, winner, rest.
  split; [rewrite Htr3, Htr2, Htr, <- !app_assoc; reflexivity|].
  split; [now rewrite <- Hent1|]. split; [exact E|].
  split. { rewrite !in_app_iff. do 4 right. cbn. auto. }
  split. { rewrite !in_app_iff. do 4 right. cbn. auto 6. }
  split.
  { rewrite !commands_of_app, Hcmd, commands_of_simulation_trace,
      commands_of_award_trace. cbn. now rewrite app_nil_r. }
  split.
  { rewrite !in_app_iff. intros [H|[H|[H|[H|H]]]].
    - cbn in H. intuition discriminate.
    - rewrite forallb_forall in Hfee. apply Hfee in H. discriminate H.
    - cbn in H. intuition discriminate.
    - unfold simulation_trace in H. apply in_flat_map in H.
      destruct H as (c & _ & Hc). cbn in Hc. intuition discriminate.
    - cbn in H. intuition discriminate. }
  intros Hok. rewrite Hteams3, Hteams2, (Hteams Hok).
  apply debit_all_once, unique_NoDup.
Qed.

End MoreRaces.

(** ** The further theorems at work *)

Definition seasoned : car :=
  {| CAR_ID := 7; TEAM_NAME := "A"; MODEL := "Quattro"; CATEGORY_NAME := "Group B";
     HORSEPOWER := 200; DRIVETRAIN := "4WD"; MIN_WEIGHT_KG := 1000;
     DRIVER_NAME := "Flo"; SKILL_LEVEL := 80; LUCK_LEVEL := 50 |}.

Lemma refused_commands_skip_their_team_witness :
  exists rows winner rest t,
    simulated (entropy paddock) grid rows /\
    stable_sort rows = winner :: rest /\
    trace after_the_race = (trace paddock ++ t)%list /\
    TEAMS after_the_race =
      map (settle (teams_in_race grid) (replies paddock)
                  (PRIZE grid) (Team winner)) (TEAMS paddock) /\
    (forall name,
        fee_accepted (teams_in_race grid) (replies paddock) name = true <->
        exists k, nth_error (teams_in_race grid) k = Some name /\
                  replies paddock k = true) /\
    In (StSuccess (Awarded (PRIZE grid) (Team winner))) t /\
    In Rerun t /\
    (replies paddock (List.length (teams_in_race grid)) = false ->
     In (StError CommandFailed) t).
Proof.
  apply (refused_commands_skip_their_team stable_sort stable_sort_permutation
           grid paddock after_the_race).
  - cbn. lia.
  - vm_compute. reflexivity.
Defined.

(** Team B's debit is refused, and so is the credit of the prize: team A
    pays its fee and is told it was awarded 1600, which it never gets. *)
Example refused_debit_and_refused_credit :
  let stubborn := {| TEAMS := TEAMS paddock; entropy := entropy paddock;
                     connections := connections paddock;
                     replies := fun k => Nat.eqb k 0; trace := [] |} in
  exists w',
    start_race stable_sort grid stubborn = (w', inr tt) /\
    map (fun t => (team_name t, Qred (budget t))) (TEAMS w') =
      [("A", 49000); ("B", 50000); ("C", 50000)] /\
    In (StSuccess (Awarded (PRIZE grid) "A")) (trace w').
Proof.
  eexists. split; [vm_compute; reflexivity|].
  split; [vm_compute; reflexivity|]. vm_compute. auto 30.
Qed.

Lemma completed_race_step_by_step_witness :
  exists fees ranked winner,
    forallb is_fee_event fees = true /\
    Permutation (map entrant_of_row ranked) (map entrant_of_car grid) /\
    hd_error ranked = Some winner /\
    trace after_the_race =
      (trace paddock ++ [StInfo RaceIsOn; StWrite (RaceDetails FEE (PRIZE grid))]
         ++ fees ++ [StSuccess FeesCollected]
         ++ flat_map (fun c => [RandomUniform (1 - LUCK_LEVEL c / 1000)
                                              (1 + LUCK_LEVEL c / 1000); Sleep])
                     grid
         ++ [StSubheader RaceResultsHeader; StDataframe (reset_index ranked);
             StBalloons; StSuccess (Winner (Driver winner) (Team winner));
             Execute (BudgetPlus (PRIZE grid) (Team winner))]
         ++ (if replies paddock (List.length (teams_in_race grid))
             then [] else [StError CommandFailed])
         ++ [StSuccess (Awarded (PRIZE grid) (Team winner)); CacheClear;
             Rerun])%list.
Proof.
  apply (completed_race_step_by_step stable_sort stable_sort_permutation
           grid paddock after_the_race).
  - cbn. lia.
  - vm_compute. reflexivity.
Defined.

Lemma completed_race_costs_a_fifth_of_the_fees_witness :
  total_budget (TEAMS after_the_race) ==
  total_budget (TEAMS paddock)
  - 0.2 * 1000 * inject_Z (Z.of_nat (List.length (teams_in_race grid))).
Proof.
  apply (completed_race_costs_a_fifth_of_the_fees
           stable_sort stable_sort_permutation grid paddock after_the_race).
  - cbn. lia.
  - vm_compute. reflexivity.
  - reflexivity.
  - repeat constructor; cbn; intuition discriminate.
  - intros name [<-|[<-|[]]]; cbn; auto.
Defined.

Lemma racing_alone_costs_200_witness :
  PRIZE [quattro; seasoned] == 800 /\
  - FEE + PRIZE [quattro; seasoned] == - (200) /\
  TEAMS (fst (start_race stable_sort [quattro; seasoned] paddock)) =
  map (fun t => if String.eqb (team_name t) "A"
                then {| team_name := team_name t;
                        budget := budget t - FEE + PRIZE [quattro; seasoned] |}
                else t) (TEAMS paddock).
Proof.
  apply (racing_alone_costs_200 stable_sort stable_sort_permutation
           [quattro; seasoned] paddock
           (fst (start_race stable_sort [quattro; seasoned] paddock)) "A").
  - cbn. lia.
  - intros c [<-|[<-|[]]]; reflexivity.
  - vm_compute. reflexivity.
  - reflexivity.
  - reflexivity.
Defined.

Lemma winner_announced_but_not_paid_witness :
  let cut_off := {| TEAMS := TEAMS paddock; entropy := entropy paddock;
                    connections := fun k => Nat.ltb k 2;
                    replies := replies paddock; trace := [] |} in
  let run := start_race stable_sort grid cut_off in
  snd run = inl StopException /\
  exists t rows winner rest,
    trace (fst run) = (trace cut_off ++ t)%list /\
    simulated (entropy cut_off) grid rows /\
    stable_sort rows = winner :: rest /\
    In (StDataframe (reset_index (winner :: rest))) t /\
    In (StSuccess (Winner (Driver winner) (Team winner))) t /\
    commands_of t = map (BudgetMinus FEE) (teams_in_race grid) /\
    ~ In (StSuccess (Awarded (PRIZE grid) (Team winner))) t /\
    ((forall k, (k < List.length (teams_in_race grid))%nat ->
                replies cut_off k = true) ->
     TEAMS (fst run) = map (debit (teams_in_race grid)) (TEAMS cut_off)).
Proof.
  intros cut_off run.
  apply (winner_announced_but_not_paid stable_sort stable_sort_permutation
           grid cut_off (fst run) (snd run)).
  - cbn. lia.
  - intros k Hk. cbn in Hk.
    destruct k as [|[|k]]; [reflexivity | reflexivity | lia].
  - reflexivity.
  - apply surjective_pairing.
  - vm_compute. discriminate.
Defined.

(** * The ranking and the random source *)

Lemma simulated_same_source (ent1 ent2 : nat -> Q) (cars : list car)
      (rows1 rows2 : list race_result) :
  (forall n, ent1 n = ent2 n) ->
  simulated ent1 cars rows1 -> simulated ent2 cars rows2 -> rows1 = rows2.
Proof.
  revert ent1 ent2 rows1 rows2.
  induction cars as [|c cars IH]; intros ent1 ent2 [|r1 rows1] [|r2 rows2] Hent;
    cbn; try tauto.
  intros [(t1 & Ht1 & ->) H1] [(t2 & Ht2 & ->) H2].
  rewrite (Hent 0%nat) in Ht1. rewrite Ht1 in Ht2. injection Ht2 as <-.
  f_equal. apply (IH (fun n => ent1 (S n)) (fun n => ent2 (S n))); auto.
Qed.

Section SameSource.

Variable sort_values : list race_result -> list race_result.
Hypothesis sort_values_permutation :
  forall rows, Permutation rows (sort_values rows).

(** X14. The ranking depends on the cars and on the random source only:
    two completed races of the same cars, from worlds whose random sources
    give the same values, show the same table, whatever the budgets, the
    answers of the database and what was done before. *)
Theorem same_source_same_ranking (cars_df : list car) (w1 w2 w1' w2' : world) :
  (2 <= List.length cars_df)%nat ->
  (forall n, entropy w1 n = entropy w2 n) ->
  start_race sort_values cars_df w1 = (w1', inr tt) ->
  start_race sort_values cars_df w2 = (w2', inr tt) ->
  exists t1 t2 table,
    trace w1' = (trace w1 ++ t1)%list /\
    trace w2' = (trace w2 ++ t2)%list /\
    dataframes_of t1 = [table] /\ dataframes_of t2 = [table].
Proof.
  intros Hlen Hent H1 H2.
  destruct (completed_race_exact sort_values sort_values_permutation
              cars_df w1 w1' Hlen H1)
    as (fees1 & rows1 & winner1 & rest1 & Hfee1 & _ & Hsim1 & E1 & _ & Htr1 & _).
  destruct (completed_race_exact sort_values sort_values_permutation
              cars_df w2 w2' Hlen H2)
    as (fees2 & rows2 & winner2 & rest2 & Hfee2 & _ & Hsim2 & E2 & _ & Htr2 & _).
  pose proof (simulated_same_source _ _ _ _ _ Hent Hsim1 Hsim2) as Hrows.
  subst rows2. rewrite E1 in E2. injection E2 as <- <-.
  do 2 eexists. exists (reset_index (winner1 :: rest1)).
  split; [exact Htr1|]. split; [exact Htr2|].
  split.
  - rewrite !dataframes_of_app, (fee_events_no_dataframe fees1 Hfee1),
      dataframes_of_simulation_trace, dataframes_of_award_trace. reflexivity.
  - rewrite !dataframes_of_app, (fee_events_no_dataframe fees2 Hfee2),
      dataframes_of_simulation_trace, dataframes_of_award_trace. reflexivity.
Qed.

End SameSource.

Lemma same_source_same_ranking_witness :
  let poorer := {| TEAMS := [ {| team_name := "A"; budget := 10 |} ];
                   entropy := entropy paddock;
                   connections := connections paddock;
                   replies := fun _ => false;
                   trace := [StBalloons] |} in
  exists t1 t2 table,
    trace after_the_race = (trace paddock ++ t1)%list /\
    trace (fst (start_race stable_sort grid poorer)) = (trace poorer ++ t2)%list /\
    dataframes_of t1 = [table] /\ dataframes_of t2 = [table].
Proof.
  intros poorer.
  apply (same_source_same_ranking stable_sort stable_sort_permutation grid
           paddock poorer after_the_race
           (fst (start_race stable_sort grid poorer))).
  - cbn. lia.
  - reflexivity.
  - vm_compute. reflexivity.
  - vm_compute. reflexivity.
Defined.

(** * The drivers offered for a new car (line 122) *)

Module Drivers.

(** A row of [drivers_df]. *)
Record row : Type := {
  DRIVER_ID : Z;
  DRIVER_NAME : string;
  SKILL_LEVEL : Q;
  LUCK_LEVEL : Q;
  TEAM_NAME : string
}.

End Drivers.

(** A Python dict from strings to driver ids: the items in order of
    insertion. *)
Definition dict : Type := list (string * Z).

(** [d[k] = v]: the value of an existing key is replaced where it stands, a
    new key goes to the end. *)
Fixpoint dict_set (d : dict) (k : string) (v : Z) : dict :=
  match d with
  | [] => [(k, v)]
  | (k', v') :: d' =>
      if String.eqb k' k then (k, v) :: d' else (k', v') :: dict_set d' k v
  end.

(** [d[k]]. *)
Fixpoint dict_get (d : dict) (k : string) : exn + Z :=
  match d with
  | [] => inl KeyError
  | (k', v') :: d' => if String.eqb k' k then inr v' else dict_get d' k
  end.

(** [d.keys()]. *)
Definition dict_keys (d : dict) : list string := map fst d.

(** f"{row.DRIVER_NAME} ({row.TEAM_NAME})" *)
Definition driver_label (r : Drivers.row) : string :=
  Drivers.DRIVER_NAME r ++ " (" ++ Drivers.TEAM_NAME r ++ ")".

(** The dict comprehension of line 122. *)
Definition driver_options (drivers_df : list Drivers.row) : dict :=
  fold_left (fun d r => dict_set d (driver_label r) (Drivers.DRIVER_ID r))
            drivers_df [].

Lemma dict_keys_set (d : dict) (k : string) (v : Z) :
  dict_keys (dict_set d k v) =
  if existsb (String.eqb k) (dict_keys d)
  then dict_keys d else (dict_keys d ++ [k])%list.
Proof.
  unfold dict_keys. induction d as [|[k' v'] d IH]; cbn; [reflexivity|].
  rewrite (String.eqb_sym k k').
  destruct (String.eqb_spec k' k) as [->|Hne]; cbn; [reflexivity|].
  rewrite IH. now destruct (existsb (String.eqb k) (map fst d)).
Qed.

Lemma dict_get_set (d : dict) (k k' : string) (v : Z) :
  dict_get (dict_set d k v) k' =
  if String.eqb k k' then inr v else dict_get d k'.
Proof.
  induction d as [|[k0 v0] d IH]; cbn; [reflexivity|].
  destruct (String.eqb_spec k0 k) as [->|Hne]; cbn.
  - now destruct (String.eqb k k').
  - rewrite IH. destruct (String.eqb_spec k k') as [->|Hne'].
    + apply String.eqb_neq in Hne. now rewrite Hne.
    + reflexivity.
Qed.

Lemma filter_twice {A} (f g : A -> bool) (l : list A) :
  filter f (filter g l) = filter (fun x => g x && f x) l.
Proof.
  induction l as [|x l IH]; cbn; [reflexivity|].
  destruct (g x); cbn; [destruct (f x)|]; now rewrite IH.
Qed.

Definition unseen (seen : list string) (k : string) : bool :=
  negb (existsb (String.eqb k) seen).

Lemma driver_options_from (drivers_df : list Drivers.row) (d : dict) :
  dict_keys (fold_left (fun d r => dict_set d (driver_label r) (Drivers.DRIVER_ID r))
                       drivers_df d) =
  (dict_keys d
     ++ filter (unseen (dict_keys d)) (unique (map driver_label drivers_df)))%list.
Proof.
  revert d. induction drivers_df as [|r df IH]; intros d; cbn [fold_left map unique].
  - cbn. now rewrite app_nil_r.
  - rewrite IH, dict_keys_set. cbn [filter]. unfold unseen at 2.
    destruct (existsb (String.eqb (driver_label r)) (dict_keys d)) eqn:E; cbn [negb].
    + f_equal. rewrite filter_twice. apply filter_ext_in. intros k _.
      unfold unseen.
      destruct (String.eqb_spec (driver_label r) k) as [<-|Hne]; cbn;
        [now rewrite E | reflexivity].
    + rewrite <- app_assoc. cbn [app]. do 2 f_equal.
      rewrite filter_twice. apply filter_ext. intros k. unfold unseen.
      rewrite existsb_app. cbn. rewrite orb_false_r, negb_orb.
      rewrite (String.eqb_sym k). apply andb_comm.
Qed.

Lemma driver_options_keys (drivers_df : list Drivers.row) :
  dict_keys (driver_options drivers_df) = unique (map driver_label drivers_df).
Proof.
  unfold driver_options. rewrite driver_options_from. cbn.
  induction (unique (map driver_label drivers_df)) as [|k l IH];
    cbn; [reflexivity | now rewrite IH].
Qed.

Lemma driver_options_get (drivers_df : list Drivers.row) (label : string) :
  dict_get (driver_options drivers_df) label =
  match find (fun r => String.eqb (driver_label r) label) (rev drivers_df) with
  | Some r => inr (Drivers.DRIVER_ID r)
  | None => inl KeyError
  end.
Proof.
  unfold driver_options. rewrite <- fold_left_rev_right.
  induction (rev drivers_df) as [|r l IH]; cbn; [reflexivity|].
  rewrite dict_get_set, IH.
  now destruct (String.eqb (driver_label r) label).
Qed.

Lemma find_skips {A} (f : A -> bool) (l1 l2 : list A) :
  (forall x, In x l1 -> f x = false) -> find f (l1 ++ l2) = find f l2.
Proof.
  induction l1 as [|x l1 IH]; intros H; cbn; [reflexivity|].
  rewrite (H x (or_introl eq_refl)). apply IH. intros y Hy. apply H. now right.
Qed.

(** X15. The drivers offered for a new car: each label
    "name (team)" borne by a driver is offered once, in the order of its
    first driver in [drivers_df], and nothing else is offered; there are
    fewer options than drivers as soon as two drivers share a label. *)
Theorem driver_options_offers_each_label_once (drivers_df : list Drivers.row) :
  dict_keys (driver_options drivers_df) = unique (map driver_label drivers_df) /\
  NoDup (dict_keys (driver_options drivers_df)) /\
  (forall label, In label (dict_keys (driver_options drivers_df)) <->
                 exists r, In r drivers_df /\ driver_label r = label) /\
  (List.length (dict_keys (driver_options drivers_df))
     <= List.length drivers_df)%nat /\
  (List.length (dict_keys (driver_options drivers_df))
     = List.length drivers_df <->
   NoDup (map driver_label drivers_df)).
Proof.
  rewrite driver_options_keys.
  split; [reflexivity|]. split; [apply unique_NoDup|]. split.
  { intros label. rewrite unique_In, in_map_iff.
    split; intros (r & H1 & H2); exists r; tauto. }
  assert (Hle : forall l, (List.length (unique l) <= List.length l)%nat).
  { intros l. induction l as [|x l IH]; cbn; [lia|].
    pose proof (filter_length_le (fun y => negb (String.eqb x y)) (unique l)).
    lia. }
  split; [rewrite <- (length_map driver_label drivers_df); apply Hle|].
  rewrite <- (length_map driver_label drivers_df).
  generalize (map driver_label drivers_df). intros l. split.
  - intros Hlen. apply NoDup_incl_NoDup with (l := unique l).
    + apply unique_NoDup.
    + lia.
    + intros x Hx. now apply unique_In.
  - intros Hnd. apply Nat.le_antisymm; [apply Hle|].
    apply NoDup_incl_length; [exact Hnd|].
    intros x Hx. now apply unique_In.
Qed.

(** X16. Choosing a driver for a new car: the id behind a label is that of
    the last driver of [drivers_df] with this label; for a label that is
    offered the lookup of line 131 never raises KeyError; and a driver is
    the one chosen by their own label whenever no driver after them has
    the same label. *)
Theorem driver_options_picks_the_last_driver (drivers_df : list Drivers.row) :
  (forall label,
      dict_get (driver_options drivers_df) label =
      match find (fun r => String.eqb (driver_label r) label) (rev drivers_df) with
      | Some r => inr (Drivers.DRIVER_ID r)
      | None => inl KeyError
      end) /\
  (forall label,
      In label (dict_keys (driver_options drivers_df)) ->
      exists r, In r drivers_df /\ driver_label r = label /\
                dict_get (driver_options drivers_df) label =
                inr (Drivers.DRIVER_ID r)) /\
  (forall before r after,
      drivers_df = (before ++ r :: after)%list ->
      (forall r', In r' after -> driver_label r' <> driver_label r) ->
      dict_get (driver_options drivers_df) (driver_label r) =
      inr (Drivers.DRIVER_ID r)).
Proof.
  split; [apply driver_options_get|]. split.
  - intros label Hin. rewrite driver_options_keys, unique_In, in_map_iff in Hin.
    destruct Hin as (r0 & Hl & Hr0). rewrite driver_options_get.
    destruct (find _ (rev drivers_df)) as [r|] eqn:E.
    + apply find_some in E. destruct E as [Hr Hlab].
      exists r. split; [now apply in_rev|].
      split; [now apply String.eqb_eq | reflexivity].
    + exfalso. apply in_rev in Hr0.
      pose proof (find_none _ _ E r0 Hr0) as Hno. cbn in Hno.
      rewrite Hl, String.eqb_refl in Hno. discriminate Hno.
  - intros before r after -> Hafter. rewrite driver_options_get.
    rewrite rev_app_distr. cbn [rev]. rewrite <- app_assoc. cbn [app].
    rewrite find_skips.
    + cbn. now rewrite String.eqb_refl.
    + intros r' Hr'. apply in_rev in Hr'. apply String.eqb_neq.
      now apply Hafter.
Qed.

(** Two drivers of the same name in the same team: the first cannot be
    chosen.  And labels can collide across teams when names hold
    parentheses. *)
Example shadowed_driver :
  let ann1 := {| Drivers.DRIVER_ID := 1; Drivers.DRIVER_NAME := "Ann";
                 Drivers.SKILL_LEVEL := 90; Drivers.LUCK_LEVEL := 50;
                 Drivers.TEAM_NAME := "A" |} in
  let ann2 := {| Drivers.DRIVER_ID := 2; Drivers.DRIVER_NAME := "Ann";
                 Drivers.SKILL_LEVEL := 10; Drivers.LUCK_LEVEL := 50;
                 Drivers.TEAM_NAME := "A" |} in
  let odd1 := {| Drivers.DRIVER_ID := 3; Drivers.DRIVER_NAME := "Bo (B";
                 Drivers.SKILL_LEVEL := 50; Drivers.LUCK_LEVEL := 50;
                 Drivers.TEAM_NAME := "C" |} in
  let odd2 := {| Drivers.DRIVER_ID := 4; Drivers.DRIVER_NAME := "Bo";
                 Drivers.SKILL_LEVEL := 50; Drivers.LUCK_LEVEL := 50;
                 Drivers.TEAM_NAME := "B (C" |} in
  driver_options [ann1; odd1; ann2; odd2] = [("Ann (A)", 2%Z); ("Bo (B (C)", 4%Z)].
Proof. reflexivity. Qed.

(** * The entrants: the query of [get_data] (lines 57-66)

    The three tables and the rows of their inner join.  The two columns of
    CARS that the join compares may hold NULL, which equals nothing; the
    columns that reach the handler are those of [car].  SQL leaves the order
    of the rows open: what is proved of the join does not depend on it. *)

Module Cars.

(** A row of BOOTCAMP_RALLY.CARS_DATA.CARS. *)
Record row : Type := {
  CAR_ID : Z;
  TEAM_NAME : string;
  MODEL : string;
  CATEGORY_NAME : option string;
  DRIVER_ID : option Z
}.

End Cars.

Module Categories.

(** A row of BOOTCAMP_RALLY.CARS_DATA.CAR_CATEGORIES. *)
Record row : Type := {
  CATEGORY_NAME : string;
  HORSEPOWER : Q;
  DRIVETRAIN : string;
  MIN_WEIGHT_KG : Q
}.

End Categories.

(** The SELECT list of the query; [name] is c.CATEGORY_NAME. *)
Definition joined (c : Cars.row) (name : string) (cat : Categories.row)
           (d : Drivers.row) : car :=
  {| CAR_ID := Cars.CAR_ID c; TEAM_NAME := Cars.TEAM_NAME c;
     MODEL := Cars.MODEL c; CATEGORY_NAME := name;
     HORSEPOWER := Categories.HORSEPOWER cat;
     DRIVETRAIN := Categories.DRIVETRAIN cat;
     MIN_WEIGHT_KG := Categories.MIN_WEIGHT_KG cat;
     DRIVER_NAME := Drivers.DRIVER_NAME d;
     SKILL_LEVEL := Drivers.SKILL_LEVEL d;
     LUCK_LEVEL := Drivers.LUCK_LEVEL d |}.

(** JOIN DRIVERS d ON c.DRIVER_ID = d.DRIVER_ID, for one row of the first
    join. *)
Definition join_drivers (c : Cars.row) (name : string) (cat : Categories.row)
           (drivers : list Drivers.row) : list car :=
  match Cars.DRIVER_ID c with
  | Some id =>
      flat_map (fun d => if Z.eqb id (Drivers.DRIVER_ID d)
                         then [joined c name cat d] else []) drivers
  | None => []
  end.

(** CARS c JOIN CAR_CATEGORIES cat ON c.CATEGORY_NAME = cat.CATEGORY_NAME
    JOIN DRIVERS d ON c.DRIVER_ID = d.DRIVER_ID. *)
Definition cars_query (cars : list Cars.row) (categories : list Categories.row)
           (drivers : list Drivers.row) : list car :=
  flat_map (fun c =>
    match Cars.CATEGORY_NAME c with
    | Some name =>
        flat_map (fun cat =>
          if String.eqb name (Categories.CATEGORY_NAME cat)
          then join_drivers c name cat drivers else []) categories
    | None => []
    end) cars.

(** The row of a car whose category and driver are looked up, each the
    first of its key. *)
Definition entrant (categories : list Categories.row) (drivers : list Drivers.row)
           (c : Cars.row) : list car :=
  match Cars.CATEGORY_NAME c, Cars.DRIVER_ID c with
  | Some name, Some id =>
      match find (fun cat => String.eqb name (Categories.CATEGORY_NAME cat)) categories,
            find (fun d => Z.eqb id (Drivers.DRIVER_ID d)) drivers with
      | Some cat, Some d => [joined c name cat d]
      | _, _ => []
      end
  | _, _ => []
  end.

Lemma join_drivers_In (c : Cars.row) (name : string) (cat : Categories.row)
      (drivers : list Drivers.row) (e : car) :
  In e (join_drivers c name cat drivers) <->
  exists d, In d drivers /\ Cars.DRIVER_ID c = Some (Drivers.DRIVER_ID d) /\
            e = joined c name cat d.
Proof.
  unfold join_drivers. destruct (Cars.DRIVER_ID c) as [id|].
  - rewrite in_flat_map. split.
    + intros (d & Hd & H).
      destruct (Z.eqb_spec id (Drivers.DRIVER_ID d)) as [->|]; [|contradiction].
      destruct H as [<-|[]]. exists d. auto.
    + intros (d & Hd & [= ->] & ->). exists d. split; [exact Hd|].
      rewrite Z.eqb_refl. now left.
  - split; [intros []|]. intros (d & _ & H & _). discriminate.
Qed.

Lemma cars_query_In (cars : list Cars.row) (categories : list Categories.row)
      (drivers : list Drivers.row) (e : car) :
  In e (cars_query cars categories drivers) <->
  exists c cat d,
    In c cars /\ In cat categories /\ In d drivers /\
    Cars.CATEGORY_NAME c = Some (Categories.CATEGORY_NAME cat) /\
    Cars.DRIVER_ID c = Some (Drivers.DRIVER_ID d) /\
    e = joined c (Categories.CATEGORY_NAME cat) cat d.
Proof.
  unfold cars_query. rewrite in_flat_map. split.
  - intros (c & Hc & H). destruct (Cars.CATEGORY_NAME c) as [name|] eqn:Ename;
      [|contradiction].
    apply in_flat_map in H. destruct H as (cat & Hcat & H).
    destruct (String.eqb_spec name (Categories.CATEGORY_NAME cat)) as [->|];
      [|contradiction].
    apply join_drivers_In in H. destruct H as (d & Hd & Ed & ->).
    exists c, cat, d. repeat split; assumption.
  - intros (c & cat & d & Hc & Hcat & Hd & Ecat & Ed & ->).
    exists c. split; [exact Hc|]. rewrite Ecat. apply in_flat_map. exists cat.
    split; [exact Hcat|]. rewrite String.eqb_refl.
    apply join_drivers_In. exists d. auto.
Qed.

Lemma flat_map_none {A B : Type} (p : A -> bool) (g : A -> list B) (l : list A) :
  (forall x, In x l -> p x = false) ->
  flat_map (fun x => if p x then g x else []) l = [].
Proof.
  induction l as [|a l IH]; intros H; [reflexivity|].
  cbn [flat_map]. rewrite (H a (or_introl eq_refl)). cbn [app].
  apply IH. intros x Hx. apply H. now right.
Qed.

(** Over rows of distinct keys a join on one key finds one row at most. *)
Lemma flat_map_unique_key {A B K : Type} (key : A -> K) (p : K -> bool)
      (g : A -> list B) (l : list A) :
  (forall k k', p k = true -> p k' = true -> k = k') ->
  NoDup (map key l) ->
  flat_map (fun x => if p (key x) then g x else []) l =
  match find (fun x => p (key x)) l with Some x => g x | None => [] end.
Proof.
  intros Hp. induction l as [|a l IH]; intros Hnd; [reflexivity|].
  cbn [map] in Hnd. apply NoDup_cons_iff in Hnd. destruct Hnd as [Ha Hnd].
  cbn [flat_map find]. destruct (p (key a)) eqn:Epa.
  - assert (E : flat_map (fun x => if p (key x) then g x else []) l = []).
    { apply (flat_map_none (fun x => p (key x))). intros x Hx.
      destruct (p (key x)) eqn:Epx; [|reflexivity].
      exfalso. apply Ha. rewrite (Hp _ _ Epa Epx). now apply in_map. }
    now rewrite E, app_nil_r.
  - now apply IH.
Qed.

Lemma cars_query_cons (c : Cars.row) (cars : list Cars.row)
      (categories : list Categories.row) (drivers : list Drivers.row) :
  cars_query (c :: cars) categories drivers =
  (cars_query [c] categories drivers ++ cars_query cars categories drivers)%list.
Proof. unfold cars_query. cbn [flat_map]. now rewrite app_nil_r. Qed.

Lemma entrant_length (categories : list Categories.row)
      (drivers : list Drivers.row) (cars : list Cars.row) :
  (List.length (flat_map (entrant categories drivers) cars) <= List.length cars)%nat.
Proof.
  induction cars as [|c cars IH]; [apply Nat.le_refl|].
  cbn [flat_map]. rewrite length_app. cbn [List.length].
  assert (List.length (entrant categories drivers c) <= 1)%nat; [|lia].
  unfold entrant.
  destruct (Cars.CATEGORY_NAME c), (Cars.DRIVER_ID c); cbn; try lia.
  repeat match goal with |- context [find ?f ?l] => destruct (find f l) end;
    cbn; lia.
Qed.

Lemma cars_query_lookup (cars : list Cars.row) (categories : list Categories.row)
      (drivers : list Drivers.row) :
  NoDup (map Categories.CATEGORY_NAME categories) ->
  NoDup (map Drivers.DRIVER_ID drivers) ->
  cars_query cars categories drivers = flat_map (entrant categories drivers) cars.
Proof.
  intros Hcat Hd. induction cars as [|c cars IH]; [reflexivity|].
  rewrite cars_query_cons, IH. cbn [flat_map]. f_equal.
  unfold cars_query, entrant. cbn [flat_map]. rewrite app_nil_r.
  destruct (Cars.CATEGORY_NAME c) as [name|] eqn:Ename; [|reflexivity].
  rewrite (flat_map_unique_key Categories.CATEGORY_NAME (String.eqb name)
             (fun cat => join_drivers c name cat drivers) categories); trivial.
  2:{ intros k k' Hk Hk'. apply String.eqb_eq in Hk, Hk'. congruence. }
  unfold join_drivers.
  destruct (Cars.DRIVER_ID c) as [id|] eqn:Eid.
  - destruct (find _ categories) as [cat|]; [|reflexivity].
    rewrite (flat_map_unique_key Drivers.DRIVER_ID (Z.eqb id)
               (fun d => [joined c name cat d]) drivers); trivial.
    intros k k' Hk Hk'. apply Z.eqb_eq in Hk, Hk'. congruence.
  - now destruct (find _ categories).
Qed.

(** X17. When no two categories share a name and no two drivers an id, the
    entrants are the cars whose category and driver are on file, each once
    and with the figures of its own category and driver; a car whose
    category or driver is missing (or NULL) does not enter, and there are no
    more entrants than cars. *)
Theorem entrants_are_the_cars_on_file (cars : list Cars.row)
        (categories : list Categories.row) (drivers : list Drivers.row) :
  NoDup (map Categories.CATEGORY_NAME categories) ->
  NoDup (map Drivers.DRIVER_ID drivers) ->
  Permutation (cars_query cars categories drivers)
              (flat_map (entrant categories drivers) cars) /\
  (List.length (cars_query cars categories drivers) <= List.length cars)%nat.
Proof.
  intros Hcat Hd. rewrite (cars_query_lookup cars categories drivers Hcat Hd).
  split; [apply Permutation_refl | apply entrant_length].
Qed.

Section WhoPays.

Variable sort_values : list race_result -> list race_result.
Hypothesis sort_values_permutation :
  forall rows, Permutation rows (sort_values rows).

(** X18. When the race is started on the rows of the query, in any order,
    and the connection opens for each fee, the fee is charged to a team if
    and only if a car registered under that team has its category and its
    driver on file: the team of the car's own row counts, not the team of
    its driver, and a team whose cars all lack a category or a driver is not
    charged. *)
Theorem fee_charged_to_teams_of_cars_on_file (cars : list Cars.row)
        (categories : list Categories.row) (drivers : list Drivers.row)
        (cars_df : list car) (w : world) :
  Permutation (cars_query cars categories drivers) cars_df ->
  (2 <= List.length cars_df)%nat ->
  (forall k, (k < List.length (teams_in_race cars_df))%nat ->
             connections w k = true) ->
  exists w' r t,
    start_race sort_values cars_df w = (w', r) /\
    trace w' = (trace w ++ t)%list /\
    forall name,
      In (BudgetMinus FEE name) (commands_of t) <->
      exists c cat d,
        In c cars /\ In cat categories /\ In d drivers /\
        Cars.CATEGORY_NAME c = Some (Categories.CATEGORY_NAME cat) /\
        Cars.DRIVER_ID c = Some (Drivers.DRIVER_ID d) /\
        Cars.TEAM_NAME c = name.
Proof.
  intros Hperm Hlen Hconn.
  destruct (start_race_trace sort_values sort_values_permutation cars_df w Hlen)
    as (w' & r & fees & sent & rest & Hrun & Htr & _ & Hcmd & Hrest).
  cbv zeta in Hrest.
  exists w', r, ([StInfo RaceIsOn; StWrite (RaceDetails FEE (PRIZE cars_df))]
                   ++ fees ++ rest)%list.
  split; [exact Hrun|]. split; [exact Htr|].
  assert (Hcmds : exists credited,
             commands_of ([StInfo RaceIsOn; StWrite (RaceDetails FEE (PRIZE cars_df))]
                            ++ fees ++ rest)
             = (map (BudgetMinus FEE) (teams_in_race cars_df) ++ credited)%list /\
             forall name, ~ In (BudgetMinus FEE name) credited).
  { rewrite !commands_of_app, Hcmd. cbn [commands_of app].
    change (commands_of [StInfo RaceIsOn; StWrite (RaceDetails FEE (PRIZE cars_df))])
      with (@nil command). cbn [app].
    destruct Hrest as [(more & _ & _ & Hsent & Hmore & Hlost)
                      |(-> & sim & Hsim & _ & Hrest)].
    - exfalso. rewrite Hconn in Hlost; [discriminate|].
      rewrite Hsent, length_app. destruct more; [congruence|]. cbn. lia.
    - destruct Hrest as [(e & _ & -> & _)
                        |(rows & winner & rest' & _ & _ & _ & -> & _)].
      + exists []. rewrite commands_of_app, Hsim. cbn. split; [reflexivity|].
        intros name [].
      + exists (if connections w (List.length (teams_in_race cars_df))
                then [BudgetPlus (PRIZE cars_df) (Team winner)] else []).
        rewrite !commands_of_app, Hsim, commands_of_award_trace.
        split; [reflexivity|].
        intros name. destruct (connections w _); [|intros []].
        intros [H|[]]. discriminate. }
  destruct Hcmds as (credited & -> & Hcredited).
  intros name. rewrite in_app_iff, in_map_iff. split.
  - intros [(n & [= ->] & Hn)|H]; [|now apply Hcredited in H].
    apply teams_in_race_spec in Hn. destruct Hn as (e & He & <-).
    apply (Permutation_in _ (Permutation_sym Hperm)) in He.
    apply cars_query_In in He.
    destruct He as (c & cat & d & Hc & Hcat & Hd & Ecat & Ed & ->).
    exists c, cat, d. repeat split; assumption.
  - intros (c & cat & d & Hc & Hcat & Hd & Ecat & Ed & <-).
    left. exists (Cars.TEAM_NAME c). split; [reflexivity|].
    apply teams_in_race_spec.
    exists (joined c (Categories.CATEGORY_NAME cat) cat d). split; [|reflexivity].
    apply (Permutation_in _ Hperm). apply cars_query_In.
    exists c, cat, d. repeat split; assumption.
Qed.

End WhoPays.

(** ** The query at work *)

(** Four cars: two with category and driver on file, one of a category
    that is not listed, one without a driver.  The drivers belong to other
    teams than the cars they drive. *)
Definition garage : list Cars.row :=
  [ {| Cars.CAR_ID := 1; Cars.TEAM_NAME := "A"; Cars.MODEL := "Quattro";
       Cars.CATEGORY_NAME := Some "Group B"; Cars.DRIVER_ID := Some 1%Z |};
    {| Cars.CAR_ID := 2; Cars.TEAM_NAME := "B"; Cars.MODEL := "Escort";
       Cars.CATEGORY_NAME := Some "Group A"; Cars.DRIVER_ID := Some 2%Z |};
    {| Cars.CAR_ID := 3; Cars.TEAM_NAME := "C"; Cars.MODEL := "Mini";
       Cars.CATEGORY_NAME := Some "Group N"; Cars.DRIVER_ID := Some 1%Z |};
    {| Cars.CAR_ID := 4; Cars.TEAM_NAME := "C"; Cars.MODEL := "Stratos";
       Cars.CATEGORY_NAME := Some "Group B"; Cars.DRIVER_ID := None |} ].

Definition rulebook : list Categories.row :=
  [ {| Categories.CATEGORY_NAME := "Group B"; Categories.HORSEPOWER := 500;
       Categories.DRIVETRAIN := "4WD"; Categories.MIN_WEIGHT_KG := 1100 |};
    {| Categories.CATEGORY_NAME := "Group A"; Categories.HORSEPOWER := 300;
       Categories.DRIVETRAIN := "RWD"; Categories.MIN_WEIGHT_KG := 1000 |} ].

Definition roster : list Drivers.row :=
  [ {| Drivers.DRIVER_ID := 1; Drivers.DRIVER_NAME := "Ann";
       Drivers.SKILL_LEVEL := 80; Drivers.LUCK_LEVEL := 50;
       Drivers.TEAM_NAME := "B" |};
    {| Drivers.DRIVER_ID := 2; Drivers.DRIVER_NAME := "Bob";
       Drivers.SKILL_LEVEL := 60; Drivers.LUCK_LEVEL := 40;
       Drivers.TEAM_NAME := "A" |} ].

Example query_of_the_garage :
  cars_query garage rulebook roster =
  [ {| CAR_ID := 1; TEAM_NAME := "A"; MODEL := "Quattro";
       CATEGORY_NAME := "Group B"; HORSEPOWER := 500; DRIVETRAIN := "4WD";
       MIN_WEIGHT_KG := 1100; DRIVER_NAME := "Ann"; SKILL_LEVEL := 80;
       LUCK_LEVEL := 50 |};
    {| CAR_ID := 2; TEAM_NAME := "B"; MODEL := "Escort";
       CATEGORY_NAME := "Group A"; HORSEPOWER := 300; DRIVETRAIN := "RWD";
       MIN_WEIGHT_KG := 1000; DRIVER_NAME := "Bob"; SKILL_LEVEL := 60;
       LUCK_LEVEL := 40 |} ].
Proof. reflexivity. Qed.

(** A category listed twice enters its cars twice: the keys have to be
    distinct for the entrants to be the cars. *)
Example category_listed_twice :
  List.length (cars_query garage (rulebook ++ rulebook) roster) = 4%nat /\
  List.length (flat_map (entrant (rulebook ++ rulebook) roster) garage) = 2%nat.
Proof. split; reflexivity. Qed.

Lemma entrants_are_the_cars_on_file_witness :
  Permutation (cars_query garage rulebook roster)
              (flat_map (entrant rulebook roster) garage) /\
  (List.length (cars_query garage rulebook roster) <= List.length garage)%nat.
Proof.
  apply entrants_are_the_cars_on_file;
    repeat constructor; cbn; intuition discriminate.
Defined.

(** Teams A and B are charged; team C, whose cars lack a category or a
    driver, is not. *)

Lemma fee_charged_to_teams_of_cars_on_file_witness :
  exists w' r t,
    start_race stable_sort (rev (cars_query garage rulebook roster)) paddock
    = (w', r) /\
    trace w' = (trace paddock ++ t)%list /\
    In (BudgetMinus FEE "A") (commands_of t) /\
    In (BudgetMinus FEE "B") (commands_of t) /\
    ~ In (BudgetMinus FEE "C") (commands_of t).
Proof.
  assert (Hperm : Permutation (cars_query garage rulebook roster)
                              (rev (cars_query garage rulebook roster)))
    by apply Permutation_rev.
  assert (Hlen : (2 <= List.length (rev (cars_query garage rulebook roster)))%nat)
    by (rewrite length_rev; vm_compute; lia).
  assert (Hconn : forall k,
             (k < List.length (teams_in_race
                                 (rev (cars_query garage rulebook roster))))%nat ->
             connections paddock k = true) by reflexivity.
  destruct (fee_charged_to_teams_of_cars_on_file
              stable_sort stable_sort_permutation garage rulebook roster
              (rev (cars_query garage rulebook roster)) paddock Hperm Hlen Hconn)
    as (w' & r & t & Hrun & Htr & Hfee).
  exists w', r, t. split; [exact Hrun|]. split; [exact Htr|].
  split; [|split].
  - apply Hfee. eexists _, _, _.
    (repeat split; [left; reflexivity | left; reflexivity | left; reflexivity
                  | reflexivity | reflexivity | reflexivity]).
  - apply Hfee. eexists _, _, _.
    (repeat split; [right; left; reflexivity | right; left; reflexivity
                  | right; left; reflexivity | reflexivity | reflexivity | reflexivity]).
  - intros H. apply Hfee in H.
    destruct H as (c & cat & d & Hc & Hcat & Hd & Ecat & Ed & Ename).
    (destruct Hc as [<-|[<-|[<-|[<-|[]]]]]; try discriminate Ename;
      try discriminate Ed;
      destruct Hcat as [<-|[<-|[]]]; discriminate Ecat).
Defined.

(** * The formula on binary64 floating point

    Python evaluates lines 160-166 on floats, IEEE 754 binary64 numbers:
    every operation rounds, a product or a quotient can underflow to zero
    or overflow to an infinity, and [/] raises only on a divisor equal to
    zero.  Here the formula is embedded on these numbers, the primitive
    floats of the kernel, and the claims on the value of the time are
    settled on them: its sign, when it exists, and how it moves with each
    input.  What is proved for all floats goes through the specification of
    the operations ([SpecFloat]): rounding keeps the sign, and rounding is
    monotone.  Whole numbers of the database reach the formula as Python
    ints, which these operations convert to the float of the same value
    (every whole number up to [2 ^ 53] is a float). *)

From Stdlib Require Import Floats Qpower.

Set Warnings "-inexact-float".

Module Binary64.

(** The columns of a row of [cars_df] that lines 160-166 read. *)
Record car : Type := {
  HORSEPOWER : float;
  DRIVETRAIN : string;
  MIN_WEIGHT_KG : float;
  SKILL_LEVEL : float;
  LUCK_LEVEL : float
}.

(** [a / b] on floats: Python raises on a divisor equal to zero, of either
    sign, and otherwise divides as IEEE 754 does, overflow and NaN
    included. *)
Definition py_div (a b : float) : exn + float :=
  if (b =? 0)%float then inl ZeroDivisionError else inr (a / b)%float.

Definition power_to_weight (c : car) : exn + float :=
  py_div (HORSEPOWER c) (MIN_WEIGHT_KG c).

Definition drivetrain_bonus (c : car) : float :=
  if String.eqb (DRIVETRAIN c) "4WD" then 1.05%float else 1.0%float.

Definition skill_factor (c : car) : float :=
  (1 + ((SKILL_LEVEL c - 50) / 50) * 0.1)%float.

Definition luck_low (c : car) : float := (1 - (LUCK_LEVEL c / 1000))%float.
Definition luck_high (c : car) : float := (1 + (LUCK_LEVEL c / 1000))%float.

Definition performance_score (c : car) (ptw luck_factor : float) : float :=
  (ptw * drivetrain_bonus c * skill_factor c * luck_factor)%float.

Definition finish (c : car) (ptw luck_factor : float) : exn + float :=
  py_div 100 (performance_score c ptw luck_factor).

Definition time_taken (c : car) (luck_factor : float) : exn + float :=
  match power_to_weight c with
  | inl e => inl e
  | inr ptw => finish c ptw luck_factor
  end.

(** Greater than zero and not an infinity. *)
Definition positive_finite (x : float) : Prop :=
  (0 <? x)%float = true /\ is_finite x = true.

(** From 1 to 100, as a skill level and a luck level are. *)
Definition level (x : float) : Prop :=
  (1 <=? x)%float = true /\ (x <=? 100)%float = true.

Definition valid_entrant (c : car) : Prop :=
  positive_finite (HORSEPOWER c) /\ positive_finite (MIN_WEIGHT_KG c) /\
  level (SKILL_LEVEL c) /\ level (LUCK_LEVEL c).

Definition in_luck_range (c : car) (l : float) : Prop :=
  (luck_low c <=? l)%float = true /\ (l <=? luck_high c)%float = true.

(** ** Signs through rounding *)

(** The sign of a float that is not NaN. *)
Definition sign_of (x : spec_float) : option bool :=
  match x with
  | S754_zero s | S754_infinity s | S754_finite s _ _ => Some s
  | S754_nan => None
  end.

Lemma shr_1_nonneg (mrs : shr_record) :
  (0 <= shr_m mrs)%Z -> (0 <= shr_m (shr_1 mrs))%Z.
Proof.
  destruct mrs as [m r s]. cbn [shr_m]. intros H.
  destruct m as [|[p|p|]|p]; cbn; lia.
Qed.

Lemma iter_shr_1_nonneg (p : positive) (mrs : shr_record) :
  (0 <= shr_m mrs)%Z -> (0 <= shr_m (iter_pos shr_1 p mrs))%Z.
Proof.
  revert mrs. induction p as [p IH|p IH|]; intros mrs H; cbn [iter_pos].
  - apply IH, IH, shr_1_nonneg, H.
  - apply IH, IH, H.
  - apply shr_1_nonneg, H.
Qed.

Lemma shr_fexp_nonneg (m e : Z) (l : location) :
  (0 <= m)%Z -> (0 <= shr_m (fst (shr_fexp prec emax m e l)))%Z.
Proof.
  intros H. unfold shr_fexp, shr.
  assert (H0 : (0 <= shr_m (shr_record_of_loc m l))%Z)
    by (destruct l as [|[]]; exact H).
  destruct (_ - e)%Z; cbn [fst]; try exact H0.
  apply iter_shr_1_nonneg, H0.
Qed.

Lemma round_nearest_even_nonneg (m : Z) (l : location) :
  (0 <= m)%Z -> (0 <= round_nearest_even m l)%Z.
Proof.
  intros H. destruct l as [|[]]; cbn; try lia.
  destruct (Z.even m); lia.
Qed.

(** Rounding keeps the sign: the result is a zero, a finite number or an
    infinity of the sign given. *)
Lemma binary_round_aux_sign (s : bool) (m e : Z) (l : location) :
  (0 <= m)%Z -> sign_of (binary_round_aux prec emax s m e l) = Some s.
Proof.
  intros H. unfold binary_round_aux.
  pose proof (shr_fexp_nonneg m e l H) as H1.
  destruct (shr_fexp prec emax m e l) as [mrs' e']. cbn [fst] in H1.
  pose proof (shr_fexp_nonneg _ e' loc_Exact
                (round_nearest_even_nonneg _ (loc_of_shr_record mrs') H1)) as H2.
  destruct (shr_fexp prec emax _ e' loc_Exact) as [mrs'' e'']. cbn [fst] in H2.
  destruct (shr_m mrs'') as [|p|p]; [reflexivity| |lia].
  destruct (e'' <=? emax - prec)%Z; reflexivity.
Qed.

Lemma SFmul_sign (x : spec_float) (sx sy : bool) (my : positive) (ey : Z) :
  sign_of x = Some sx ->
  sign_of (SF64mul x (S754_finite sy my ey)) = Some (xorb sx sy).
Proof.
  destruct x as [s|s| |s m e]; cbn [sign_of]; intros [= <-]; try reflexivity.
  apply binary_round_aux_sign. lia.
Qed.

Lemma SFdiv_core_nonneg (m1 m2 : positive) (e1 e2 : Z) :
  (0 <= fst (fst (SFdiv_core_binary prec emax (Zpos m1) e1 (Zpos m2) e2)))%Z.
Proof.
  unfold SFdiv_core_binary.
  set (s := (_ - _ - _)%Z).
  set (m' := match s with Zpos _ => Z.shiftl (Zpos m1) s | Z0 => Zpos m1 | Zneg _ => 0%Z end).
  assert (Hm : (0 <= m')%Z).
  { subst m'. destruct s; try lia. apply Z.shiftl_nonneg. lia. }
  pose proof (Z.div_pos m' (Zpos m2) Hm ltac:(lia)) as Hq.
  unfold Z.div in Hq. destruct (Z.div_eucl m' (Zpos m2)) as [q r]. exact Hq.
Qed.

Lemma SFdiv_finite_sign (sx sy : bool) (mx my : positive) (ex ey : Z) :
  sign_of (SF64div (S754_finite sx mx ex) (S754_finite sy my ey))
  = Some (xorb sx sy).
Proof.
  unfold SF64div, SFdiv.
  pose proof (SFdiv_core_nonneg mx my ex ey) as H.
  destruct (SFdiv_core_binary prec emax (Zpos mx) ex (Zpos my) ey) as [[mz ez] lz].
  apply binary_round_aux_sign. exact H.
Qed.

(** A float that is not NaN, divided by a finite float other than zero. *)
Lemma SFdiv_sign (x : spec_float) (sx sy : bool) (my : positive) (ey : Z) :
  sign_of x = Some sx ->
  sign_of (SF64div x (S754_finite sy my ey)) = Some (xorb sx sy).
Proof.
  destruct x as [s|s| |s m e]; cbn [sign_of]; intros [= <-]; try reflexivity.
  apply SFdiv_finite_sign.
Qed.

(** A finite float other than zero, divided by a float that is neither NaN
    nor zero. *)
Lemma SFdiv_by_sign (y : spec_float) (sx sy : bool) (mx : positive) (ex : Z) :
  sign_of y = Some sy -> SFeqb y (S754_zero false) = false ->
  sign_of (SF64div (S754_finite sx mx ex) y) = Some (xorb sx sy).
Proof.
  destruct y as [s|s| |s m e]; cbn [sign_of]; intros [= <-] Hz;
    try reflexivity; try discriminate.
  apply SFdiv_finite_sign.
Qed.

(** ** Quotients that do not vanish *)

Lemma digits2_size (p : positive) : digits2_pos p = Pos.size p.
Proof. induction p; cbn; congruence. Qed.

Lemma digits2_bounds (p : positive) :
  (2 ^ (Zpos (digits2_pos p) - 1) <= Zpos p < 2 ^ Zpos (digits2_pos p))%Z.
Proof.
  rewrite digits2_size. split.
  - pose proof (Pos.size_le p) as H.
    assert (H' : (2 ^ Zpos (Pos.size p) <= 2 * Zpos p)%Z).
    { rewrite <- Pos2Z.inj_pow. change (2 * Zpos p)%Z with (Zpos p~0). exact H. }
    replace (Zpos (Pos.size p)) with (Z.succ (Zpos (Pos.size p) - 1)) in H' by lia.
    rewrite Z.pow_succ_r in H' by lia. lia.
  - pose proof (Pos.size_gt p) as H. rewrite <- Pos2Z.inj_pow. exact H.
Qed.

Lemma shr_1_div2 (mrs : shr_record) :
  (0 <= shr_m mrs)%Z -> shr_m (shr_1 mrs) = Z.div2 (shr_m mrs).
Proof.
  destruct mrs as [m r s]. cbn [shr_m]. intros H.
  destruct m as [|[p|p|]|p]; cbn; try reflexivity; lia.
Qed.

Lemma iter_shr_1_shiftr (p : positive) (mrs : shr_record) :
  (0 <= shr_m mrs)%Z ->
  (0 <= shr_m (iter_pos shr_1 p mrs))%Z /\
  shr_m (iter_pos shr_1 p mrs) = Z.shiftr (shr_m mrs) (Zpos p).
Proof.
  revert mrs. induction p as [p IH|p IH|]; intros mrs H; cbn [iter_pos].
  - assert (H1 : (0 <= shr_m (shr_1 mrs))%Z)
      by (rewrite shr_1_div2 by exact H; now apply Z.div2_nonneg).
    destruct (IH _ H1) as [H2 E2]. destruct (IH _ H2) as [H3 E3].
    split; [exact H3|]. rewrite E3, E2, shr_1_div2 by exact H.
    rewrite Z.div2_spec, !Z.shiftr_shiftr by lia. f_equal. lia.
  - destruct (IH _ H) as [H2 E2]. destruct (IH _ H2) as [H3 E3].
    split; [exact H3|]. rewrite E3, E2, Z.shiftr_shiftr by lia. f_equal. lia.
  - split; [rewrite shr_1_div2 by exact H; now apply Z.div2_nonneg|].
    rewrite shr_1_div2 by exact H. apply Z.div2_spec.
Qed.

(** Above the smallest exponent, rounding to the format leaves a positive
    mantissa positive. *)
Lemma shr_fexp_pos (m e : Z) (l : location) :
  (0 < m)%Z -> (emin <= e)%Z ->
  let r := shr_fexp prec emax m e l in
  (0 < shr_m (fst r))%Z /\ (emin <= snd r)%Z.
Proof.
  intros Hm He. unfold shr_fexp, shr.
  assert (H0 : shr_m (shr_record_of_loc m l) = m) by (destruct l as [|[]]; reflexivity).
  destruct m as [|p|p]; try lia. cbn [Zdigits2].
  pose proof (digits2_bounds p) as [Hlo _].
  unfold fexp. change (SpecFloat.emin prec emax) with (-1074)%Z in *.
  change prec with 53%Z.
  destruct (Z.max (Zpos (digits2_pos p) + e - 53) (-1074) - e)%Z as [|n|n] eqn:En;
    cbn [fst snd]; rewrite ?H0; try (split; lia).
  destruct (iter_shr_1_shiftr n (shr_record_of_loc (Zpos p) l)) as [_ E];
    [rewrite H0; lia|].
  rewrite E, H0. split; [|lia].
  rewrite Z.shiftr_div_pow2 by lia.
  apply Z.div_str_pos. split; [apply Z.pow_pos_nonneg; lia|].
  apply Z.le_trans with (2 := Hlo). apply Z.pow_le_mono_r; lia.
Qed.

Lemma round_nearest_even_pos (m : Z) (l : location) :
  (0 < m)%Z -> (0 < round_nearest_even m l)%Z.
Proof.
  intros H. destruct l as [|[]]; cbn; try lia.
  destruct (Z.even m); lia.
Qed.

(** Rounding a positive mantissa above the smallest exponent does not give
    zero. *)
Lemma binary_round_aux_nonzero (s : bool) (m e : Z) (l : location) :
  (0 < m)%Z -> (emin <= e)%Z ->
  match binary_round_aux prec emax s m e l with
  | S754_finite s' _ _ | S754_infinity s' => s' = s
  | _ => False
  end.
Proof.
  intros Hm He. unfold binary_round_aux.
  destruct (shr_fexp_pos m e l Hm He) as [H1 H1'].
  destruct (shr_fexp prec emax m e l) as [mrs' e']. cbn [fst snd] in H1, H1'.
  destruct (shr_fexp_pos _ e' loc_Exact
              (round_nearest_even_pos _ (loc_of_shr_record mrs') H1) H1')
    as [H2 _].
  destruct (shr_fexp prec emax _ e' loc_Exact) as [mrs'' e'']. cbn [fst] in H2.
  destruct (shr_m mrs'') as [|p|p]; try lia.
  destruct (e'' <=? emax - prec)%Z; reflexivity.
Qed.

(** A hundred divided by a finite float other than zero is not zero: the
    quotient is finite or, for the smallest divisors, infinite. *)
Lemma hundred_over_finite (s : bool) (m : positive) (e : Z) :
  valid_binary (S754_finite s m e) = true ->
  match SF64div (S754_finite false 7036874417766400 (-46)) (S754_finite s m e) with
  | S754_finite s' _ _ | S754_infinity s' => s' = s
  | _ => False
  end.
Proof.
  cbn [valid_binary SpecFloat.valid_binary]. unfold bounded, canonical_mantissa, fexp.
  change (SpecFloat.emin prec emax) with (-1074)%Z. change prec with 53%Z.
  change emax with 1024%Z.
  intros Hv. apply andb_prop in Hv. destruct Hv as [Hc Hb].
  apply Z.eqb_eq in Hc. apply Z.leb_le in Hb.
  pose proof (digits2_bounds m) as [_ Hhi].
  assert (Hd : (Zpos (digits2_pos m) <= 53)%Z) by lia.
  assert (Hm : (Zpos m < 2 ^ 53)%Z).
  { apply Z.lt_le_trans with (1 := Hhi). apply Z.pow_le_mono_r; lia. }
  unfold SF64div, SFdiv, SFdiv_core_binary. cbn [Zdigits2 xorb].
  change (Zpos (digits2_pos 7036874417766400)) with 53%Z.
  unfold fexp. change (SpecFloat.emin prec emax) with (-1074)%Z.
  change prec with 53%Z.
  set (e' := Z.min _ _).
  assert (He' : (-1074 <= e')%Z) by (subst e'; lia).
  assert (Hs : (1 <= -46 - e - e')%Z) by (subst e'; lia).
  destruct (-46 - e - e')%Z as [|n|n] eqn:En; try lia.
  assert (Hq : (0 < Z.shiftl 7036874417766400 (Zpos n) / Zpos m)%Z).
  { apply Z.div_str_pos. split; [lia|].
    rewrite Z.shiftl_mul_pow2 by lia.
    assert (2 ^ 1 <= 2 ^ Zpos n)%Z by (apply Z.pow_le_mono_r; lia).
    change (2 ^ 53)%Z with 9007199254740992%Z in Hm. lia. }
  unfold Z.div in Hq.
  destruct (Z.div_eucl (Z.shiftl 7036874417766400 (Zpos n)) (Zpos m)) as [q r].
  apply binary_round_aux_nonzero; [exact Hq | exact He'].
Qed.

(** * Rounding is monotone *)

(** ** Powers of two *)

Definition bpow (e : Z) : Q := 2 ^ e.

Lemma bpow_pos (e : Z) : 0 < bpow e.
Proof. apply Qpower_0_lt. reflexivity. Qed.

Lemma bpow_add (a b : Z) : bpow (a + b) == bpow a * bpow b.
Proof. apply Qpower_plus. discriminate. Qed.

Lemma bpow_le (a b : Z) : (a <= b)%Z -> bpow a <= bpow b.
Proof. intros H. apply Qpower_le_compat_l; [exact H | discriminate]. Qed.

Lemma bpow_lt (a b : Z) : (a < b)%Z -> bpow a < bpow b.
Proof. intros H. apply Qpower_lt_compat_l; [exact H | reflexivity]. Qed.

Lemma bpow_Z (n : Z) : (0 <= n)%Z -> bpow n == inject_Z (2 ^ n).
Proof. intros H. unfold bpow. now rewrite Zpower_Qpower. Qed.

Lemma bpow_sub (x : Q) (a b : Z) : x / bpow a / bpow (b - a) == x / bpow b.
Proof.
  replace b with (a + (b - a))%Z at 2 by lia. rewrite bpow_add.
  pose proof (bpow_pos a). pose proof (bpow_pos (b - a)). field. lra.
Qed.

(** ** A value between two integers *)

(** [x] lies at [m], or between [m] and [m + 1] on the side of the middle
    that [l] tells. *)
Definition inbetween (m : Z) (l : location) (x : Q) : Prop :=
  match l with
  | loc_Exact => x == inject_Z m
  | loc_Inexact Lt => inject_Z m < x /\ x < inject_Z m + (1 # 2)
  | loc_Inexact Eq => x == inject_Z m + (1 # 2)
  | loc_Inexact Gt => inject_Z m + (1 # 2) < x /\ x < inject_Z m + 1
  end.

Lemma inbetween_compat (m : Z) (l : location) (x y : Q) :
  x == y -> inbetween m l x -> inbetween m l y.
Proof. intros E. destruct l as [|[]]; cbn; rewrite E; trivial. Qed.

Lemma inbetween_bounds (m : Z) (l : location) (x : Q) :
  inbetween m l x -> inject_Z m <= x /\ x < inject_Z m + 1.
Proof. destruct l as [|[]]; cbn; intros H; lra. Qed.

Definition inb (mrs : shr_record) (x : Q) : Prop :=
  inbetween (shr_m mrs) (loc_of_shr_record mrs) x.

Lemma inject_Z_double (p : positive) :
  inject_Z (Zpos p~0) == 2 * inject_Z (Zpos p).
Proof. change (Zpos p~0) with (2 * Zpos p)%Z. rewrite inject_Z_mult. reflexivity. Qed.

Lemma inject_Z_double_1 (p : positive) :
  inject_Z (Zpos p~1) == 2 * inject_Z (Zpos p) + 1.
Proof.
  change (Zpos p~1) with (2 * Zpos p + 1)%Z.
  rewrite inject_Z_plus, inject_Z_mult. reflexivity.
Qed.

Lemma shr_1_inb (mrs : shr_record) (x : Q) :
  (0 <= shr_m mrs)%Z -> inb mrs x -> inb (shr_1 mrs) (x / 2).
Proof.
  destruct mrs as [m r s]. unfold inb. cbn [shr_m]. intros Hm H.
  destruct m as [|[p|p|]|p]; try lia;
    destruct r, s; cbn in *;
    rewrite ?inject_Z_double, ?inject_Z_double_1 in H;
    change (inject_Z 1) with 1 in *; change (inject_Z 0) with 0 in *;
    unfold Qdiv; change (/ 2) with (1 # 2); lra.
Qed.

Lemma inb_compat (mrs : shr_record) (x y : Q) : x == y -> inb mrs x -> inb mrs y.
Proof. apply inbetween_compat. Qed.

Lemma bpow_double (p : positive) : bpow (Zpos p~0) == bpow (Zpos p) * bpow (Zpos p).
Proof. rewrite <- bpow_add. now rewrite Z.add_diag. Qed.

Lemma bpow_double_1 (p : positive) :
  bpow (Zpos p~1) == 2 * (bpow (Zpos p) * bpow (Zpos p)).
Proof.
  change (Zpos p~1) with (1 + Zpos p~0)%Z. rewrite bpow_add, bpow_double.
  reflexivity.
Qed.

(** Shifting by [p] bits keeps track of where the value lies. *)
Lemma iter_shr_1_inb (p : positive) (mrs : shr_record) (x : Q) :
  (0 <= shr_m mrs)%Z -> inb mrs x ->
  (0 <= shr_m (iter_pos shr_1 p mrs))%Z /\
  shr_m (iter_pos shr_1 p mrs) = Z.shiftr (shr_m mrs) (Zpos p) /\
  inb (iter_pos shr_1 p mrs) (x / bpow (Zpos p)).
Proof.
  revert mrs x. induction p as [p IH|p IH|]; intros mrs x H Hx; cbn [iter_pos].
  - pose proof (shr_1_nonneg mrs H) as H1.
    pose proof (shr_1_inb mrs x H Hx) as Hx1.
    destruct (IH _ _ H1 Hx1) as (H2 & E2 & Hx2).
    destruct (IH _ _ H2 Hx2) as (H3 & E3 & Hx3).
    split; [exact H3|]. split.
    + rewrite E3, E2, shr_1_div2 by exact H.
      rewrite Z.div2_spec, !Z.shiftr_shiftr by lia. f_equal. lia.
    + revert Hx3. apply inb_compat. rewrite bpow_double_1.
      pose proof (bpow_pos (Zpos p)). field. lra.
  - destruct (IH _ _ H Hx) as (H2 & E2 & Hx2).
    destruct (IH _ _ H2 Hx2) as (H3 & E3 & Hx3).
    split; [exact H3|]. split.
    + rewrite E3, E2, Z.shiftr_shiftr by lia. f_equal. lia.
    + revert Hx3. apply inb_compat. rewrite bpow_double.
      pose proof (bpow_pos (Zpos p)). field. lra.
  - split; [now apply shr_1_nonneg|]. split.
    + rewrite shr_1_div2 by exact H. apply Z.div2_spec.
    + now apply shr_1_inb.
Qed.

(** ** Rounding to the nearest integer, ties to even *)

Lemma round_nearest_even_bounds (m : Z) (l : location) :
  (m <= round_nearest_even m l <= m + 1)%Z.
Proof. destruct l as [|[]]; cbn; try lia. destruct (Z.even m); lia. Qed.

Lemma round_nearest_even_mono (m m' : Z) (l l' : location) (x x' : Q) :
  inbetween m l x -> inbetween m' l' x' -> x <= x' ->
  (round_nearest_even m l <= round_nearest_even m' l')%Z.
Proof.
  intros H H' Hx.
  pose proof (inbetween_bounds m l x H) as [B1 B2].
  pose proof (inbetween_bounds m' l' x' H') as [B1' B2'].
  assert (Hm : (m < m' + 1)%Z).
  { rewrite Zlt_Qlt, inject_Z_plus. change (inject_Z 1) with 1. lra. }
  destruct (Z.eq_dec m m') as [<-|Hne].
  - destruct l as [|[]], l' as [|[]]; cbn in *; try lia;
      try (destruct (Z.even m); lia); exfalso; lra.
  - pose proof (round_nearest_even_bounds m l).
    pose proof (round_nearest_even_bounds m' l'). lia.
Qed.

(** ** Rounding to the format *)

Lemma fexp_eq (z : Z) : fexp prec emax z = Z.max (z - 53) (-1074).
Proof. reflexivity. Qed.

Lemma Zdigits2_bounds (m : Z) :
  (0 <= m)%Z ->
  (0 <= Zdigits2 m)%Z /\ (m < 2 ^ Zdigits2 m)%Z /\
  ((0 < m)%Z -> (2 ^ (Zdigits2 m - 1) <= m)%Z).
Proof.
  intros H. destruct m as [|p|p]; try lia; cbn [Zdigits2].
  - split; [lia|]. split; [reflexivity|lia].
  - pose proof (digits2_bounds p). lia.
Qed.

(** The first step of rounding: the mantissa is cut at the exponent of the
    format, and what was cut off is remembered. *)
Lemma shr_fexp_spec (m e : Z) (l : location) (x : Q) :
  (0 <= m)%Z -> inbetween m l x ->
  (e <= fexp prec emax (Zdigits2 m + e))%Z ->
  let fe := fexp prec emax (Zdigits2 m + e) in
  let r := shr_fexp prec emax m e l in
  snd r = fe /\ inb (fst r) (x / bpow (fe - e)) /\
  (0 <= shr_m (fst r) < 2 ^ 53)%Z /\
  ((-1074 < fe)%Z -> (2 ^ 52 <= shr_m (fst r))%Z).
Proof.
  intros Hm Hx He fe r. subst r. unfold shr_fexp, shr. fold fe.
  destruct (Zdigits2_bounds m Hm) as (Hd0 & Hlt & Hge).
  assert (Hfe : fe = Z.max (Zdigits2 m + e - 53) (-1074)) by apply fexp_eq.
  assert (H0 : shr_m (shr_record_of_loc m l) = m)
    by (destruct l as [|[]]; reflexivity).
  assert (Hx0 : inb (shr_record_of_loc m l) x)
    by (unfold inb; rewrite H0; destruct l as [|[]]; exact Hx).
  destruct (fe - e)%Z as [|n|n] eqn:En; cbn [fst snd]; try lia.
  - split; [lia|]. split.
    { revert Hx0. apply inb_compat. unfold Qdiv.
      change (/ bpow 0) with 1. ring. }
    rewrite H0.
    assert (Hd : (Zdigits2 m <= 53)%Z) by lia.
    split.
    + split; [exact Hm|]. apply Z.lt_le_trans with (1 := Hlt).
      apply Z.pow_le_mono_r; lia.
    + intros Hfe'. assert (Zdigits2 m = 53)%Z by lia.
      assert (0 < m)%Z by (destruct m; cbn in *; lia).
      replace 52%Z with (Zdigits2 m - 1)%Z by lia. now apply Hge.
  - split; [lia|].
    destruct (iter_shr_1_inb n (shr_record_of_loc m l) x) as (H1 & H2 & H3);
      [rewrite H0; exact Hm | exact Hx0 |].
    split; [exact H3|]. rewrite H2, H0, Z.shiftr_div_pow2 by lia.
    assert (Hp : (0 < 2 ^ Zpos n)%Z) by (apply Z.pow_pos_nonneg; lia).
    split.
    + split; [apply Z.div_pos; lia|].
      apply Z.div_lt_upper_bound; [exact Hp|].
      rewrite <- Z.pow_add_r by lia.
      apply Z.lt_le_trans with (1 := Hlt). apply Z.pow_le_mono_r; lia.
    + intros Hfe'. assert (Hn : Zpos n = (Zdigits2 m - 53)%Z) by lia.
      assert (0 < m)%Z by (destruct m; cbn in *; lia).
      apply Z.div_le_lower_bound; [exact Hp|].
      rewrite <- Z.pow_add_r by lia.
      replace (Zpos n + 52)%Z with (Zdigits2 m - 1)%Z by lia. now apply Hge.
Qed.

(** The second step: a mantissa that rounding has carried to [2 ^ 53] is
    brought back to [2 ^ 52], one exponent up. *)
Lemma shr_fexp_carry (n e : Z) :
  (0 <= n <= 2 ^ 53)%Z -> (-1074 <= e)%Z ->
  let r := shr_fexp prec emax n e loc_Exact in
  ((n < 2 ^ 53)%Z -> shr_m (fst r) = n /\ snd r = e) /\
  (n = (2 ^ 53)%Z -> shr_m (fst r) = (2 ^ 52)%Z /\ snd r = (e + 1)%Z).
Proof.
  intros Hn He r. subst r. unfold shr_fexp, shr. rewrite fexp_eq. split.
  - intros Hlt. destruct Hn as [Hn _].
    destruct (Zdigits2_bounds n Hn) as (Hd0 & _ & Hge).
    assert (Hd : (Zdigits2 n <= 53)%Z).
    { destruct (Z.eq_dec n 0) as [->|Hne]; [cbn; lia|].
      assert (H : (2 ^ (Zdigits2 n - 1) < 2 ^ 53)%Z)
        by (apply Z.le_lt_trans with (2 := Hlt), Hge; lia).
      apply Z.pow_lt_mono_r_iff in H; lia. }
    destruct (Z.max (Zdigits2 n + e - 53) (-1074) - e)%Z eqn:En; try lia;
      cbn [fst snd shr_record_of_loc shr_m]; auto.
  - intros ->. change (Zdigits2 (2 ^ 53)) with 54%Z.
    replace (Z.max (54 + e - 53) (-1074) - e)%Z with 1%Z by lia.
    cbn. split; [reflexivity | lia].
Qed.

(** The mantissa and the exponent that rounding arrives at. *)
Definition rounded (m e : Z) (l : location) : Z * Z :=
  let '(mrs', e') := shr_fexp prec emax m e l in
  let '(mrs'', e'') :=
    shr_fexp prec emax
      (round_nearest_even (shr_m mrs') (loc_of_shr_record mrs')) e' loc_Exact in
  (shr_m mrs'', e'').

Definition float_of (s : bool) (me : Z * Z) : spec_float :=
  match fst me with
  | Z0 => S754_zero s
  | Zpos m => if (snd me <=? emax - prec)%Z then S754_finite s m (snd me)
              else S754_infinity s
  | Zneg _ => S754_nan
  end.

Lemma binary_round_aux_rounded (s : bool) (m e : Z) (l : location) :
  binary_round_aux prec emax s m e l = float_of s (rounded m e l).
Proof.
  unfold binary_round_aux, rounded, float_of.
  destruct (shr_fexp prec emax m e l) as [mrs' e'].
  destruct (shr_fexp prec emax _ e' loc_Exact) as [mrs'' e'']. reflexivity.
Qed.

Lemma rounded_spec (m e : Z) (l : location) (v : Q) :
  (0 <= m)%Z -> inbetween m l (v / bpow e) ->
  (e <= fexp prec emax (Zdigits2 m + e))%Z ->
  let fe := fexp prec emax (Zdigits2 m + e) in
  exists m1 l1,
    inbetween m1 l1 (v / bpow fe) /\
    (0 <= m1 < 2 ^ 53)%Z /\ ((-1074 < fe)%Z -> (2 ^ 52 <= m1)%Z) /\
    rounded m e l =
      (if (round_nearest_even m1 l1 =? 2 ^ 53)%Z then (2 ^ 52, fe + 1)
       else (round_nearest_even m1 l1, fe))%Z.
Proof.
  intros Hm Hx He fe.
  destruct (shr_fexp_spec m e l _ Hm Hx He) as (H1 & H2 & H3 & H4).
  fold fe in H1, H2, H4. unfold rounded.
  destruct (shr_fexp prec emax m e l) as [mrs' e']. cbn [fst snd] in *.
  subst e'. exists (shr_m mrs'), (loc_of_shr_record mrs').
  split. { revert H2. apply inbetween_compat, bpow_sub. }
  split; [exact H3|]. split; [exact H4|].
  pose proof (round_nearest_even_bounds (shr_m mrs') (loc_of_shr_record mrs')) as Hb.
  assert (Hfe : (-1074 <= fe)%Z) by (unfold fe; rewrite fexp_eq; lia).
  destruct (shr_fexp_carry (round_nearest_even (shr_m mrs') (loc_of_shr_record mrs'))
              fe ltac:(lia) Hfe) as [Hlt Heq].
  destruct (shr_fexp prec emax _ fe loc_Exact) as [mrs'' e'']. cbn [fst snd] in *.
  destruct (Z.eqb_spec (round_nearest_even (shr_m mrs') (loc_of_shr_record mrs'))
                       (2 ^ 53)) as [E|E].
  - destruct (Heq E) as [-> ->]. reflexivity.
  - destruct Hlt as [-> ->]; [lia | reflexivity].
Qed.

(** Rounding is monotone: of two values, the smaller does not round to
    the larger float. *)
Lemma rounded_le (m e : Z) (l : location) (v : Q)
      (m' e' : Z) (l' : location) (v' : Q) :
  (0 <= m)%Z -> inbetween m l (v / bpow e) ->
  (e <= fexp prec emax (Zdigits2 m + e))%Z ->
  (0 <= m')%Z -> inbetween m' l' (v' / bpow e') ->
  (e' <= fexp prec emax (Zdigits2 m' + e'))%Z ->
  v <= v' ->
  let r := rounded m e l in
  let r' := rounded m' e' l' in
  (0 <= fst r)%Z /\ (0 <= fst r')%Z /\
  (fst r = 0%Z \/
   (0 < fst r')%Z /\
   (snd r < snd r' \/ snd r = snd r' /\ fst r <= fst r')%Z).
Proof.
  intros Hm Hx He Hm' Hx' He' Hv r r'. subst r r'.
  destruct (rounded_spec m e l v Hm Hx He) as (m1 & l1 & I1 & B1 & L1 & ->).
  destruct (rounded_spec m' e' l' v' Hm' Hx' He') as (m1' & l1' & I1' & B1' & L1' & ->).
  set (fe := fexp prec emax (Zdigits2 m + e)) in *.
  set (fe' := fexp prec emax (Zdigits2 m' + e')) in *.
  pose proof (round_nearest_even_bounds m1 l1) as R1.
  pose proof (round_nearest_even_bounds m1' l1') as R1'.
  change (2 ^ 53)%Z with 9007199254740992%Z in *.
  change (2 ^ 52)%Z with 4503599627370496%Z in *.
  assert (Hfe : (fe <= fe')%Z).
  { destruct (Z.le_gt_cases fe fe') as [H|H]; [exact H|exfalso].
    assert (Hlow : (-1074 < fe)%Z).
    { assert (-1074 <= fe')%Z by (unfold fe'; rewrite fexp_eq; lia). lia. }
    specialize (L1 Hlow).
    apply inbetween_bounds in I1. apply inbetween_bounds in I1'.
    destruct I1 as [I1 _]. destruct I1' as [_ I1'].
    assert (A : inject_Z 4503599627370496 <= v / bpow fe).
    { apply Qle_trans with (2 := I1). rewrite <- Zle_Qle. exact L1. }
    assert (A' : v' / bpow fe' < inject_Z 4503599627370496 * 2).
    { apply Qlt_le_trans with (1 := I1').
      assert (inject_Z m1' + 1 <= inject_Z 9007199254740992).
      { change 1 with (inject_Z 1). rewrite <- inject_Z_plus, <- Zle_Qle. lia. }
      apply Qle_trans with (1 := H0). vm_compute. discriminate. }
    pose proof (bpow_pos fe) as P. pose proof (bpow_pos fe') as P'.
    assert (B : bpow fe' * 2 <= bpow fe).
    { apply Qle_trans with (bpow (fe' + 1)).
      - rewrite bpow_add. change (bpow 1) with 2. lra.
      - apply bpow_le. lia. }
    assert (Ev : v == v / bpow fe * bpow fe) by (field; lra).
    assert (Ev' : v' == v' / bpow fe' * bpow fe') by (field; lra).
    revert A A' Ev Ev'. generalize (v / bpow fe) (v' / bpow fe').
    intros x x' A A' Ev Ev'.
    set (K := inject_Z 4503599627370496) in *.
    assert (HK : 0 < K) by reflexivity.
    assert (H1 : K * bpow fe <= x * bpow fe)
      by (apply Qmult_le_compat_r; lra).
    assert (H2 : x' * bpow fe' < K * 2 * bpow fe')
      by (apply Qmult_lt_compat_r; lra).
    assert (H3 : K * (bpow fe' * 2) <= K * bpow fe)
      by (apply Qmult_le_l; lra).
    lra. }
  destruct (Z.eq_dec fe fe') as [Efe|Nfe].
  - rewrite <- Efe in *.
    assert (Hr : (round_nearest_even m1 l1 <= round_nearest_even m1' l1')%Z).
    { apply (round_nearest_even_mono _ _ _ _ _ _ I1 I1').
      pose proof (bpow_pos fe) as P. unfold Qdiv.
      apply Qmult_le_compat_r; [exact Hv|].
      apply Qlt_le_weak, Qinv_lt_0_compat, P. }
    destruct (Z.eqb_spec (round_nearest_even m1 l1) 9007199254740992);
      destruct (Z.eqb_spec (round_nearest_even m1' l1') 9007199254740992);
      cbn [fst snd]; lia.
  - assert (Hlow : (-1074 < fe')%Z).
    { assert (-1074 <= fe)%Z by (unfold fe; rewrite fexp_eq; lia). lia. }
    specialize (L1' Hlow).
    destruct (Z.eqb_spec (round_nearest_even m1 l1) 9007199254740992);
      destruct (Z.eqb_spec (round_nearest_even m1' l1') 9007199254740992);
      cbn [fst snd]; lia.
Qed.

Lemma binary_round_aux_le (m e : Z) (l : location) (v : Q)
      (m' e' : Z) (l' : location) (v' : Q) :
  (0 <= m)%Z -> inbetween m l (v / bpow e) ->
  (e <= fexp prec emax (Zdigits2 m + e))%Z ->
  (0 <= m')%Z -> inbetween m' l' (v' / bpow e') ->
  (e' <= fexp prec emax (Zdigits2 m' + e'))%Z ->
  v <= v' ->
  SFleb (binary_round_aux prec emax false m e l)
        (binary_round_aux prec emax false m' e' l') = true.
Proof.
  intros Hm Hx He Hm' Hx' He' Hv.
  destruct (rounded_le m e l v m' e' l' v' Hm Hx He Hm' Hx' He' Hv)
    as (H0 & H0' & H).
  rewrite !binary_round_aux_rounded. unfold float_of.
  destruct (rounded m e l) as [n k], (rounded m' e' l') as [n' k'].
  cbn [fst snd] in *.
  destruct n as [|n|n]; try lia; destruct n' as [|n'|n']; try lia.
  - reflexivity.
  - destruct (k' <=? emax - prec)%Z; reflexivity.
  - destruct H as [H|[_ H]]; [discriminate|].
    destruct (Z.leb_spec k (emax - prec)), (Z.leb_spec k' (emax - prec));
      try reflexivity; try lia.
    unfold SFleb, SFcompare.
    destruct H as [H|[-> H]].
    + apply Z.compare_lt_iff in H. now rewrite H.
    + rewrite Z.compare_refl.
      destruct (Pos.compare_cont Eq n n') eqn:C; try reflexivity.
      change (Pos.compare_cont Eq n n') with (Pos.compare n n') in C.
      apply Pos.compare_gt_iff in C. lia.
Qed.

(** ** Valid floats and their values *)

Definition val (m : positive) (e : Z) : Q := inject_Z (Zpos m) * bpow e.

Lemma val_pos (m : positive) (e : Z) : 0 < val m e.
Proof.
  unfold val. apply Qmult_lt_0_compat; [reflexivity | apply bpow_pos].
Qed.

Lemma valid_finite (s : bool) (m : positive) (e : Z) :
  valid_binary (S754_finite s m e) = true ->
  (-1074 <= e <= 971)%Z /\ (Zpos (digits2_pos m) <= 53)%Z /\
  ((-1074 < e)%Z -> Zpos (digits2_pos m) = 53%Z).
Proof.
  cbn [SpecFloat.valid_binary]. unfold bounded, canonical_mantissa.
  rewrite fexp_eq. change (emax - prec)%Z with 971%Z.
  intros H. apply andb_prop in H. destruct H as [Hc Hb].
  apply Z.eqb_eq in Hc. apply Z.leb_le in Hb. lia.
Qed.

Lemma val_bounds (m : positive) (e : Z) :
  bpow (Zpos (digits2_pos m) - 1 + e) <= val m e /\
  val m e < bpow (Zpos (digits2_pos m) + e).
Proof.
  destruct (digits2_bounds m) as [Hlo Hhi]. unfold val.
  pose proof (bpow_pos e) as P. rewrite !bpow_add. split.
  - apply Qmult_le_compat_r; [|lra].
    rewrite bpow_Z by lia. now rewrite <- Zle_Qle.
  - apply Qmult_lt_compat_r; [exact P|].
    rewrite bpow_Z by lia. now rewrite <- Zlt_Qlt.
Qed.

(** On valid floats the comparison of the format is the comparison of the
    values. *)
Lemma SFleb_val (m : positive) (e : Z) (m' : positive) (e' : Z) :
  valid_binary (S754_finite false m e) = true ->
  valid_binary (S754_finite false m' e') = true ->
  SFleb (S754_finite false m e) (S754_finite false m' e') = true ->
  val m e <= val m' e'.
Proof.
  intros Hv Hv' H.
  destruct (valid_finite _ _ _ Hv) as (He & Hd & _).
  destruct (valid_finite _ _ _ Hv') as (He' & Hd' & Hn').
  unfold SFleb, SFcompare in H.
  destruct (Z.compare_spec e e') as [->|Hlt|Hgt]; try discriminate.
  - unfold val. apply Qmult_le_compat_r; [|apply Qlt_le_weak, bpow_pos].
    rewrite <- Zle_Qle.
    change (Pos.compare_cont Eq m m') with (Pos.compare m m') in H.
    destruct (Pos.compare_spec m m'); try discriminate; lia.
  - destruct (val_bounds m e) as [_ Hhi]. destruct (val_bounds m' e') as [Hlo _].
    rewrite Hn' in Hlo by lia.
    apply Qlt_le_weak, Qlt_le_trans with (1 := Hhi).
    apply Qle_trans with (2 := Hlo). apply bpow_le. lia.
Qed.

(** ** Products *)

Lemma digits2_mul (a b : positive) :
  (Zpos (digits2_pos a) + Zpos (digits2_pos b) - 1 <= Zpos (digits2_pos (a * b)))%Z.
Proof.
  destruct (digits2_bounds a) as [Ha _]. destruct (digits2_bounds b) as [Hb _].
  destruct (digits2_bounds (a * b)) as [_ Hab].
  assert (H : (2 ^ (Zpos (digits2_pos a) - 1 + (Zpos (digits2_pos b) - 1))
               < 2 ^ Zpos (digits2_pos (a * b)))%Z).
  { rewrite Z.pow_add_r by lia. apply Z.le_lt_trans with (2 := Hab).
    rewrite Pos2Z.inj_mul. apply Z.mul_le_mono_nonneg; lia. }
  apply Z.pow_lt_mono_r_iff in H; lia.
Qed.

Lemma mul_precision (m : positive) (e : Z) (mc : positive) (ec : Z) :
  valid_binary (S754_finite false m e) = true ->
  valid_binary (S754_finite false mc ec) = true ->
  (e + ec <= fexp prec emax (Zdigits2 (Zpos (m * mc)) + (e + ec)))%Z.
Proof.
  intros Hv Hc.
  destruct (valid_finite _ _ _ Hv) as (He & Hd & Hn).
  destruct (valid_finite _ _ _ Hc) as (Hec & Hdc & Hnc).
  pose proof (digits2_mul m mc). rewrite fexp_eq. cbn [Zdigits2]. lia.
Qed.

Lemma SFmul_le_finite (m : positive) (e : Z) (m' : positive) (e' : Z)
      (mc : positive) (ec : Z) (mc' : positive) (ec' : Z) :
  valid_binary (S754_finite false m e) = true ->
  valid_binary (S754_finite false m' e') = true ->
  valid_binary (S754_finite false mc ec) = true ->
  valid_binary (S754_finite false mc' ec') = true ->
  SFleb (S754_finite false m e) (S754_finite false m' e') = true ->
  SFleb (S754_finite false mc ec) (S754_finite false mc' ec') = true ->
  SFleb (SF64mul (S754_finite false m e) (S754_finite false mc ec))
        (SF64mul (S754_finite false m' e') (S754_finite false mc' ec')) = true.
Proof.
  intros Hv Hv' Hc Hc' Hle Hlec. unfold SF64mul, SFmul. cbn [xorb].
  pose proof (bpow_pos e). pose proof (bpow_pos e').
  pose proof (bpow_pos ec). pose proof (bpow_pos ec').
  apply binary_round_aux_le
    with (v := val m e * val mc ec) (v' := val m' e' * val mc' ec').
  - lia.
  - cbn [inbetween]. unfold val. rewrite bpow_add, Pos2Z.inj_mul, inject_Z_mult.
    field. lra.
  - now apply mul_precision.
  - lia.
  - cbn [inbetween]. unfold val. rewrite bpow_add, Pos2Z.inj_mul, inject_Z_mult.
    field. lra.
  - now apply mul_precision.
  - pose proof (SFleb_val _ _ _ _ Hv Hv' Hle).
    pose proof (SFleb_val _ _ _ _ Hc Hc' Hlec).
    pose proof (val_pos m e). pose proof (val_pos mc ec). nra.
Qed.

Lemma SFleb_zero_l (y : spec_float) :
  sign_of y = Some false -> SFleb (S754_zero false) y = true.
Proof. destruct y as [s|s| |s m e]; cbn; intros [= ->]; reflexivity. Qed.

Lemma SFleb_infinity_r (x : spec_float) :
  sign_of x = Some false -> SFleb x (S754_infinity false) = true.
Proof. destruct x as [s|s| |s m e]; cbn; intros [= ->]; reflexivity. Qed.

(** ** Quotients *)

(** The location that the division computes from the remainder tells where
    the quotient lies. *)
Lemma new_location_inbetween (b q r a : Z) :
  (0 < b)%Z -> (0 <= r < b)%Z -> a = (b * q + r)%Z ->
  inbetween q (new_location b r) (inject_Z a / inject_Z b).
Proof.
  intros Hb Hr ->.
  assert (Pb : 0 < inject_Z b) by (change 0 with (inject_Z 0); now rewrite <- Zlt_Qlt).
  assert (E : inject_Z (b * q + r) / inject_Z b == inject_Z q + inject_Z r / inject_Z b).
  { rewrite inject_Z_plus, inject_Z_mult. field. lra. }
  apply (inbetween_compat _ _ _ _ (Qeq_sym _ _ E)).
  assert (Er : inject_Z r == inject_Z r / inject_Z b * inject_Z b) by (field; lra).
  assert (R0 : 0 <= inject_Z r) by (change 0 with (inject_Z 0); rewrite <- Zle_Qle; lia).
  assert (Rb : inject_Z r < inject_Z b) by (rewrite <- Zlt_Qlt; lia).
  assert (Hcmp : forall c, (2 * r ?= b)%Z = c ->
            match c with
            | Lt => 2 * inject_Z r < inject_Z b
            | Eq => 2 * inject_Z r == inject_Z b
            | Gt => inject_Z b < 2 * inject_Z r
            end).
  { intros c <-. change 2 with (inject_Z 2). rewrite <- inject_Z_mult.
    destruct (Z.compare_spec (2 * r) b) as [H|H|H].
    - now rewrite H.
    - now rewrite <- Zlt_Qlt.
    - now rewrite <- Zlt_Qlt. }
  revert Er. generalize (inject_Z r / inject_Z b). intros y Er.
  unfold new_location.
  destruct (Z.even b) eqn:Eb.
  - unfold new_location_even. destruct (Z.eqb_spec r 0) as [->|Hne].
    + cbn [inbetween]. change (inject_Z 0) with 0 in Er. nra.
    + assert (0 < inject_Z r) by (change 0 with (inject_Z 0); rewrite <- Zlt_Qlt; lia).
      specialize (Hcmp _ eq_refl).
      destruct (2 * r ?= b)%Z; cbn [inbetween]; nra.
  - unfold new_location_odd. destruct (Z.eqb_spec r 0) as [->|Hne].
    + cbn [inbetween]. change (inject_Z 0) with 0 in Er. nra.
    + assert (0 < inject_Z r) by (change 0 with (inject_Z 0); rewrite <- Zlt_Qlt; lia).
      assert (Hodd : (2 * r <> b)%Z).
      { intros <-. rewrite Z.even_mul in Eb. discriminate. }
      specialize (Hcmp _ eq_refl).
      destruct (Z.compare_spec (2 * r + 1) b) as [H1|H1|H1];
        destruct (Z.compare_spec (2 * r) b) as [H2|H2|H2];
        try lia; cbn [inbetween]; nra.
Qed.

Lemma Zdigits2_lower (q k : Z) :
  (0 <= k)%Z -> (2 ^ k <= q)%Z -> (k + 1 <= Zdigits2 q)%Z.
Proof.
  intros Hk Hq.
  assert (Hq0 : (0 <= q)%Z) by (pose proof (Z.pow_pos_nonneg 2 k); lia).
  destruct (Zdigits2_bounds q Hq0) as (Hd & Hlt & _).
  assert (H : (2 ^ k < 2 ^ Zdigits2 q)%Z) by lia.
  apply Z.pow_lt_mono_r_iff in H; lia.
Qed.

(** What the division hands to rounding: a non-negative integer quotient,
    where the exact quotient lies around it, and an exponent fine enough for
    the format. *)
Lemma SFdiv_core_spec (m1 : positive) (e1 : Z) (m2 : positive) (e2 : Z) :
  valid_binary (S754_finite false m1 e1) = true ->
  valid_binary (S754_finite false m2 e2) = true ->
  let r := SFdiv_core_binary prec emax (Zpos m1) e1 (Zpos m2) e2 in
  let q := fst (fst r) in
  let e' := snd (fst r) in
  (0 <= q)%Z /\
  inbetween q (snd r) (val m1 e1 / val m2 e2 / bpow e') /\
  (e' <= fexp prec emax (Zdigits2 q + e'))%Z.
Proof.
  intros Hv1 Hv2.
  destruct (valid_finite _ _ _ Hv1) as (He1 & Hd1 & _).
  destruct (valid_finite _ _ _ Hv2) as (He2 & Hd2 & _).
  destruct (digits2_bounds m1) as [Hlo1 _].
  destruct (digits2_bounds m2) as [_ Hhi2].
  unfold SFdiv_core_binary. cbn [Zdigits2]. rewrite fexp_eq.
  set (d1 := Zpos (digits2_pos m1)) in *.
  set (d2 := Zpos (digits2_pos m2)) in *.
  set (e' := Z.min _ _).
  set (s := (e1 - e2 - e')%Z).
  assert (Hs : (0 <= s)%Z) by (subst s e'; lia).
  set (m' := match s with
             | Zpos _ => Z.shiftl (Zpos m1) s | Z0 => Zpos m1 | Zneg _ => 0%Z
             end).
  assert (Hm' : m' = (Zpos m1 * 2 ^ s)%Z).
  { subst m'. revert Hs. generalize s. intros [|p|p] Hp; try lia.
    now rewrite Z.shiftl_mul_pow2 by lia. }
  pose proof (Z.pow_pos_nonneg 2 s ltac:(lia) Hs) as Hps.
  pose proof (Z.div_mod m' (Zpos m2) ltac:(lia)) as Hq.
  pose proof (Z.mod_pos_bound m' (Zpos m2) ltac:(lia)) as Hr.
  unfold Z.div, Z.modulo in Hq, Hr.
  destruct (Z.div_eucl m' (Zpos m2)) as [q r].
  cbn [fst snd].
  assert (Hq0 : (0 <= q)%Z) by nia.
  split; [exact Hq0|]. split.
  - assert (E : val m1 e1 / val m2 e2 / bpow e'
                == inject_Z m' / inject_Z (Zpos m2)).
    { unfold val. rewrite Hm', inject_Z_mult, <- bpow_Z by exact Hs.
      replace e1 with (s + e2 + e')%Z at 1 by (subst s; lia).
      rewrite !bpow_add.
      pose proof (bpow_pos e2). pose proof (bpow_pos e'). pose proof (bpow_pos s).
      assert (0 < inject_Z (Zpos m2)) by reflexivity.
      field. lra. }
    apply (inbetween_compat _ _ _ _ (Qeq_sym _ _ E)).
    apply new_location_inbetween; [lia | exact Hr | exact Hq].
  - rewrite fexp_eq.
    destruct (Z.le_gt_cases e' (-1074)) as [Hle|Hgt]; [lia|].
    assert (Hs' : (53 - d1 + d2 <= s)%Z) by (subst s e'; lia).
    assert (Hk : (0 <= d1 - 1 + s - d2)%Z) by lia.
    assert (Hq' : (2 ^ (d1 - 1 + s - d2) <= q)%Z).
    { assert (Hp : (2 ^ (d1 - 1 + s - d2) * Zpos m2 <= m')%Z).
      { rewrite Hm'.
        apply Z.le_trans with (2 ^ (d1 - 1 + s - d2) * 2 ^ d2)%Z.
        - apply Z.mul_le_mono_nonneg_l; [apply Z.pow_nonneg|]; lia.
        - rewrite <- Z.pow_add_r by lia.
          replace (d1 - 1 + s - d2 + d2)%Z with (d1 - 1 + s)%Z by lia.
          rewrite Z.pow_add_r by lia.
          apply Z.mul_le_mono_nonneg_r; lia. }
      pose proof (Z.pow_pos_nonneg 2 (d1 - 1 + s - d2) ltac:(lia) Hk).
      nia. }
    pose proof (Zdigits2_lower q _ Hk Hq'). subst s e'. lia.
Qed.

Lemma SFdiv_le_l (m : positive) (e : Z) (m' : positive) (e' : Z)
      (mw : positive) (ew : Z) :
  valid_binary (S754_finite false m e) = true ->
  valid_binary (S754_finite false m' e') = true ->
  valid_binary (S754_finite false mw ew) = true ->
  SFleb (S754_finite false m e) (S754_finite false m' e') = true ->
  SFleb (SF64div (S754_finite false m e) (S754_finite false mw ew))
        (SF64div (S754_finite false m' e') (S754_finite false mw ew)) = true.
Proof.
  intros Hv Hv' Hw Hle. unfold SF64div, SFdiv. cbn [xorb].
  pose proof (SFdiv_core_spec m e mw ew Hv Hw) as H.
  pose proof (SFdiv_core_spec m' e' mw ew Hv' Hw) as H'.
  cbv zeta in H, H'.
  destruct (SFdiv_core_binary prec emax (Zpos m) e (Zpos mw) ew) as [[q k] l].
  destruct (SFdiv_core_binary prec emax (Zpos m') e' (Zpos mw) ew) as [[q' k'] l'].
  cbn [fst snd] in H, H'.
  destruct H as (H1 & H2 & H3). destruct H' as (H1' & H2' & H3').
  apply binary_round_aux_le
    with (v := val m e / val mw ew) (v' := val m' e' / val mw ew);
    try assumption.
  unfold Qdiv. apply Qmult_le_compat_r; [now apply SFleb_val|].
  apply Qlt_le_weak, Qinv_lt_0_compat, val_pos.
Qed.

Lemma Qdiv_le_antitone (a x y : Q) : 0 <= a -> 0 < x -> x <= y -> a / y <= a / x.
Proof.
  intros Ha Hx Hxy. apply Qle_shift_div_l; [exact Hx|].
  assert (E : a / y * x == a * x / y) by (field; lra).
  rewrite E. apply Qle_shift_div_r; [lra|].
  nra.
Qed.

Lemma SFdiv_le_r (m : positive) (e : Z) (mw : positive) (ew : Z)
      (mw' : positive) (ew' : Z) :
  valid_binary (S754_finite false m e) = true ->
  valid_binary (S754_finite false mw ew) = true ->
  valid_binary (S754_finite false mw' ew') = true ->
  SFleb (S754_finite false mw ew) (S754_finite false mw' ew') = true ->
  SFleb (SF64div (S754_finite false m e) (S754_finite false mw' ew'))
        (SF64div (S754_finite false m e) (S754_finite false mw ew)) = true.
Proof.
  intros Hv Hw Hw' Hle. unfold SF64div, SFdiv. cbn [xorb].
  pose proof (SFdiv_core_spec m e mw ew Hv Hw) as H.
  pose proof (SFdiv_core_spec m e mw' ew' Hv Hw') as H'.
  cbv zeta in H, H'.
  destruct (SFdiv_core_binary prec emax (Zpos m) e (Zpos mw) ew) as [[q k] l].
  destruct (SFdiv_core_binary prec emax (Zpos m) e (Zpos mw') ew') as [[q' k'] l'].
  cbn [fst snd] in H, H'.
  destruct H as (H1 & H2 & H3). destruct H' as (H1' & H2' & H3').
  apply binary_round_aux_le
    with (v := val m e / val mw' ew') (v' := val m e / val mw ew);
    try assumption.
  apply Qdiv_le_antitone;
    [apply Qlt_le_weak, val_pos | apply val_pos | now apply SFleb_val].
Qed.

(** *** Zeros and infinities included *)

Lemma SFmul_le (x x' : spec_float) (mc : positive) (ec : Z)
      (mc' : positive) (ec' : Z) :
  sign_of x = Some false -> sign_of x' = Some false ->
  valid_binary x = true -> valid_binary x' = true ->
  valid_binary (S754_finite false mc ec) = true ->
  valid_binary (S754_finite false mc' ec') = true ->
  SFleb x x' = true ->
  SFleb (S754_finite false mc ec) (S754_finite false mc' ec') = true ->
  SFleb (SF64mul x (S754_finite false mc ec))
        (SF64mul x' (S754_finite false mc' ec')) = true.
Proof.
  intros Hs Hs' Hv Hv' Hc Hc' Hle Hlec.
  pose proof (SFmul_sign x false false mc ec Hs) as S.
  pose proof (SFmul_sign x' false false mc' ec' Hs') as S'.
  cbn [xorb] in S, S'.
  destruct x as [s|s| |s m e]; cbn [sign_of] in Hs; try discriminate;
    injection Hs as ->.
  - now apply SFleb_zero_l.
  - destruct x' as [s|s| |s m e]; cbn [sign_of] in Hs'; try discriminate;
      injection Hs' as ->; try discriminate Hle. reflexivity.
  - destruct x' as [s|s| |s m' e']; cbn [sign_of] in Hs'; try discriminate;
      injection Hs' as ->; try discriminate Hle.
    + now apply SFleb_infinity_r.
    + now apply SFmul_le_finite.
Qed.

(** A finite positive float divided by a score and by a larger one. *)
Lemma SFdiv_le_by (m : positive) (e : Z) (y y' : spec_float) :
  valid_binary (S754_finite false m e) = true ->
  sign_of y = Some false -> sign_of y' = Some false ->
  valid_binary y = true -> valid_binary y' = true ->
  SFeqb y (S754_zero false) = false -> SFeqb y' (S754_zero false) = false ->
  SFleb y y' = true ->
  SFleb (SF64div (S754_finite false m e) y')
        (SF64div (S754_finite false m e) y) = true.
Proof.
  intros Hv Hs Hs' Hy Hy' Hz Hz' Hle.
  pose proof (SFdiv_by_sign y false false m e Hs Hz) as S.
  cbn [xorb] in S.
  destruct y' as [s|s| |s m' e']; cbn [sign_of] in Hs'; try discriminate;
    injection Hs' as ->; try discriminate Hz'.
  - now apply SFleb_zero_l.
  - destruct y as [s|s| |s m0 e0]; cbn [sign_of] in Hs; try discriminate;
      injection Hs as ->; try discriminate Hz; try discriminate Hle.
    now apply SFdiv_le_r.
Qed.

(** ** Rounding with a sign *)

Lemma SFleb_zero_nonneg (s : bool) (y : spec_float) :
  sign_of y = Some false -> SFleb (S754_zero s) y = true.
Proof. destruct y as [s'|s'| |s' m e]; cbn; intros [= ->]; reflexivity. Qed.

Lemma SFleb_nonpos_zero (x : spec_float) (s : bool) :
  sign_of x = Some true -> SFleb x (S754_zero s) = true.
Proof. destruct x as [s'|s'| |s' m e]; cbn; intros [= ->]; reflexivity. Qed.

Lemma SFleb_nonpos_nonneg (x y : spec_float) :
  sign_of x = Some true -> sign_of y = Some false -> SFleb x y = true.
Proof.
  destruct x as [s|s| |s m e]; cbn; intros [= ->];
    destruct y as [s'|s'| |s' m' e']; cbn; intros [= ->]; reflexivity.
Qed.

Lemma rounded_nonneg (m e : Z) (l : location) (v : Q) :
  (0 <= m)%Z -> inbetween m l (v / bpow e) ->
  (e <= fexp prec emax (Zdigits2 m + e))%Z ->
  (0 <= fst (rounded m e l))%Z.
Proof.
  intros Hm Hx He.
  now destruct (rounded_le m e l v m e l v Hm Hx He Hm Hx He (Qle_refl v)).
Qed.

Lemma float_of_le_neg (r r' : Z * Z) :
  (0 <= fst r)%Z -> (0 <= fst r')%Z ->
  (fst r' = 0%Z \/
   (0 < fst r)%Z /\
   (snd r' < snd r \/ snd r' = snd r /\ fst r' <= fst r)%Z) ->
  SFleb (float_of true r) (float_of true r') = true.
Proof.
  destruct r as [n k], r' as [n' k']. unfold float_of. cbn [fst snd].
  intros H0 H0' H.
  destruct n as [|n|n]; try lia; destruct n' as [|n'|n']; try lia.
  - reflexivity.
  - destruct (k <=? emax - prec)%Z; reflexivity.
  - destruct H as [H|[_ H]]; [discriminate|].
    destruct (Z.leb_spec k (emax - prec)), (Z.leb_spec k' (emax - prec));
      try reflexivity; try lia.
    unfold SFleb, SFcompare.
    destruct H as [H|[-> H]].
    + apply Z.compare_gt_iff in H. now rewrite H.
    + rewrite Z.compare_refl.
      change (Pos.compare_cont Eq n n') with (Pos.compare n n').
      destruct (Pos.compare_spec n n'); try reflexivity. lia.
Qed.

Lemma float_of_le_mixed (r r' : Z * Z) :
  (0 <= fst r)%Z -> (0 <= fst r')%Z ->
  SFleb (float_of true r) (float_of false r') = true.
Proof.
  destruct r as [n k], r' as [n' k']. unfold float_of. cbn [fst snd].
  intros H0 H0'.
  destruct n as [|n|n]; try lia; destruct n' as [|n'|n']; try lia;
    try destruct (k <=? emax - prec)%Z; try destruct (k' <=? emax - prec)%Z;
    reflexivity.
Qed.

(** A magnitude with the sign of a float, [true] for minus. *)
Definition signed (s : bool) (v : Q) : Q := if s then - v else v.

(** Rounding is monotone on the values with their signs too. *)
Lemma binary_round_aux_signed_le (s : bool) (m e : Z) (l : location) (v : Q)
      (s' : bool) (m' e' : Z) (l' : location) (v' : Q) :
  (0 <= m)%Z -> inbetween m l (v / bpow e) ->
  (e <= fexp prec emax (Zdigits2 m + e))%Z ->
  (0 <= m')%Z -> inbetween m' l' (v' / bpow e') ->
  (e' <= fexp prec emax (Zdigits2 m' + e'))%Z ->
  0 < v -> 0 < v' -> signed s v <= signed s' v' ->
  SFleb (binary_round_aux prec emax s m e l)
        (binary_round_aux prec emax s' m' e' l') = true.
Proof.
  intros Hm Hx He Hm' Hx' He' Hv Hv' Hle.
  destruct s, s'; cbn [signed] in Hle.
  - rewrite !binary_round_aux_rounded.
    destruct (rounded_le m' e' l' v' m e l v Hm' Hx' He' Hm Hx He
                ltac:(lra)) as (H0' & H0 & H).
    now apply float_of_le_neg.
  - rewrite !binary_round_aux_rounded.
    apply float_of_le_mixed; eapply rounded_nonneg; eassumption.
  - exfalso. lra.
  - now apply binary_round_aux_le with (v := v) (v' := v').
Qed.

(** The comparison of valid floats of either sign is that of their
    values. *)
Lemma SFleb_signed_val (s : bool) (m : positive) (e : Z)
      (s' : bool) (m' : positive) (e' : Z) :
  valid_binary (S754_finite s m e) = true ->
  valid_binary (S754_finite s' m' e') = true ->
  SFleb (S754_finite s m e) (S754_finite s' m' e') = true ->
  signed s (val m e) <= signed s' (val m' e').
Proof.
  intros Hv Hv' H.
  pose proof (val_pos m e). pose proof (val_pos m' e').
  destruct s, s'; cbn [signed]; try lra; try discriminate H.
  - assert (H' : SFleb (S754_finite false m' e') (S754_finite false m e) = true).
    { unfold SFleb, SFcompare in *.
      change (Pos.compare_cont Eq m m') with (Pos.compare m m') in H.
      change (Pos.compare_cont Eq m' m) with (Pos.compare m' m).
      destruct (Z.compare_spec e e'), (Z.compare_spec e' e); try lia;
        try reflexivity; try discriminate H.
      destruct (Pos.compare_spec m m'), (Pos.compare_spec m' m); try lia;
        try reflexivity; discriminate H. }
    pose proof (SFleb_val m' e' m e Hv' Hv H'). lra.
  - now apply SFleb_val.
Qed.

(** ** Sums and differences *)

Lemma iter_xO (m d : positive) :
  Zpos (Pos.iter xO m d) = (Zpos m * 2 ^ Zpos d)%Z.
Proof.
  induction d as [|d IH] using Pos.peano_ind.
  - cbn. lia.
  - rewrite Pos.iter_succ, Pos2Z.inj_succ, Z.pow_succ_r by lia.
    rewrite Pos2Z.inj_xO, IH. lia.
Qed.

Lemma digits2_iter_xO (m d : positive) :
  digits2_pos (Pos.iter xO m d) = (digits2_pos m + d)%positive.
Proof.
  induction d as [|d IH] using Pos.peano_ind.
  - cbn. lia.
  - rewrite Pos.iter_succ. cbn [digits2_pos]. rewrite IH. lia.
Qed.

(** Aligning a mantissa to a smaller exponent changes neither the value nor
    where its first digit stands. *)
Lemma shl_align_spec (mx : positive) (ex ex' : Z) :
  let mz := fst (shl_align mx ex ex') in
  let ez := snd (shl_align mx ex ex') in
  ez = Z.min ex ex' /\ val mz ez == val mx ex /\
  (Zpos (digits2_pos mz) + ez = Zpos (digits2_pos mx) + ex)%Z.
Proof.
  unfold shl_align. destruct (ex' - ex)%Z as [|d|d] eqn:E; cbn [fst snd].
  - split; [lia|]. split; [reflexivity | lia].
  - split; [lia|]. split; [reflexivity | lia].
  - split; [lia|]. split.
    + unfold val. rewrite iter_xO, inject_Z_mult.
      replace ex with (Zpos d + ex')%Z by lia.
      rewrite bpow_add, <- bpow_Z by lia. ring.
    + rewrite digits2_iter_xO. lia.
Qed.

Lemma binary_round_aligned (s : bool) (mx : positive) (ex : Z) :
  exists mz ez,
    binary_round prec emax s mx ex
    = binary_round_aux prec emax s (Zpos mz) ez loc_Exact /\
    val mz ez == val mx ex /\ (Z.min ex emin <= ez)%Z /\
    (ez <= fexp prec emax (Zdigits2 (Zpos mz) + ez))%Z.
Proof.
  unfold binary_round.
  pose proof (shl_align_spec mx ex (fexp prec emax (Zpos (digits2_pos mx) + ex)))
    as H. cbv zeta in H.
  destruct (shl_align mx ex _) as [mz ez]. cbn [fst snd] in H.
  destruct H as (H1 & H2 & H3). exists mz, ez.
  split; [reflexivity|]. split; [exact H2|].
  cbn [Zdigits2]. rewrite H3. rewrite fexp_eq in *.
  change emin with (-1074)%Z. lia.
Qed.

Lemma binary_round_le (mx : positive) (ex : Z) (my : positive) (ey : Z) :
  val mx ex <= val my ey ->
  SFleb (binary_round prec emax false mx ex)
        (binary_round prec emax false my ey) = true.
Proof.
  intros Hv.
  destruct (binary_round_aligned false mx ex) as (mz & ez & -> & E & _ & P).
  destruct (binary_round_aligned false my ey) as (mz' & ez' & -> & E' & _ & P').
  pose proof (bpow_pos ez). pose proof (bpow_pos ez').
  apply binary_round_aux_le with (v := val mz ez) (v' := val mz' ez');
    try lia; try assumption.
  - cbn [inbetween]. unfold val. field. lra.
  - cbn [inbetween]. unfold val. field. lra.
  - now rewrite E, E'.
Qed.

(** The magnitude of what rounding gives does not depend on the sign. *)
Lemma float_of_abs (s : bool) (me : Z * Z) :
  SFabs (float_of s me) = float_of false me.
Proof.
  unfold float_of. destruct (fst me); try reflexivity.
  destruct (snd me <=? emax - prec)%Z; reflexivity.
Qed.

Lemma binary_round_aux_abs (s : bool) (m e : Z) (l : location) :
  SFabs (binary_round_aux prec emax s m e l)
  = binary_round_aux prec emax false m e l.
Proof. rewrite !binary_round_aux_rounded. apply float_of_abs. Qed.

Lemma binary_round_abs (s : bool) (m : positive) (e : Z) :
  SFabs (binary_round prec emax s m e) = binary_round prec emax false m e.
Proof.
  unfold binary_round. destruct (shl_align m e _) as [mz ez].
  apply binary_round_aux_abs.
Qed.

Lemma binary_round_sign (s : bool) (m : positive) (e : Z) :
  sign_of (binary_round prec emax s m e) = Some s.
Proof.
  unfold binary_round. destruct (shl_align m e _) as [mz ez].
  apply binary_round_aux_sign. lia.
Qed.

(** The sum of the aligned mantissas, rounded: no larger in magnitude than
    a float that its exact value does not exceed. *)
Lemma binary_normalize_abs_le (d ez : Z) (mb : positive) (eb : Z) :
  - val mb eb <= inject_Z d * bpow ez <= val mb eb ->
  SFleb (SFabs (binary_normalize prec emax d ez false))
        (binary_round prec emax false mb eb) = true.
Proof.
  intros [Hlo Hhi]. pose proof (bpow_pos ez) as P.
  destruct d as [|p|p]; cbn [binary_normalize].
  - apply SFleb_zero_l, binary_round_sign.
  - rewrite binary_round_abs. apply binary_round_le. exact Hhi.
  - rewrite binary_round_abs. apply binary_round_le.
    change (inject_Z (Zneg p)) with (- inject_Z (Zpos p)) in Hlo.
    unfold val at 1. lra.
Qed.

(** A sum that is exactly positive, and no more than a finite float, rounds
    to a positive finite float. *)
Lemma binary_normalize_positive (d ez : Z) (mb : positive) (eb : Z) :
  (emin <= ez)%Z -> 0 < inject_Z d * bpow ez ->
  inject_Z d * bpow ez <= val mb eb ->
  binary_round prec emax false mb eb = S754_finite false mb eb ->
  exists m e, binary_normalize prec emax d ez false = S754_finite false m e.
Proof.
  intros He Hpos Hle Hb. pose proof (bpow_pos ez) as P.
  destruct d as [|p|p].
  - exfalso. change (inject_Z 0) with 0 in Hpos. lra.
  - cbn [binary_normalize].
    pose proof (binary_round_le p ez mb eb Hle) as L. rewrite Hb in L.
    destruct (binary_round_aligned false p ez) as (mz & ez' & E & _ & Hz & _).
    rewrite E in *.
    pose proof (binary_round_aux_nonzero false (Zpos mz) ez' loc_Exact
                  ltac:(lia) ltac:(lia)) as N.
    destruct (binary_round_aux _ _ _ _ _ _) as [s|s| |s m e];
      try contradiction; subst s; [discriminate L|]. now exists m, e.
  - exfalso. change (inject_Z (Zneg p)) with (- inject_Z (Zpos p)) in Hpos.
    assert (0 <= inject_Z (Zpos p) * bpow ez)
      by (apply Qmult_le_0_compat; [discriminate | lra]).
    lra.
Qed.

Lemma binary_round_signed_le (s : bool) (mx : positive) (ex : Z)
      (s' : bool) (my : positive) (ey : Z) :
  signed s (val mx ex) <= signed s' (val my ey) ->
  SFleb (binary_round prec emax s mx ex)
        (binary_round prec emax s' my ey) = true.
Proof.
  intros Hv.
  destruct (binary_round_aligned s mx ex) as (mz & ez & -> & E & _ & P).
  destruct (binary_round_aligned s' my ey) as (mz' & ez' & -> & E' & _ & P').
  pose proof (bpow_pos ez). pose proof (bpow_pos ez').
  pose proof (val_pos mz ez). pose proof (val_pos mz' ez').
  apply binary_round_aux_signed_le with (v := val mz ez) (v' := val mz' ez');
    try lia; try assumption.
  - cbn [inbetween]. unfold val. field. lra.
  - cbn [inbetween]. unfold val. field. lra.
  - destruct s, s'; cbn [signed] in *; lra.
Qed.

(** The larger of two exact sums does not round to the smaller float. *)
Lemma binary_normalize_le (d ez d' ez' : Z) :
  inject_Z d * bpow ez <= inject_Z d' * bpow ez' ->
  SFleb (binary_normalize prec emax d ez false)
        (binary_normalize prec emax d' ez' false) = true.
Proof.
  intros H.
  assert (P : forall p k, 0 < inject_Z (Zpos p) * bpow k)
    by (intros p k; apply val_pos).
  assert (N : forall p k,
             inject_Z (Zneg p) * bpow k == - (inject_Z (Zpos p) * bpow k)).
  { intros p k. change (inject_Z (Zneg p)) with (- inject_Z (Zpos p)). ring. }
  destruct d as [|p|p], d' as [|p'|p']; cbn [binary_normalize];
    try rewrite !N in H; try rewrite Qmult_0_l in H;
    try pose proof (P p ez); try pose proof (P p' ez').
  - reflexivity.
  - apply SFleb_zero_nonneg, binary_round_sign.
  - exfalso. change (inject_Z 0) with 0 in H. lra.
  - exfalso. change (inject_Z 0) with 0 in H. lra.
  - now apply binary_round_le.
  - exfalso. lra.
  - apply SFleb_nonpos_zero, binary_round_sign.
  - apply SFleb_nonpos_nonneg; apply binary_round_sign.
  - apply binary_round_signed_le. exact H.
Qed.

(** The aligned mantissa of a float, with its sign, has the value of the
    float. *)

Lemma aligned_val (s : bool) (m : positive) (e ez : Z) :
  (ez <= e)%Z ->
  inject_Z (cond_Zopp s (Zpos (fst (shl_align m e ez)))) * bpow ez
  == signed s (val m e).
Proof.
  intros H. pose proof (shl_align_spec m e ez) as S. cbv zeta in S.
  destruct S as (S1 & S2 & _). rewrite Z.min_r in S1 by lia.
  rewrite S1 in S2. unfold val in S2.
  destruct s; cbn [cond_Zopp signed].
  - rewrite inject_Z_opp. rewrite <- S2. ring.
  - exact S2.
Qed.

Lemma SFadd_finite (sx : bool) (mx : positive) (ex : Z)
      (sy : bool) (my : positive) (ey : Z) :
  exists d,
    SF64add (S754_finite sx mx ex) (S754_finite sy my ey)
    = binary_normalize prec emax d (Z.min ex ey) false /\
    inject_Z d * bpow (Z.min ex ey)
    == signed sx (val mx ex) + signed sy (val my ey).
Proof.
  eexists. split; [reflexivity|].
  rewrite inject_Z_plus, Qmult_plus_distr_l.
  rewrite !aligned_val by lia. reflexivity.
Qed.

Lemma SFsub_finite (sx : bool) (mx : positive) (ex : Z)
      (sy : bool) (my : positive) (ey : Z) :
  exists d,
    SF64sub (S754_finite sx mx ex) (S754_finite sy my ey)
    = binary_normalize prec emax d (Z.min ex ey) false /\
    inject_Z d * bpow (Z.min ex ey)
    == signed sx (val mx ex) - signed sy (val my ey).
Proof.
  eexists. split; [reflexivity|].
  unfold Z.sub. rewrite inject_Z_plus, inject_Z_opp.
  rewrite Qmult_plus_distr_l.
  setoid_replace (- inject_Z (cond_Zopp sy (Zpos (fst (shl_align my ey (Z.min ex ey)))))
                  * bpow (Z.min ex ey))
    with (- (inject_Z (cond_Zopp sy (Zpos (fst (shl_align my ey (Z.min ex ey)))))
             * bpow (Z.min ex ey))) by ring.
  rewrite !aligned_val by lia. reflexivity.
Qed.

(** ** Magnitudes through quotients and products *)

Lemma SFleb_refl_finite (m : positive) (e : Z) :
  SFleb (S754_finite false m e) (S754_finite false m e) = true.
Proof.
  unfold SFleb, SFcompare. now rewrite Z.compare_refl, Pos.compare_cont_refl.
Qed.

Lemma SFabs_nonneg (x : spec_float) : sign_of x = Some false -> SFabs x = x.
Proof. destruct x as [s|s| |s m e]; cbn; intros [= ->]; reflexivity. Qed.

(** A float bounded in magnitude, divided or multiplied by a positive
    float, is bounded by the bound divided or multiplied. *)
Lemma SFdiv_abs_le (x : spec_float) (mb : positive) (eb : Z)
      (mw : positive) (ew : Z) :
  valid_binary x = true ->
  valid_binary (S754_finite false mb eb) = true ->
  valid_binary (S754_finite false mw ew) = true ->
  SFleb (SFabs x) (S754_finite false mb eb) = true ->
  SFleb (SFabs (SF64div x (S754_finite false mw ew)))
        (SF64div (S754_finite false mb eb) (S754_finite false mw ew)) = true.
Proof.
  intros Hx Hb Hw Hle.
  destruct x as [s|s| |s m e]; try discriminate Hle.
  - replace (SFabs (SF64div (S754_zero s) (S754_finite false mw ew)))
      with (S754_zero false) by now destruct s.
    apply SFleb_zero_l. apply (SFdiv_sign _ false false). reflexivity.
  - pose proof (SFdiv_le_l m e mb eb mw ew Hx Hb Hw Hle) as L.
    unfold SF64div, SFdiv in *.
    destruct (SFdiv_core_binary prec emax (Zpos m) e (Zpos mw) ew) as [[q k] l].
    now rewrite binary_round_aux_abs.
Qed.

Lemma SFmul_abs_le (x : spec_float) (mb : positive) (eb : Z)
      (mc : positive) (ec : Z) :
  valid_binary x = true ->
  valid_binary (S754_finite false mb eb) = true ->
  valid_binary (S754_finite false mc ec) = true ->
  SFleb (SFabs x) (S754_finite false mb eb) = true ->
  SFleb (SFabs (SF64mul x (S754_finite false mc ec)))
        (SF64mul (S754_finite false mb eb) (S754_finite false mc ec)) = true.
Proof.
  intros Hx Hb Hc Hle.
  destruct x as [s|s| |s m e]; try discriminate Hle.
  - replace (SFabs (SF64mul (S754_zero s) (S754_finite false mc ec)))
      with (S754_zero false) by now destruct s.
    apply SFleb_zero_l. apply (SFmul_sign _ false false). reflexivity.
  - pose proof (SFmul_le_finite m e mb eb mc ec mc ec Hx Hb Hc Hc Hle
                  (SFleb_refl_finite mc ec)) as L.
    unfold SF64mul, SFmul in *. now rewrite binary_round_aux_abs.
Qed.

(** ** One, plus or minus a tenth at most *)

(** A sum whose exact value is positive and two at most is a positive
    finite float. *)
Lemma one_and_a_bit (d ez : Z) (v : Q) :
  (emin <= ez)%Z -> inject_Z d * bpow ez == v -> 0 < v -> v <= 2 ->
  exists m e, binary_normalize prec emax d ez false = S754_finite false m e.
Proof.
  intros He Ev Hpos Hle.
  apply binary_normalize_positive with (mb := 4503599627370496%positive)
                                       (eb := (-51)%Z).
  - exact He.
  - now rewrite Ev.
  - rewrite Ev. apply Qle_trans with (1 := Hle). vm_compute. discriminate.
  - vm_compute. reflexivity.
Qed.

Lemma small_val (y : spec_float) :
  valid_binary y = true -> SFleb (SFabs y) (Prim2SF 0.1) = true ->
  match y with
  | S754_zero _ => True
  | S754_finite _ m e => (emin <= e)%Z /\ val m e <= 1 # 2
  | _ => False
  end.
Proof.
  intros Hy Hle. destruct y as [s|s| |s m e]; try discriminate Hle; [exact I|].
  split.
  - apply (valid_finite s m e) in Hy. change emin with (-1074)%Z. lia.
  - apply Qle_trans with (val 7205759403792794 (-56)).
    + apply SFleb_val; [exact Hy | reflexivity | exact Hle].
    + vm_compute. discriminate.
Qed.

Lemma one_plus_small (y : spec_float) :
  valid_binary y = true -> SFleb (SFabs y) (Prim2SF 0.1) = true ->
  exists m e, SF64add (Prim2SF 1) y = S754_finite false m e.
Proof.
  intros Hy Hle. pose proof (small_val y Hy Hle) as H.
  change (Prim2SF 1) with (S754_finite false 4503599627370496 (-52)).
  destruct y as [s|s| |s m e]; try contradiction.
  - do 2 eexists. reflexivity.
  - destruct H as [He Hv]. pose proof (val_pos m e) as P.
    destruct (SFadd_finite false 4503599627370496 (-52) s m e) as (d & -> & Ed).
    assert (E1 : val 4503599627370496 (-52) == 1) by reflexivity.
    assert (Hz : (emin <= Z.min (-52) e)%Z)
      by (change emin with (-1074)%Z in *; lia).
    apply (one_and_a_bit d _ _ Hz Ed);
      destruct s; cbn [signed]; lra.
Qed.

Lemma one_minus_small (y : spec_float) :
  valid_binary y = true -> SFleb (SFabs y) (Prim2SF 0.1) = true ->
  exists m e, SF64sub (Prim2SF 1) y = S754_finite false m e.
Proof.
  intros Hy Hle. pose proof (small_val y Hy Hle) as H.
  change (Prim2SF 1) with (S754_finite false 4503599627370496 (-52)).
  destruct y as [s|s| |s m e]; try contradiction.
  - do 2 eexists. reflexivity.
  - destruct H as [He Hv]. pose proof (val_pos m e) as P.
    destruct (SFsub_finite false 4503599627370496 (-52) s m e) as (d & -> & Ed).
    assert (E1 : val 4503599627370496 (-52) == 1) by reflexivity.
    assert (Hz : (emin <= Z.min (-52) e)%Z)
      by (change emin with (-1074)%Z in *; lia).
    apply (one_and_a_bit d _ _ Hz Ed);
      destruct s; cbn [signed]; lra.
Qed.

(** ** Differences, quotients, products and sums of floats of either sign *)

Definition finite_or_zero (x : spec_float) : Prop :=
  match x with
  | S754_zero _ | S754_finite _ _ _ => True
  | _ => False
  end.

Lemma small_finite_or_zero (x : spec_float) (mb : positive) (eb : Z) :
  SFleb (SFabs x) (S754_finite false mb eb) = true -> finite_or_zero x.
Proof. destruct x as [s|s| |s m e]; try discriminate; intros _; exact I. Qed.

(** Each operation of the skill factor keeps the order of its first (for
    the sum, its second) argument. *)
Lemma SFsub_le_l (m : positive) (e : Z) (m' : positive) (e' : Z)
      (mc : positive) (ec : Z) :
  valid_binary (S754_finite false m e) = true ->
  valid_binary (S754_finite false m' e') = true ->
  SFleb (S754_finite false m e) (S754_finite false m' e') = true ->
  SFleb (SF64sub (S754_finite false m e) (S754_finite false mc ec))
        (SF64sub (S754_finite false m' e') (S754_finite false mc ec)) = true.
Proof.
  intros Hv Hv' Hle.
  destruct (SFsub_finite false m e false mc ec) as (d & -> & Ed).
  destruct (SFsub_finite false m' e' false mc ec) as (d' & -> & Ed').
  apply binary_normalize_le. rewrite Ed, Ed'. cbn [signed].
  pose proof (SFleb_val _ _ _ _ Hv Hv' Hle). lra.
Qed.

Lemma SFdiv_signed_le (x x' : spec_float) (mw : positive) (ew : Z) :
  valid_binary x = true -> valid_binary x' = true ->
  finite_or_zero x -> finite_or_zero x' ->
  valid_binary (S754_finite false mw ew) = true ->
  SFleb x x' = true ->
  SFleb (SF64div x (S754_finite false mw ew))
        (SF64div x' (S754_finite false mw ew)) = true.
Proof.
  intros Hv Hv' F F' Hw Hle.
  destruct x as [s|s| |s m e]; try contradiction;
    destruct x' as [s'|s'| |s' m' e']; try contradiction.
  - destruct s, s'; reflexivity.
  - destruct s'; [destruct s; discriminate Hle|].
    replace (SF64div (S754_zero s) (S754_finite false mw ew))
      with (S754_zero s) by (destruct s; reflexivity).
    apply SFleb_zero_nonneg. apply (SFdiv_sign _ false false). reflexivity.
  - destruct s; [|destruct s'; discriminate Hle].
    replace (SF64div (S754_zero s') (S754_finite false mw ew))
      with (S754_zero s') by (destruct s'; reflexivity).
    apply SFleb_nonpos_zero. apply (SFdiv_sign _ true false). reflexivity.
  - pose proof (SFleb_signed_val _ _ _ _ _ _ Hv Hv' Hle) as Hs.
    unfold SF64div, SFdiv. rewrite !xorb_false_r.
    pose proof (SFdiv_core_spec m e mw ew Hv Hw) as H.
    pose proof (SFdiv_core_spec m' e' mw ew Hv' Hw) as H'.
    cbv zeta in H, H'.
    destruct (SFdiv_core_binary prec emax (Zpos m) e (Zpos mw) ew)
      as [[q k] l].
    destruct (SFdiv_core_binary prec emax (Zpos m') e' (Zpos mw) ew)
      as [[q' k'] l'].
    cbn [fst snd] in H, H'.
    destruct H as (H1 & H2 & H3). destruct H' as (H1' & H2' & H3').
    pose proof (val_pos m e) as P. pose proof (val_pos m' e') as P'.
    pose proof (Qinv_lt_0_compat _ (val_pos mw ew)) as Pw.
    apply binary_round_aux_signed_le
      with (v := val m e / val mw ew) (v' := val m' e' / val mw ew);
      try assumption; unfold Qdiv.
    + now apply Qmult_lt_0_compat.
    + now apply Qmult_lt_0_compat.
    + revert Hs P P' Pw.
      generalize (val m e) (val m' e') (/ val mw ew). intros a a' w.
      destruct s, s'; cbn [signed]; intros; nra.
Qed.

Lemma SFmul_signed_le (x x' : spec_float) (mc : positive) (ec : Z) :
  valid_binary x = true -> valid_binary x' = true ->
  finite_or_zero x -> finite_or_zero x' ->
  valid_binary (S754_finite false mc ec) = true ->
  SFleb x x' = true ->
  SFleb (SF64mul x (S754_finite false mc ec))
        (SF64mul x' (S754_finite false mc ec)) = true.
Proof.
  intros Hv Hv' F F' Hc Hle.
  destruct x as [s|s| |s m e]; try contradiction;
    destruct x' as [s'|s'| |s' m' e']; try contradiction.
  - destruct s, s'; reflexivity.
  - destruct s'; [destruct s; discriminate Hle|].
    replace (SF64mul (S754_zero s) (S754_finite false mc ec))
      with (S754_zero s) by (destruct s; reflexivity).
    apply SFleb_zero_nonneg. apply (SFmul_sign _ false false). reflexivity.
  - destruct s; [|destruct s'; discriminate Hle].
    replace (SF64mul (S754_zero s') (S754_finite false mc ec))
      with (S754_zero s') by (destruct s'; reflexivity).
    apply SFleb_nonpos_zero. apply (SFmul_sign _ true false). reflexivity.
  - pose proof (SFleb_signed_val _ _ _ _ _ _ Hv Hv' Hle) as Hs.
    unfold SF64mul, SFmul. rewrite !xorb_false_r.
    pose proof (val_pos m e) as P. pose proof (val_pos m' e') as P'.
    pose proof (val_pos mc ec) as Pc.
    pose proof (bpow_pos e). pose proof (bpow_pos e').
    pose proof (bpow_pos ec).
    apply binary_round_aux_signed_le
      with (v := val m e * val mc ec) (v' := val m' e' * val mc ec).
    + lia.
    + cbn [inbetween]. unfold val.
      rewrite bpow_add, Pos2Z.inj_mul, inject_Z_mult. field. lra.
    + now apply mul_precision.
    + lia.
    + cbn [inbetween]. unfold val.
      rewrite bpow_add, Pos2Z.inj_mul, inject_Z_mult. field. lra.
    + now apply mul_precision.
    + now apply Qmult_lt_0_compat.
    + now apply Qmult_lt_0_compat.
    + revert Hs P P' Pc.
      generalize (val m e) (val m' e') (val mc ec). intros a a' w.
      destruct s, s'; cbn [signed]; intros; nra.
Qed.

Lemma SFadd_le_r (mc : positive) (ec : Z) (y y' : spec_float) :
  binary_normalize prec emax (Zpos mc) ec false = S754_finite false mc ec ->
  valid_binary y = true -> valid_binary y' = true ->
  finite_or_zero y -> finite_or_zero y' ->
  SFleb y y' = true ->
  SFleb (SF64add (S754_finite false mc ec) y)
        (SF64add (S754_finite false mc ec) y') = true.
Proof.
  intros N Hv Hv' F F' Hle.
  destruct y as [s|s| |s m e]; try contradiction;
    destruct y' as [s'|s'| |s' m' e']; try contradiction.
  - apply SFleb_refl_finite.
  - destruct s'; [destruct s; discriminate Hle|].
    replace (SF64add (S754_finite false mc ec) (S754_zero s))
      with (S754_finite false mc ec) by reflexivity.
    destruct (SFadd_finite false mc ec false m' e') as (d' & -> & Ed').
    rewrite <- N. apply binary_normalize_le. rewrite Ed'. cbn [signed].
    pose proof (val_pos m' e'). unfold val in *. lra.
  - destruct s; [|destruct s'; discriminate Hle].
    replace (SF64add (S754_finite false mc ec) (S754_zero s'))
      with (S754_finite false mc ec) by reflexivity.
    destruct (SFadd_finite false mc ec true m e) as (d & -> & Ed).
    rewrite <- N. apply binary_normalize_le. rewrite Ed. cbn [signed].
    pose proof (val_pos m e). unfold val in *. lra.
  - pose proof (SFleb_signed_val _ _ _ _ _ _ Hv Hv' Hle) as Hs.
    destruct (SFadd_finite false mc ec s m e) as (d & -> & Ed).
    destruct (SFadd_finite false mc ec s' m' e') as (d' & -> & Ed').
    apply binary_normalize_le. rewrite Ed, Ed'. lra.
Qed.

(** ** From comparisons to the shape of a float *)

Lemma zero_spec : Prim2SF 0 = S754_zero false.
Proof. reflexivity. Qed.

Lemma eqb_zero (x : float) :
  (x =? 0)%float = match Prim2SF x with S754_zero _ => true | _ => false end.
Proof.
  rewrite eqb_spec, zero_spec.
  destruct (Prim2SF x) as [s|[]| |[] m e]; reflexivity.
Qed.

Lemma positive_finite_spec (x : float) :
  positive_finite x -> exists m e, Prim2SF x = S754_finite false m e.
Proof.
  intros [Hpos Hfin]. rewrite ltb_spec, zero_spec in Hpos.
  unfold is_finite, is_nan, is_infinity in Hfin.
  rewrite !eqb_spec, abs_spec in Hfin.
  change (Prim2SF infinity) with (S754_infinity false) in Hfin.
  destruct (Prim2SF x) as [s|[]| |[] m e]; try discriminate.
  now exists m, e.
Qed.

Lemma finite_positive (x : float) (m : positive) (e : Z) :
  Prim2SF x = S754_finite false m e -> positive_finite x.
Proof.
  intros E. split.
  - now rewrite ltb_spec, zero_spec, E.
  - unfold is_finite, is_nan, is_infinity. rewrite !eqb_spec, abs_spec, E.
    change (Prim2SF infinity) with (S754_infinity false).
    unfold SFeqb, SFcompare. cbn [SFabs].
    now rewrite Z.compare_refl, Pos.compare_cont_refl.
Qed.

Lemma is_finite_spec (x : float) :
  is_finite x = true ->
  match Prim2SF x with
  | S754_zero _ | S754_finite _ _ _ => True
  | _ => False
  end.
Proof.
  unfold is_finite, is_nan, is_infinity.
  rewrite !eqb_spec, abs_spec.
  change (Prim2SF infinity) with (S754_infinity false).
  destruct (Prim2SF x) as [s|[]| |[] m e]; try discriminate; trivial.
Qed.

(** Between a positive finite bound and a finite one there are positive
    finite floats only. *)
Lemma between_spec (lo hi x : float) :
  positive_finite lo -> is_finite hi = true ->
  (lo <=? x)%float = true -> (x <=? hi)%float = true ->
  exists m e, Prim2SF x = S754_finite false m e.
Proof.
  intros Hlo Hhi H1 H2.
  destruct (positive_finite_spec lo Hlo) as (m0 & e0 & E0).
  apply is_finite_spec in Hhi.
  rewrite leb_spec in H1, H2. rewrite E0 in H1.
  destruct (Prim2SF x) as [s|[]| |[] m e]; try discriminate.
  - destruct (Prim2SF hi) as [s|[]| |[] m e]; try discriminate; contradiction.
  - now exists m, e.
Qed.

Lemma sign_false_nonneg (x : float) :
  sign_of (Prim2SF x) = Some false -> (0 <=? x)%float = true.
Proof.
  rewrite leb_spec, zero_spec.
  destruct (Prim2SF x) as [s|s| |s m e]; cbn [sign_of]; intros [= ->];
    reflexivity.
Qed.

Lemma sign_true_nonpos (x : float) :
  sign_of (Prim2SF x) = Some true -> (x <=? 0)%float = true.
Proof.
  rewrite leb_spec, zero_spec.
  destruct (Prim2SF x) as [s|s| |s m e]; cbn [sign_of]; intros [= ->];
    reflexivity.
Qed.

(** ** The factors of the score *)

Lemma drivetrain_bonus_spec (c : car) :
  exists m e, Prim2SF (drivetrain_bonus c) = S754_finite false m e.
Proof.
  unfold drivetrain_bonus.
  destruct (String.eqb (DRIVETRAIN c) "4WD"); do 2 eexists; reflexivity.
Qed.

(** A level is a float between 1 and 100. *)
Lemma level_spec (x : float) :
  level x ->
  exists m e, Prim2SF x = S754_finite false m e /\ 1 <= val m e /\ val m e <= 100.
Proof.
  intros [H1 H2].
  destruct (between_spec 1 100 x (finite_positive 1 _ _ eq_refl) eq_refl H1 H2)
    as (m & e & E).
  exists m, e. split; [exact E|].
  pose proof (Prim2SF_valid x) as Hv. rewrite E in Hv.
  rewrite leb_spec, E in H1, H2. split.
  - apply Qle_trans with (val 4503599627370496 (-52));
      [vm_compute; discriminate|].
    apply SFleb_val; [reflexivity | exact Hv | exact H1].
  - apply Qle_trans with (val 7036874417766400 (-46));
      [|vm_compute; discriminate].
    apply SFleb_val; [exact Hv | reflexivity | exact H2].
Qed.

(** Whatever the level, [skill_level - 50] is fifty at most in magnitude,
    [(skill_level - 50) / 50] one at most and
    [(skill_level - 50) / 50 * 0.1] a tenth at most. *)
Lemma skill_centred_small (s : float) :
  level s ->
  SFleb (SFabs (Prim2SF (s - 50)%float))
        (S754_finite false 7036874417766400 (-47)) = true.
Proof.
  intros H. destruct (level_spec _ H) as (m & e & E & Hlo & Hhi).
  rewrite sub_spec, E.
  change (Prim2SF 50) with (S754_finite false 7036874417766400 (-47)).
  destruct (SFsub_finite false m e false 7036874417766400 (-47))
    as (d & -> & Ed).
  cbn [signed] in Ed.
  assert (E50 : val 7036874417766400 (-47) == 50) by reflexivity.
  pose proof (binary_normalize_abs_le d (Z.min e (-47))
                7036874417766400 (-47)) as L.
  replace (binary_round prec emax false 7036874417766400 (-47))
    with (S754_finite false 7036874417766400 (-47)) in L
    by (vm_compute; reflexivity).
  apply L. split; lra.
Qed.

Lemma skill_ratio_small (s : float) :
  level s ->
  SFleb (SFabs (Prim2SF ((s - 50) / 50)%float))
        (S754_finite false 4503599627370496 (-52)) = true.
Proof.
  intros H. rewrite div_spec.
  pose proof (SFdiv_abs_le _ 7036874417766400 (-47) 7036874417766400 (-47)
                (Prim2SF_valid (s - 50)%float) eq_refl eq_refl
                (skill_centred_small s H)) as L.
  replace (SF64div (S754_finite false 7036874417766400 (-47))
                   (S754_finite false 7036874417766400 (-47)))
    with (S754_finite false 4503599627370496 (-52)) in L
    by (vm_compute; reflexivity).
  exact L.
Qed.

Lemma skill_term_small (s : float) :
  level s ->
  SFleb (SFabs (Prim2SF ((s - 50) / 50 * 0.1)%float)) (Prim2SF 0.1) = true.
Proof.
  intros H. rewrite mul_spec.
  pose proof (SFmul_abs_le _ 4503599627370496 (-52) 7205759403792794 (-56)
                (Prim2SF_valid ((s - 50) / 50)%float) eq_refl eq_refl
                (skill_ratio_small s H)) as L.
  replace (SF64mul (S754_finite false 4503599627370496 (-52))
                   (S754_finite false 7205759403792794 (-56)))
    with (Prim2SF 0.1) in L by (vm_compute; reflexivity).
  exact L.
Qed.

Lemma skill_factor_positive (c : car) :
  level (SKILL_LEVEL c) -> positive_finite (skill_factor c).
Proof.
  intros H. unfold skill_factor.
  destruct (one_plus_small _ (Prim2SF_valid _) (skill_term_small _ H))
    as (m & e & E).
  apply (finite_positive _ m e). now rewrite add_spec.
Qed.

Lemma luck_term_small (k : float) :
  level k -> SFleb (SFabs (Prim2SF (k / 1000)%float)) (Prim2SF 0.1) = true.
Proof.
  intros H. destruct (level_spec _ H) as (m & e & E & _).
  destruct H as [_ H]. rewrite leb_spec, E in H.
  rewrite div_spec.
  pose proof (SFdiv_abs_le (Prim2SF k) 7036874417766400 (-46)
                8796093022208000 (-43) (Prim2SF_valid k) eq_refl eq_refl) as L.
  rewrite E in L. specialize (L H). rewrite E.
  replace (SF64div (S754_finite false 7036874417766400 (-46))
                   (S754_finite false 8796093022208000 (-43)))
    with (Prim2SF 0.1) in L by (vm_compute; reflexivity).
  exact L.
Qed.

Lemma luck_bounds_positive (c : car) :
  level (LUCK_LEVEL c) ->
  positive_finite (luck_low c) /\ positive_finite (luck_high c).
Proof.
  intros H. unfold luck_low, luck_high. split.
  - destruct (one_minus_small _ (Prim2SF_valid _) (luck_term_small _ H))
      as (m & e & E).
    apply (finite_positive _ m e). now rewrite sub_spec.
  - destruct (one_plus_small _ (Prim2SF_valid _) (luck_term_small _ H))
      as (m & e & E).
    apply (finite_positive _ m e). now rewrite add_spec.
Qed.

Lemma in_luck_range_spec (c : car) (l : float) :
  level (LUCK_LEVEL c) -> in_luck_range c l ->
  exists m e, Prim2SF l = S754_finite false m e.
Proof.
  intros Hk [H1 H2]. destruct (luck_bounds_positive c Hk) as [Hlo Hhi].
  exact (between_spec _ _ l Hlo (proj2 Hhi) H1 H2).
Qed.

(** The skill factor does not decrease with the skill level. *)
Lemma skill_factor_le (c1 c2 : car) :
  level (SKILL_LEVEL c1) -> level (SKILL_LEVEL c2) ->
  (SKILL_LEVEL c1 <=? SKILL_LEVEL c2)%float = true ->
  (skill_factor c1 <=? skill_factor c2)%float = true.
Proof.
  intros H1 H2 Hle. unfold skill_factor.
  rewrite leb_spec, !add_spec.
  change (Prim2SF 1) with (S754_finite false 4503599627370496 (-52)).
  apply SFadd_le_r; try apply Prim2SF_valid.
  - vm_compute. reflexivity.
  - exact (small_finite_or_zero _ _ _ (skill_term_small _ H1)).
  - exact (small_finite_or_zero _ _ _ (skill_term_small _ H2)).
  - rewrite !mul_spec.
    change (Prim2SF 0.1) with (S754_finite false 7205759403792794 (-56)).
    apply SFmul_signed_le; try apply Prim2SF_valid.
    + exact (small_finite_or_zero _ _ _ (skill_ratio_small _ H1)).
    + exact (small_finite_or_zero _ _ _ (skill_ratio_small _ H2)).
    + reflexivity.
    + rewrite !div_spec.
      change (Prim2SF 50) with (S754_finite false 7036874417766400 (-47)).
      apply SFdiv_signed_le; try apply Prim2SF_valid.
      * exact (small_finite_or_zero _ _ _ (skill_centred_small _ H1)).
      * exact (small_finite_or_zero _ _ _ (skill_centred_small _ H2)).
      * reflexivity.
      * rewrite !sub_spec.
        destruct (level_spec _ H1) as (m1 & e1 & E1 & _).
        destruct (level_spec _ H2) as (m2 & e2 & E2 & _).
        pose proof (Prim2SF_valid (SKILL_LEVEL c1)) as V1.
        pose proof (Prim2SF_valid (SKILL_LEVEL c2)) as V2.
        rewrite leb_spec in Hle. rewrite E1, E2 in *.
        change (Prim2SF 50) with (S754_finite false 7036874417766400 (-47)).
        now apply SFsub_le_l.
Qed.

(** ** The sign of the score and of the time *)

(** The score has the sign of horsepower over weight; the time, when there
    is one, has it too.  The horsepower may be any float but NaN, the weight
    any finite float but zero. *)
Lemma time_taken_sign (c : car) (l : float) (sh sw : bool)
      (mw : positive) (ew : Z) :
  sign_of (Prim2SF (HORSEPOWER c)) = Some sh ->
  Prim2SF (MIN_WEIGHT_KG c) = S754_finite sw mw ew ->
  level (SKILL_LEVEL c) ->
  (exists m e, Prim2SF l = S754_finite false m e) ->
  let score :=
    performance_score c (HORSEPOWER c / MIN_WEIGHT_KG c)%float l in
  sign_of (Prim2SF score) = Some (xorb sh sw) /\
  time_taken c l =
    (if (score =? 0)%float then inl ZeroDivisionError
     else inr (100 / score)%float) /\
  ((score =? 0)%float = false ->
   sign_of (Prim2SF (100 / score)%float) = Some (xorb sh sw)).
Proof.
  intros Hh Hw Hs (ml & el & Hl) score.
  destruct (drivetrain_bonus_spec c) as (mb & eb & Hb).
  destruct (positive_finite_spec _ (skill_factor_positive c Hs))
    as (mk & ek & Hk).
  assert (Hscore : sign_of (Prim2SF score) = Some (xorb sh sw)).
  { unfold score, performance_score. rewrite !mul_spec, div_spec.
    rewrite Hw, Hb, Hk, Hl.
    pose proof (SFdiv_sign _ sh sw mw ew Hh) as H0.
    pose proof (SFmul_sign _ _ false mb eb H0) as H1.
    pose proof (SFmul_sign _ _ false mk ek H1) as H2.
    pose proof (SFmul_sign _ _ false ml el H2) as H3.
    now rewrite !xorb_false_r in H3. }
  split; [exact Hscore|]. split.
  - unfold time_taken, power_to_weight, py_div at 1.
    rewrite eqb_zero, Hw. reflexivity.
  - intros Hz. rewrite div_spec.
    change (Prim2SF 100) with (S754_finite false 7036874417766400 (-46)).
    rewrite eqb_zero in Hz.
    rewrite (SFdiv_by_sign _ false (xorb sh sw) _ _ Hscore).
    + reflexivity.
    + destruct (Prim2SF score) as [s|[]| |[] m e]; try discriminate; reflexivity.
Qed.

(** C8 (as amended). For a valid entrant (horsepower and weight positive
    and finite, skill and luck levels from 1 to 100) and a luck factor
    between [1 - luck_level/1000] and [1 + luck_level/1000], the score is
    never negative and never NaN, and the time is strictly positive whenever
    the score is a finite number other than zero.  A score that has rounded
    to zero makes line 166 raise ZeroDivisionError, and there is no time; a
    score that has overflowed to infinity gives the time 0.0. *)
Theorem time_taken_positive_unless_rounded (c : car) (l : float) :
  valid_entrant c -> in_luck_range c l ->
  let score :=
    performance_score c (HORSEPOWER c / MIN_WEIGHT_KG c)%float l in
  (0 <=? score)%float = true /\
  ((score =? 0)%float = true -> time_taken c l = inl ZeroDivisionError) /\
  ((score =? infinity)%float = true -> time_taken c l = inr 0%float) /\
  ((0 <? score)%float = true -> (score <? infinity)%float = true ->
   time_taken c l = inr (100 / score)%float /\
   (0 <? 100 / score)%float = true).
Proof.
  intros (Hh & Hw & Hs & Hk) Hl score.
  destruct (positive_finite_spec _ Hh) as (mh & eh & Eh).
  destruct (positive_finite_spec _ Hw) as (mw & ew & Ew).
  assert (Hsh : sign_of (Prim2SF (HORSEPOWER c)) = Some false)
    by now rewrite Eh.
  destruct (time_taken_sign c l false false mw ew Hsh Ew Hs
              (in_luck_range_spec c l Hk Hl)) as (H1 & H2 & _).
  fold score in H1, H2. cbn [xorb] in H1.
  split; [now apply sign_false_nonneg|]. split; [|split].
  - intros Hz. now rewrite H2, Hz.
  - intros Hinf. rewrite H2. rewrite eqb_spec in Hinf.
    change (Prim2SF infinity) with (S754_infinity false) in Hinf.
    rewrite eqb_zero.
    destruct (Prim2SF score) as [s|[]| |[] m e] eqn:E; try discriminate.
    f_equal. apply Prim2SF_inj. rewrite div_spec, E. reflexivity.
  - intros Hpos Hfin. rewrite H2, eqb_zero.
    rewrite ltb_spec, zero_spec in Hpos. rewrite ltb_spec in Hfin.
    change (Prim2SF infinity) with (S754_infinity false) in Hfin.
    pose proof (Prim2SF_valid score) as Hv.
    destruct (Prim2SF score) as [s|[]| |[] m e] eqn:E; try discriminate.
    split; [reflexivity|].
    rewrite ltb_spec, zero_spec, div_spec, E.
    change (Prim2SF 100) with (S754_finite false 7036874417766400 (-46)).
    pose proof (hundred_over_finite false m e Hv) as H.
    destruct (SF64div _ _) as [s|s| |s m' e']; try contradiction;
      subst s; reflexivity.
Qed.

(** C2 (as amended). The handler has no InvalidEntrant error.  For an
    entrant whose horsepower or minimum weight is not positive (both finite,
    skill level from 1 to 100, luck factor positive and finite): when
    either is zero the formula raises ZeroDivisionError and no time is
    computed; when neither is, the formula is evaluated all the same, and
    unless the score has rounded to zero (ZeroDivisionError again) a time is
    computed, never positive when exactly one of the two is negative and
    never negative when both are. *)
Theorem non_positive_entrant (c : car) (l : float) :
  (HORSEPOWER c <=? 0)%float = true \/ (MIN_WEIGHT_KG c <=? 0)%float = true ->
  is_finite (HORSEPOWER c) = true -> is_finite (MIN_WEIGHT_KG c) = true ->
  level (SKILL_LEVEL c) -> positive_finite l ->
  ((HORSEPOWER c =? 0)%float = true \/ (MIN_WEIGHT_KG c =? 0)%float = true ->
   time_taken c l = inl ZeroDivisionError) /\
  ((HORSEPOWER c =? 0)%float = false -> (MIN_WEIGHT_KG c =? 0)%float = false ->
   let score :=
     performance_score c (HORSEPOWER c / MIN_WEIGHT_KG c)%float l in
   time_taken c l =
     (if (score =? 0)%float then inl ZeroDivisionError
      else inr (100 / score)%float) /\
   forall t, time_taken c l = inr t ->
     if xorb (HORSEPOWER c <? 0)%float (MIN_WEIGHT_KG c <? 0)%float
     then (t <=? 0)%float = true /\
          (is_finite score = true -> (t <? 0)%float = true)
     else (0 <=? t)%float = true /\
          (is_finite score = true -> (0 <? t)%float = true)).
Proof.
  intros _ Hh Hw Hs Hl.
  apply is_finite_spec in Hh. apply is_finite_spec in Hw.
  pose proof (positive_finite_spec l Hl) as Hl'.
  split.
  - intros Hz. rewrite !eqb_zero in Hz.
    unfold time_taken, power_to_weight, py_div at 1. rewrite eqb_zero.
    destruct (Prim2SF (MIN_WEIGHT_KG c)) as [sw|sw| |sw mw ew] eqn:Ew;
      try contradiction; [reflexivity|].
    destruct (Prim2SF (HORSEPOWER c)) as [sh|sh| |sh mh eh] eqn:Eh;
      try contradiction.
    2:{ destruct Hz; discriminate. }
    unfold finish, py_div, performance_score.
    destruct (drivetrain_bonus_spec c) as (mb & eb & Hb).
    destruct (positive_finite_spec _ (skill_factor_positive c Hs))
      as (mk & ek & Hk).
    destruct Hl' as (ml & el & El).
    rewrite eqb_zero, !mul_spec, div_spec, Eh, Ew, Hb, Hk, El. reflexivity.
  - intros Hzh Hzw score. rewrite eqb_zero in Hzh, Hzw.
    destruct (Prim2SF (MIN_WEIGHT_KG c)) as [sw|sw| |sw mw ew] eqn:Ew;
      try contradiction; try discriminate.
    destruct (Prim2SF (HORSEPOWER c)) as [sh|sh| |sh mh eh] eqn:Eh;
      try contradiction; try discriminate.
    assert (Hsh : sign_of (Prim2SF (HORSEPOWER c)) = Some sh)
      by now rewrite Eh.
    destruct (time_taken_sign c l sh sw mw ew Hsh Ew Hs Hl') as (_ & H2 & H3).
    fold score in H2, H3. split; [exact H2|].
    intros t Ht. rewrite H2 in Ht.
    destruct (score =? 0)%float eqn:Ez; [discriminate|]. injection Ht as <-.
    specialize (H3 eq_refl).
    rewrite !ltb_spec, zero_spec, Eh, Ew.
    replace (SFltb (S754_finite sh mh eh) (S754_zero false)) with sh
      by now destruct sh.
    replace (SFltb (S754_finite sw mw ew) (S754_zero false)) with sw
      by now destruct sw.
    assert (Hstrict : is_finite score = true ->
              match Prim2SF (100 / score)%float with
              | S754_finite s' _ _ | S754_infinity s' => s' = xorb sh sw
              | _ => False
              end).
    { intros Hfin. apply is_finite_spec in Hfin. rewrite eqb_zero in Ez.
      pose proof (Prim2SF_valid score) as Hv.
      destruct (time_taken_sign c l sh sw mw ew Hsh Ew Hs Hl') as (Hsg & _).
      fold score in Hsg. rewrite div_spec.
      change (Prim2SF 100) with (S754_finite false 7036874417766400 (-46)).
      destruct (Prim2SF score) as [s|s| |s m e]; try contradiction;
        try discriminate.
      cbn [sign_of] in Hsg. injection Hsg as <-.
      exact (hundred_over_finite s m e Hv). }
    destruct (xorb sh sw).
    + split; [now apply sign_true_nonpos|]. intros Hfin.
      specialize (Hstrict Hfin).
      destruct (Prim2SF (100 / score)%float) as [s|s| |s m e];
        try contradiction; subst s; reflexivity.
    + split; [now apply sign_false_nonneg|]. intros Hfin.
      specialize (Hstrict Hfin).
      destruct (Prim2SF (100 / score)%float) as [s|s| |s m e];
        try contradiction; subst s; reflexivity.
Qed.

(** ** The time against horsepower and weight *)

(** Neither NaN nor negative. *)
Definition nonneg (x : float) : Prop := sign_of (Prim2SF x) = Some false.

Lemma mul_le (x x' c c' : float) :
  nonneg x -> nonneg x' -> positive_finite c -> positive_finite c' ->
  (x <=? x')%float = true -> (c <=? c')%float = true ->
  (x * c <=? x' * c')%float = true /\ nonneg (x * c) /\ nonneg (x' * c').
Proof.
  intros Hx Hx' Hc Hc' Hle Hlec. unfold nonneg.
  destruct (positive_finite_spec c Hc) as (m & e & Ec).
  destruct (positive_finite_spec c' Hc') as (m' & e' & Ec').
  rewrite leb_spec in *. rewrite !mul_spec, Ec, Ec' in *.
  pose proof (Prim2SF_valid c) as Vc. rewrite Ec in Vc.
  pose proof (Prim2SF_valid c') as Vc'. rewrite Ec' in Vc'.
  split; [|split].
  - apply SFmul_le; auto using Prim2SF_valid.
  - exact (SFmul_sign _ false false m e Hx).
  - exact (SFmul_sign _ false false m' e' Hx').
Qed.

Lemma positive_finite_nonneg (x : float) : positive_finite x -> nonneg x.
Proof.
  intros H. destruct (positive_finite_spec x H) as (m & e & E).
  unfold nonneg. now rewrite E.
Qed.

Lemma leb_refl (x : float) : nonneg x -> (x <=? x)%float = true.
Proof.
  unfold nonneg. rewrite leb_spec.
  destruct (Prim2SF x) as [s|s| |s m e]; cbn [sign_of]; intros [= ->];
    try reflexivity.
  unfold SFleb, SFcompare. now rewrite Z.compare_refl, Pos.compare_cont_refl.
Qed.

Lemma drivetrain_bonus_positive (c : car) : positive_finite (drivetrain_bonus c).
Proof.
  unfold drivetrain_bonus.
  destruct (String.eqb (DRIVETRAIN c) "4WD"); split; reflexivity.
Qed.

(** The score does not decrease when its factors do not. *)
Lemma performance_score_le (c1 c2 : car) (l1 l2 pw1 pw2 : float) :
  (drivetrain_bonus c1 <=? drivetrain_bonus c2)%float = true ->
  positive_finite (skill_factor c1) -> positive_finite (skill_factor c2) ->
  (skill_factor c1 <=? skill_factor c2)%float = true ->
  positive_finite l1 -> positive_finite l2 -> (l1 <=? l2)%float = true ->
  nonneg pw1 -> nonneg pw2 -> (pw1 <=? pw2)%float = true ->
  (performance_score c1 pw1 l1 <=? performance_score c2 pw2 l2)%float = true.
Proof.
  intros Hb K1 K2 Hk L1 L2 Hl H1 H2 Hle. unfold performance_score.
  destruct (mul_le pw1 pw2 _ _ H1 H2 (drivetrain_bonus_positive c1)
              (drivetrain_bonus_positive c2) Hle Hb) as (A & A1 & A2).
  destruct (mul_le _ _ _ _ A1 A2 K1 K2 A Hk) as (B & B1 & B2).
  destruct (mul_le _ _ _ _ B1 B2 L1 L2 B Hl) as (C & _). exact C.
Qed.

(** Of two scores, the larger gives a time whenever the smaller does, and
    not a larger one. *)
Lemma finish_le (s1 s2 : float) :
  nonneg s1 -> nonneg s2 -> (s1 <=? s2)%float = true ->
  forall t1,
    (if (s1 =? 0)%float then inl ZeroDivisionError else inr (100 / s1)%float)
    = inr t1 ->
    exists t2,
      (if (s2 =? 0)%float then inl ZeroDivisionError else inr (100 / s2)%float)
      = inr t2 /\ (t2 <=? t1)%float = true.
Proof.
  unfold nonneg. intros H1 H2 Hle t1 Ht1.
  rewrite leb_spec in Hle. rewrite eqb_zero in Ht1. rewrite eqb_zero.
  pose proof (Prim2SF_valid s1) as V1. pose proof (Prim2SF_valid s2) as V2.
  assert (Z1 : SFeqb (Prim2SF s1) (S754_zero false) = false).
  { destruct (Prim2SF s1) as [s|s| |s m e]; cbn [sign_of] in H1;
      try discriminate; injection H1 as ->; reflexivity. }
  assert (Z2 : SFeqb (Prim2SF s2) (S754_zero false) = false).
  { destruct (Prim2SF s2) as [s|s| |s m e]; cbn [sign_of] in H2;
      try discriminate; injection H2 as ->; try reflexivity.
    destruct (Prim2SF s1) as [s|s| |s m e]; cbn [sign_of] in H1;
      try discriminate; injection H1 as ->; discriminate. }
  exists (100 / s2)%float. split.
  - destruct (Prim2SF s2) as [s|s| |s m e]; try reflexivity. discriminate Z2.
  - assert (E : t1 = (100 / s1)%float).
    { destruct (Prim2SF s1) as [s|s| |s m e]; try discriminate Z1;
        now injection Ht1. }
    subst t1. rewrite leb_spec, !div_spec.
    change (Prim2SF 100) with (S754_finite false 7036874417766400 (-46)).
    now apply SFdiv_le_by.
Qed.

(** Of two valid entrants, when no factor of the score of the second is
    smaller than that of the first, the second has a time whenever the first
    has, and not a larger one. *)
Lemma no_factor_smaller (c1 c2 : car) (l1 l2 : float) :
  valid_entrant c1 -> valid_entrant c2 ->
  positive_finite l1 -> positive_finite l2 ->
  (HORSEPOWER c1 / MIN_WEIGHT_KG c1 <=? HORSEPOWER c2 / MIN_WEIGHT_KG c2)%float
  = true ->
  (drivetrain_bonus c1 <=? drivetrain_bonus c2)%float = true ->
  (skill_factor c1 <=? skill_factor c2)%float = true ->
  (l1 <=? l2)%float = true ->
  forall t1, time_taken c1 l1 = inr t1 ->
  exists t2, time_taken c2 l2 = inr t2 /\ (t2 <=? t1)%float = true.
Proof.
  intros (Hh1 & Hw1 & Hs1 & Hk1) (Hh2 & Hw2 & Hs2 & Hk2) L1 L2 Hpw Hb Hk Hl.
  destruct (positive_finite_spec _ Hw1) as (mw1 & ew1 & Ew1).
  destruct (positive_finite_spec _ Hw2) as (mw2 & ew2 & Ew2).
  pose proof (positive_finite_nonneg _ Hh1) as Sh1.
  pose proof (positive_finite_nonneg _ Hh2) as Sh2.
  destruct (time_taken_sign c1 l1 false false mw1 ew1 Sh1 Ew1 Hs1
              (positive_finite_spec _ L1)) as (N1 & T1 & _).
  destruct (time_taken_sign c2 l2 false false mw2 ew2 Sh2 Ew2 Hs2
              (positive_finite_spec _ L2)) as (N2 & T2 & _).
  cbn [xorb] in N1, N2.
  assert (P1 : nonneg (HORSEPOWER c1 / MIN_WEIGHT_KG c1)%float).
  { unfold nonneg. rewrite div_spec, Ew1.
    exact (SFdiv_sign _ false false mw1 ew1 Sh1). }
  assert (P2 : nonneg (HORSEPOWER c2 / MIN_WEIGHT_KG c2)%float).
  { unfold nonneg. rewrite div_spec, Ew2.
    exact (SFdiv_sign _ false false mw2 ew2 Sh2). }
  rewrite T1, T2. apply finish_le; try assumption.
  apply performance_score_le; try assumption;
    now apply skill_factor_positive.
Qed.

Lemma in_luck_range_positive (c : car) (l : float) :
  level (LUCK_LEVEL c) -> in_luck_range c l -> positive_finite l.
Proof.
  intros Hk Hl. destruct (in_luck_range_spec c l Hk Hl) as (m & e & E).
  exact (finite_positive l m e E).
Qed.

Lemma power_to_weight_le_l (h h' w : float) :
  positive_finite h -> positive_finite h' -> positive_finite w ->
  (h <=? h')%float = true -> (h / w <=? h' / w)%float = true.
Proof.
  intros Hh Hh' Hw Hle.
  destruct (positive_finite_spec _ Hh) as (m & e & E).
  destruct (positive_finite_spec _ Hh') as (m' & e' & E').
  destruct (positive_finite_spec _ Hw) as (mw & ew & Ew).
  pose proof (Prim2SF_valid h) as V. pose proof (Prim2SF_valid h') as V'.
  pose proof (Prim2SF_valid w) as Vw.
  rewrite leb_spec in *. rewrite !div_spec. rewrite E, E', Ew in *.
  now apply SFdiv_le_l.
Qed.

Lemma power_to_weight_le_r (h w w' : float) :
  positive_finite h -> positive_finite w -> positive_finite w' ->
  (w <=? w')%float = true -> (h / w' <=? h / w)%float = true.
Proof.
  intros Hh Hw Hw' Hle.
  destruct (positive_finite_spec _ Hh) as (m & e & E).
  destruct (positive_finite_spec _ Hw) as (mw & ew & Ew).
  destruct (positive_finite_spec _ Hw') as (mw' & ew' & Ew').
  pose proof (Prim2SF_valid h) as V. pose proof (Prim2SF_valid w) as Vw.
  pose proof (Prim2SF_valid w') as Vw'.
  rewrite leb_spec in *. rewrite !div_spec. rewrite E, Ew, Ew' in *.
  now apply SFdiv_le_r.
Qed.

(** C9 (as amended). With the drivetrain, the skill level and the luck
    factor held fixed and all inputs valid, the time does not increase with
    the horsepower and does not decrease with the weight: of two entrants of
    the same weight, the one with the larger horsepower has a time whenever
    the other has, and not a larger one; of two entrants of the same
    horsepower, the lighter has a time whenever the heavier has, and not a
    larger one. *)
Theorem time_taken_monotone (c1 c2 : car) (l : float) :
  valid_entrant c1 -> valid_entrant c2 -> in_luck_range c1 l ->
  DRIVETRAIN c1 = DRIVETRAIN c2 -> SKILL_LEVEL c1 = SKILL_LEVEL c2 ->
  (MIN_WEIGHT_KG c1 = MIN_WEIGHT_KG c2 ->
   (HORSEPOWER c1 <=? HORSEPOWER c2)%float = true ->
   forall t1, time_taken c1 l = inr t1 ->
   exists t2, time_taken c2 l = inr t2 /\ (t2 <=? t1)%float = true) /\
  (HORSEPOWER c1 = HORSEPOWER c2 ->
   (MIN_WEIGHT_KG c1 <=? MIN_WEIGHT_KG c2)%float = true ->
   forall t2, time_taken c2 l = inr t2 ->
   exists t1, time_taken c1 l = inr t1 /\ (t1 <=? t2)%float = true).
Proof.
  intros V1 V2 Hl Hd Hs.
  pose proof V1 as (Hh1 & Hw1 & Hs1 & Hk1).
  pose proof V2 as (Hh2 & Hw2 & Hs2 & Hk2).
  pose proof (in_luck_range_positive c1 l Hk1 Hl) as L.
  assert (Eb : drivetrain_bonus c1 = drivetrain_bonus c2)
    by (unfold drivetrain_bonus; now rewrite Hd).
  assert (Ek : skill_factor c1 = skill_factor c2)
    by (unfold skill_factor; now rewrite Hs).
  pose proof (leb_refl _ (positive_finite_nonneg _ (drivetrain_bonus_positive c1))) as Rb.
  pose proof (leb_refl _ (positive_finite_nonneg _ (skill_factor_positive c1 Hs1))) as Rk.
  pose proof (leb_refl _ (positive_finite_nonneg _ L)) as Rl.
  split.
  - intros Ew Hle. apply no_factor_smaller; try assumption.
    + rewrite <- Ew. now apply power_to_weight_le_l.
    + now rewrite <- Eb.
    + now rewrite <- Ek.
  - intros Eh Hle. apply no_factor_smaller; try assumption.
    + rewrite <- Eh. now apply power_to_weight_le_r.
    + now rewrite <- Eb.
    + now rewrite <- Ek.
Qed.

(** ** The time against skill, drivetrain and luck *)

(** X1. With horsepower, weight, drivetrain and luck factor held fixed and
    all inputs valid, a higher skill level never gives a larger time: the
    more skilled driver has a time whenever the other has, and not a larger
    one. *)
Theorem time_taken_not_increasing_in_skill (c1 c2 : car) (l : float) :
  valid_entrant c1 -> valid_entrant c2 -> in_luck_range c1 l ->
  HORSEPOWER c1 = HORSEPOWER c2 -> MIN_WEIGHT_KG c1 = MIN_WEIGHT_KG c2 ->
  DRIVETRAIN c1 = DRIVETRAIN c2 ->
  (SKILL_LEVEL c1 <=? SKILL_LEVEL c2)%float = true ->
  forall t1, time_taken c1 l = inr t1 ->
  exists t2, time_taken c2 l = inr t2 /\ (t2 <=? t1)%float = true.
Proof.
  intros V1 V2 Hl Eh Ew Hd Hs.
  pose proof V1 as (Hh1 & Hw1 & Hs1 & Hk1).
  pose proof V2 as (Hh2 & Hw2 & Hs2 & Hk2).
  pose proof (in_luck_range_positive c1 l Hk1 Hl) as L.
  apply no_factor_smaller; try assumption.
  - rewrite <- Eh, <- Ew. apply leb_refl.
    destruct (positive_finite_spec _ Hw1) as (mw & ew & E).
    unfold nonneg. rewrite div_spec, E.
    exact (SFdiv_sign _ false false mw ew (positive_finite_nonneg _ Hh1)).
  - unfold drivetrain_bonus. rewrite <- Hd.
    apply (leb_refl _ (positive_finite_nonneg _ (drivetrain_bonus_positive c1))).
  - now apply skill_factor_le.
  - apply (leb_refl _ (positive_finite_nonneg _ L)).
Qed.

(** X2. Between two valid entrants alike in horsepower, weight, skill level
    and luck factor, the one with the "4WD" drivetrain is never the slower:
    it has a time whenever the other has, and not a larger one. *)
Theorem four_wheel_drive_never_slower (c1 c2 : car) (l : float) :
  valid_entrant c1 -> valid_entrant c2 -> in_luck_range c1 l ->
  HORSEPOWER c1 = HORSEPOWER c2 -> MIN_WEIGHT_KG c1 = MIN_WEIGHT_KG c2 ->
  SKILL_LEVEL c1 = SKILL_LEVEL c2 ->
  DRIVETRAIN c1 <> "4WD" -> DRIVETRAIN c2 = "4WD" ->
  forall t1, time_taken c1 l = inr t1 ->
  exists t2, time_taken c2 l = inr t2 /\ (t2 <=? t1)%float = true.
Proof.
  intros V1 V2 Hl Eh Ew Es D1 D2.
  pose proof V1 as (Hh1 & Hw1 & Hs1 & Hk1).
  pose proof V2 as (Hh2 & Hw2 & Hs2 & Hk2).
  pose proof (in_luck_range_positive c1 l Hk1 Hl) as L.
  apply no_factor_smaller; try assumption.
  - rewrite <- Eh, <- Ew. apply leb_refl.
    destruct (positive_finite_spec _ Hw1) as (mw & ew & E).
    unfold nonneg. rewrite div_spec, E.
    exact (SFdiv_sign _ false false mw ew (positive_finite_nonneg _ Hh1)).
  - unfold drivetrain_bonus. rewrite D2. apply String.eqb_neq in D1.
    rewrite D1. reflexivity.
  - unfold skill_factor. rewrite <- Es.
    apply (leb_refl _ (positive_finite_nonneg _ (skill_factor_positive c1 Hs1))).
  - apply (leb_refl _ (positive_finite_nonneg _ L)).
Qed.

(** X3. For a valid entrant a larger luck factor never gives a larger
    time: of two luck factors of the range, the larger gives a time whenever
    the smaller does, and not a larger one. *)
Theorem time_taken_not_increasing_in_luck (c : car) (l1 l2 : float) :
  valid_entrant c -> in_luck_range c l1 -> in_luck_range c l2 ->
  (l1 <=? l2)%float = true ->
  forall t1, time_taken c l1 = inr t1 ->
  exists t2, time_taken c l2 = inr t2 /\ (t2 <=? t1)%float = true.
Proof.
  intros V H1 H2 Hle.
  pose proof V as (Hh & Hw & Hs & Hk).
  pose proof (in_luck_range_positive c l1 Hk H1) as L1.
  pose proof (in_luck_range_positive c l2 Hk H2) as L2.
  apply no_factor_smaller; try assumption.
  - apply leb_refl.
    destruct (positive_finite_spec _ Hw) as (mw & ew & E).
    unfold nonneg. rewrite div_spec, E.
    exact (SFdiv_sign _ false false mw ew (positive_finite_nonneg _ Hh)).
  - apply (leb_refl _ (positive_finite_nonneg _ (drivetrain_bonus_positive c))).
  - apply (leb_refl _ (positive_finite_nonneg _ (skill_factor_positive c Hs))).
Qed.

(** ** Entrants whose score neither underflows nor overflows *)

Lemma SFsub_le_r (mc : positive) (ec : Z) (y y' : spec_float) :
  binary_normalize prec emax (Zpos mc) ec false = S754_finite false mc ec ->
  valid_binary y = true -> valid_binary y' = true ->
  finite_or_zero y -> finite_or_zero y' ->
  SFleb y y' = true ->
  SFleb (SF64sub (S754_finite false mc ec) y')
        (SF64sub (S754_finite false mc ec) y) = true.
Proof.
  intros N Hv Hv' F F' Hle.
  destruct y as [s|s| |s m e]; try contradiction;
    destruct y' as [s'|s'| |s' m' e']; try contradiction.
  - apply SFleb_refl_finite.
  - destruct s'; [destruct s; discriminate Hle|].
    replace (SF64sub (S754_finite false mc ec) (S754_zero s))
      with (S754_finite false mc ec) by reflexivity.
    destruct (SFsub_finite false mc ec false m' e') as (d' & -> & Ed').
    rewrite <- N. apply binary_normalize_le. rewrite Ed'. cbn [signed].
    pose proof (val_pos m' e'). unfold val in *. lra.
  - destruct s; [|destruct s'; discriminate Hle].
    replace (SF64sub (S754_finite false mc ec) (S754_zero s'))
      with (S754_finite false mc ec) by reflexivity.
    destruct (SFsub_finite false mc ec true m e) as (d & -> & Ed).
    rewrite <- N. apply binary_normalize_le. rewrite Ed. cbn [signed].
    pose proof (val_pos m e). unfold val in *. lra.
  - pose proof (SFleb_signed_val _ _ _ _ _ _ Hv Hv' Hle) as Hs.
    destruct (SFsub_finite false mc ec s m e) as (d & -> & Ed).
    destruct (SFsub_finite false mc ec s' m' e') as (d' & -> & Ed').
    apply binary_normalize_le. rewrite Ed, Ed'. lra.
Qed.

Lemma leb_trans (x y z : float) :
  positive_finite x -> positive_finite y -> positive_finite z ->
  (x <=? y)%float = true -> (y <=? z)%float = true ->
  (x <=? z)%float = true.
Proof.
  intros Hx Hy Hz. rewrite !leb_spec.
  destruct (positive_finite_spec _ Hx) as (m1 & e1 & ->).
  destruct (positive_finite_spec _ Hy) as (m2 & e2 & ->).
  destruct (positive_finite_spec _ Hz) as (m3 & e3 & ->).
  unfold SFleb, SFcompare.
  change (Pos.compare_cont Eq m1 m2) with (Pos.compare m1 m2).
  change (Pos.compare_cont Eq m2 m3) with (Pos.compare m2 m3).
  change (Pos.compare_cont Eq m1 m3) with (Pos.compare m1 m3).
  destruct (Z.compare_spec e1 e2), (Z.compare_spec e2 e3),
    (Z.compare_spec e1 e3); try lia; try reflexivity; try discriminate;
    destruct (Pos.compare_spec m1 m2), (Pos.compare_spec m2 m3),
      (Pos.compare_spec m1 m3); try lia; try reflexivity; discriminate.
Qed.

(** The luck factor of a valid entrant is between [1 - 0.1] and
    [1 + 0.1]. *)
Lemma luck_term_le (k : float) :
  level k ->
  finite_or_zero (Prim2SF (k / 1000)%float) /\
  SFleb (Prim2SF (k / 1000)%float) (Prim2SF 0.1) = true.
Proof.
  intros H. pose proof (luck_term_small k H) as S.
  split; [exact (small_finite_or_zero _ _ _ S)|].
  destruct (level_spec _ H) as (m & e & E & _).
  rewrite SFabs_nonneg in S; [exact S|].
  rewrite div_spec, E. apply (SFdiv_sign _ false false). reflexivity.
Qed.

Lemma luck_low_ge (c : car) :
  level (LUCK_LEVEL c) -> (1 - 0.1 <=? luck_low c)%float = true.
Proof.
  intros H. destruct (luck_term_le _ H) as [F L].
  unfold luck_low. rewrite leb_spec, !sub_spec.
  change (Prim2SF 1) with (S754_finite false 4503599627370496 (-52)).
  apply SFsub_le_r; try apply Prim2SF_valid; try assumption.
  - vm_compute. reflexivity.
  - exact I.
Qed.

Lemma luck_high_le (c : car) :
  level (LUCK_LEVEL c) -> (luck_high c <=? 1 + 0.1)%float = true.
Proof.
  intros H. destruct (luck_term_le _ H) as [F L].
  unfold luck_high. rewrite leb_spec, !add_spec.
  change (Prim2SF 1) with (S754_finite false 4503599627370496 (-52)).
  apply SFadd_le_r; try apply Prim2SF_valid; try assumption.
  - vm_compute. reflexivity.
  - exact I.
Qed.

Lemma in_luck_range_bounds (c : car) (l : float) :
  level (LUCK_LEVEL c) -> in_luck_range c l ->
  (1 - 0.1 <=? l)%float = true /\ (l <=? 1 + 0.1)%float = true.
Proof.
  intros Hk Hl. pose proof (in_luck_range_positive c l Hk Hl) as L.
  destruct (luck_bounds_positive c Hk) as [Plo Phi].
  destruct Hl as [H1 H2]. split.
  - apply leb_trans with (y := luck_low c); try assumption.
    + split; reflexivity.
    + now apply luck_low_ge.
  - apply leb_trans with (y := luck_high c); try assumption.
    + split; reflexivity.
    + now apply luck_high_le.
Qed.

(** The entrants with the smallest and with the largest factors. *)
Definition slowest : car :=
  {| HORSEPOWER := 1; DRIVETRAIN := "FWD"; MIN_WEIGHT_KG := 1;
     SKILL_LEVEL := 1; LUCK_LEVEL := 100 |}.

Definition fastest : car :=
  {| HORSEPOWER := 1; DRIVETRAIN := "4WD"; MIN_WEIGHT_KG := 1;
     SKILL_LEVEL := 100; LUCK_LEVEL := 100 |}.

Lemma drivetrain_bonus_bounds (c : car) :
  (drivetrain_bonus slowest <=? drivetrain_bonus c)%float = true /\
  (drivetrain_bonus c <=? drivetrain_bonus fastest)%float = true.
Proof.
  unfold drivetrain_bonus at 2 3.
  destruct (String.eqb (DRIVETRAIN c) "4WD"); split; reflexivity.
Qed.

(** The score of a valid entrant is between the scores of the slowest and
    of the fastest entrant of two power to weight ratios that enclose its
    own. *)
Lemma performance_score_bounds (c : car) (l lo hi : float) :
  valid_entrant c -> in_luck_range c l ->
  positive_finite lo -> positive_finite hi ->
  (lo <=? HORSEPOWER c / MIN_WEIGHT_KG c)%float = true ->
  (HORSEPOWER c / MIN_WEIGHT_KG c <=? hi)%float = true ->
  let score := performance_score c (HORSEPOWER c / MIN_WEIGHT_KG c)%float l in
  (performance_score slowest lo (1 - 0.1) <=? score)%float = true /\
  (score <=? performance_score fastest hi (1 + 0.1))%float = true.
Proof.
  intros (Hh & Hw & Hs & Hk) Hl Plo Phi Hlo Hhi score.
  pose proof (in_luck_range_positive c l Hk Hl) as L.
  destruct (in_luck_range_bounds c l Hk Hl) as [L1 L2].
  destruct (drivetrain_bonus_bounds c) as [B1 B2].
  assert (S1 : level (SKILL_LEVEL slowest)) by (split; reflexivity).
  assert (S2 : level (SKILL_LEVEL fastest)) by (split; reflexivity).
  assert (P : nonneg (HORSEPOWER c / MIN_WEIGHT_KG c)%float).
  { destruct (positive_finite_spec _ Hw) as (mw & ew & E).
    unfold nonneg. rewrite div_spec, E.
    exact (SFdiv_sign _ false false mw ew (positive_finite_nonneg _ Hh)). }
  split; apply performance_score_le; try assumption;
    try (now apply skill_factor_positive);
    try (now apply positive_finite_nonneg);
    try (split; reflexivity).
  - apply skill_factor_le; try assumption. exact (proj1 Hs).
  - apply skill_factor_le; try assumption. exact (proj2 Hs).
Qed.

(** X10. A valid entrant whose power to weight ratio, as line 160 computes
    it, is between 1e-300 and 1e300 always has a time: lines 160-166 raise
    nothing, and the time is strictly positive and finite. *)
Theorem moderate_entrant_is_timed (c : car) (l : float) :
  valid_entrant c -> in_luck_range c l ->
  (1e-300 <=? HORSEPOWER c / MIN_WEIGHT_KG c)%float = true ->
  (HORSEPOWER c / MIN_WEIGHT_KG c <=? 1e300)%float = true ->
  exists t, time_taken c l = inr t /\
            (0 <? t)%float = true /\ is_finite t = true.
Proof.
  intros V Hl Hlo Hhi.
  assert (Plo : positive_finite 1e-300) by (split; reflexivity).
  assert (Phi : positive_finite 1e300) by (split; reflexivity).
  destruct (performance_score_bounds c l _ _ V Hl Plo Phi Hlo Hhi) as [B1 B2].
  destruct V as (Hh & Hw & Hs & Hk).
  destruct (positive_finite_spec _ Hw) as (mw & ew & Ew).
  destruct (time_taken_sign c l false false mw ew
              (positive_finite_nonneg _ Hh) Ew Hs
              (in_luck_range_spec c l Hk Hl)) as (N & T & _).
  cbn [xorb] in N. rewrite T.
  set (score := performance_score c (HORSEPOWER c / MIN_WEIGHT_KG c)%float l)
    in *.
  set (s_lo := performance_score slowest 1e-300 (1 - 0.1)) in *.
  set (s_hi := performance_score fastest 1e300 (1 + 0.1)) in *.
  assert (N1 : nonneg s_lo) by reflexivity.
  assert (N2 : nonneg s_hi) by reflexivity.
  destruct (finish_le s_lo score N1 N B1 (100 / s_lo)%float eq_refl)
    as (t & Ht & Hle).
  destruct (finish_le score s_hi N N2 B2 t Ht) as (t' & Ht' & Hle').
  assert (E' : t' = (100 / s_hi)%float) by (now injection Ht' as <-).
  subst t'. exists t. split; [exact Ht|].
  assert (P : positive_finite (100 / s_hi)%float) by (split; reflexivity).
  destruct (between_spec (100 / s_hi) (100 / s_lo) t P eq_refl Hle' Hle)
    as (m & e & E).
  exact (finite_positive t m e E).
Qed.

(** ** The formula at work *)

Definition quattro : car :=
  {| HORSEPOWER := 200; DRIVETRAIN := "4WD"; MIN_WEIGHT_KG := 1000;
     SKILL_LEVEL := 50; LUCK_LEVEL := 50 |}.

(** A car whose horsepower was entered with the wrong sign. *)
Definition reversed : car :=
  {| HORSEPOWER := -200; DRIVETRAIN := "4WD"; MIN_WEIGHT_KG := 1000;
     SKILL_LEVEL := 50; LUCK_LEVEL := 50 |}.

(** A valid entrant whose power to weight ratio underflows, and one whose
    ratio overflows. *)
Definition featherweight : car :=
  {| HORSEPOWER := 1e308; DRIVETRAIN := "4WD"; MIN_WEIGHT_KG := 1e-308;
     SKILL_LEVEL := 50; LUCK_LEVEL := 50 |}.

Definition juggernaut : car :=
  {| HORSEPOWER := 1e-200; DRIVETRAIN := "4WD"; MIN_WEIGHT_KG := 1e200;
     SKILL_LEVEL := 50; LUCK_LEVEL := 50 |}.

Lemma quattro_valid : valid_entrant quattro.
Proof. repeat split; reflexivity. Defined.

Lemma time_taken_positive_unless_rounded_witness :
  exists t, time_taken quattro 1 = inr t /\ (0 <? t)%float = true.
Proof.
  assert (Hl : in_luck_range quattro 1) by (split; reflexivity).
  destruct (time_taken_positive_unless_rounded quattro 1 quattro_valid Hl)
    as (_ & _ & _ & H).
  destruct H as [Ht Hpos]; [reflexivity | reflexivity |].
  eexists. split; [exact Ht | exact Hpos].
Defined.

(** The claim C8 fails on two valid entrants: the score of the first
    rounds to zero and line 166 raises, the score of the second overflows
    and its time is 0.0. *)
Lemma valid_entrants_without_positive_time :
  (valid_entrant juggernaut /\ in_luck_range juggernaut 1 /\
   time_taken juggernaut 1 = inl ZeroDivisionError) /\
  (valid_entrant featherweight /\ in_luck_range featherweight 1 /\
   time_taken featherweight 1 = inr 0%float /\
   (0 <? 0)%float = false).
Proof.
  repeat split; reflexivity.
Qed.

(** The claim C2 fails on a car of negative horsepower: no error is raised,
    a time is computed, and it is negative. *)
Lemma negative_horsepower_is_timed :
  (HORSEPOWER reversed <=? 0)%float = true /\
  exists t, time_taken reversed 1 = inr t /\ (t <? 0)%float = true.
Proof.
  split; [reflexivity|].
  eexists. split; [vm_compute; reflexivity | reflexivity].
Qed.

Lemma non_positive_entrant_witness :
  exists t, time_taken reversed 1 = inr t /\ (t <? 0)%float = true.
Proof.
  assert (H0 : (HORSEPOWER reversed <=? 0)%float = true \/
               (MIN_WEIGHT_KG reversed <=? 0)%float = true)
    by (left; reflexivity).
  assert (Hl : positive_finite 1) by (split; reflexivity).
  assert (Hs : level (SKILL_LEVEL reversed)) by (split; reflexivity).
  destruct (non_positive_entrant reversed 1 H0 eq_refl eq_refl Hs Hl)
    as [_ H].
  destruct (H eq_refl eq_refl) as [_ Hsign].
  destruct (time_taken reversed 1) as [e|t] eqn:Ht;
    [vm_compute in Ht; discriminate Ht|].
  exists t. split; [reflexivity|].
  specialize (Hsign t eq_refl).
  change (xorb (HORSEPOWER reversed <? 0)%float
               (MIN_WEIGHT_KG reversed <? 0)%float) with true in Hsign.
  apply (proj2 Hsign). reflexivity.
Defined.

(** The quattro with 250 hp, with a driver of skill 80, and with front
    wheel drive. *)
Definition tuned : car :=
  {| HORSEPOWER := 250; DRIVETRAIN := "4WD"; MIN_WEIGHT_KG := 1000;
     SKILL_LEVEL := 50; LUCK_LEVEL := 50 |}.

Definition seasoned : car :=
  {| HORSEPOWER := 200; DRIVETRAIN := "4WD"; MIN_WEIGHT_KG := 1000;
     SKILL_LEVEL := 80; LUCK_LEVEL := 50 |}.

Definition two_wheeled : car :=
  {| HORSEPOWER := 200; DRIVETRAIN := "FWD"; MIN_WEIGHT_KG := 1000;
     SKILL_LEVEL := 50; LUCK_LEVEL := 50 |}.

(** Two cars whose horsepowers are one unit in the last place apart. *)
Definition standard : car :=
  {| HORSEPOWER := 255.5; DRIVETRAIN := "4WD"; MIN_WEIGHT_KG := 1000;
     SKILL_LEVEL := 50; LUCK_LEVEL := 50 |}.

Definition a_hair_more : car :=
  {| HORSEPOWER := 255.50000000000003; DRIVETRAIN := "4WD";
     MIN_WEIGHT_KG := 1000; SKILL_LEVEL := 50; LUCK_LEVEL := 50 |}.

(** And two whose weights are. *)
Definition ballasted : car :=
  {| HORSEPOWER := 200; DRIVETRAIN := "4WD";
     MIN_WEIGHT_KG := 800.0000000000002; SKILL_LEVEL := 50; LUCK_LEVEL := 50 |}.

Definition a_hair_heavier : car :=
  {| HORSEPOWER := 200; DRIVETRAIN := "4WD";
     MIN_WEIGHT_KG := 800.0000000000003; SKILL_LEVEL := 50; LUCK_LEVEL := 50 |}.

Lemma tuned_valid : valid_entrant tuned.
Proof. repeat split; reflexivity. Defined.

Lemma seasoned_valid : valid_entrant seasoned.
Proof.
  repeat split; reflexivity.
Defined.

Lemma two_wheeled_valid : valid_entrant two_wheeled.
Proof. repeat split; reflexivity. Defined.

(** The claim C9 fails on valid entrants that differ in horsepower only,
    and on valid entrants that differ in weight only: the one with more
    horsepower has the same time, not a smaller one, and the heavier one
    has the same time, not a larger one. *)
Lemma close_entrants_tie :
  (valid_entrant standard /\ valid_entrant a_hair_more /\
   in_luck_range standard 1 /\ in_luck_range a_hair_more 1 /\
   (HORSEPOWER standard <? HORSEPOWER a_hair_more)%float = true /\
   time_taken standard 1 = inr 372.75184046221221%float /\
   time_taken a_hair_more 1 = inr 372.75184046221221%float /\
   (372.75184046221221 <? 372.75184046221221)%float = false) /\
  (valid_entrant ballasted /\ valid_entrant a_hair_heavier /\
   in_luck_range ballasted 1 /\ in_luck_range a_hair_heavier 1 /\
   (MIN_WEIGHT_KG ballasted <? MIN_WEIGHT_KG a_hair_heavier)%float = true /\
   time_taken ballasted 1 = inr 380.95238095238108%float /\
   time_taken a_hair_heavier 1 = inr 380.95238095238108%float /\
   (380.95238095238108 <? 380.95238095238108)%float = false).
Proof. repeat split; reflexivity. Qed.

Lemma time_taken_monotone_witness :
  exists t1 t2,
    time_taken quattro 1 = inr t1 /\ time_taken tuned 1 = inr t2 /\
    (t2 <=? t1)%float = true.
Proof.
  assert (Hl : in_luck_range quattro 1) by (split; reflexivity).
  destruct (time_taken_monotone quattro tuned 1 quattro_valid tuned_valid Hl
              eq_refl eq_refl) as [Hhp _].
  destruct (Hhp eq_refl eq_refl (100 / (200 / 1000 * 1.05
                                        * (1 + ((50 - 50) / 50) * 0.1) * 1))%float
              eq_refl) as (t2 & T2 & Hle).
  eexists. exists t2. split; [reflexivity|]. split; [exact T2 | exact Hle].
Defined.

Lemma time_taken_not_increasing_in_skill_witness :
  exists t1 t2,
    time_taken quattro 1 = inr t1 /\ time_taken seasoned 1 = inr t2 /\
    (t2 <=? t1)%float = true.
Proof.
  assert (Hl : in_luck_range quattro 1) by (split; reflexivity).
  destruct (time_taken_not_increasing_in_skill quattro seasoned 1
              quattro_valid seasoned_valid Hl eq_refl eq_refl eq_refl eq_refl
              (100 / (200 / 1000 * 1.05
                      * (1 + ((50 - 50) / 50) * 0.1) * 1))%float eq_refl)
    as (t2 & T2 & Hle).
  eexists. exists t2. split; [reflexivity|]. split; [exact T2 | exact Hle].
Defined.

Lemma four_wheel_drive_never_slower_witness :
  exists t1 t2,
    time_taken two_wheeled 1 = inr t1 /\ time_taken quattro 1 = inr t2 /\
    (t2 <=? t1)%float = true.
Proof.
  assert (Hl : in_luck_range two_wheeled 1) by (split; reflexivity).
  assert (Hd : DRIVETRAIN two_wheeled <> "4WD") by discriminate.
  destruct (four_wheel_drive_never_slower two_wheeled quattro 1
              two_wheeled_valid quattro_valid Hl eq_refl eq_refl eq_refl
              Hd eq_refl
              (100 / (200 / 1000 * 1
                      * (1 + ((50 - 50) / 50) * 0.1) * 1))%float eq_refl)
    as (t2 & T2 & Hle).
  eexists. exists t2. split; [reflexivity|]. split; [exact T2 | exact Hle].
Defined.

Lemma time_taken_not_increasing_in_luck_witness :
  exists t1 t2,
    time_taken quattro 0.98 = inr t1 /\ time_taken quattro 1.02 = inr t2 /\
    (t2 <=? t1)%float = true.
Proof.
  assert (H1 : in_luck_range quattro 0.98) by (split; reflexivity).
  assert (H2 : in_luck_range quattro 1.02) by (split; reflexivity).
  destruct (time_taken_not_increasing_in_luck quattro 0.98 1.02
              quattro_valid H1 H2 eq_refl
              (100 / (200 / 1000 * 1.05
                      * (1 + ((50 - 50) / 50) * 0.1) * 0.98))%float eq_refl)
    as (t2 & T2 & Hle).
  eexists. exists t2. split; [reflexivity|]. split; [exact T2 | exact Hle].
Defined.

Lemma moderate_entrant_is_timed_witness :
  exists t, time_taken quattro 1 = inr t /\
            (0 <? t)%float = true /\ is_finite t = true.
Proof.
  assert (Hl : in_luck_range quattro 1) by (split; reflexivity).
  exact (moderate_entrant_is_timed quattro 1 quattro_valid Hl eq_refl eq_refl).
Defined.

End Binary64.
